(** * monlp/tokenizer: the simple tokenizer (tokenizer/simple.go)

    A shallow embedding of [SimpleTokenizer] and of the pieces of the Go
    library it calls ([utf8.DecodeRune], the [range]-over-string loop,
    [strings.ToLower], [fmt.Sprintf "%d"]), followed by the properties of
    the tokenizer.

    Conventions.
    - A Go [byte] and a Go [int]/[rune]/[int64] are integers in [Z].  The
      counters of the tokenizer are bounded by the length of the input
      ([Tokenize_counters]), so no 64-bit wrap-around is reachable and
      none is written.
    - A Go slice of bytes is a [list Z].
    - An index or slice expression that is out of range panics in Go: the
      model returns [Panic].  A loop that is not structurally recursive
      takes fuel and returns [OutOfFuel] when it runs dry.
    - [yield] is the consumer's callback.  The tokenizer state carries one
      ghost field, [yielded], the tokens handed to [yield] so far; the
      callback is a function of that history and of the new token. *)

From Stdlib Require Import String Ascii.
From Stdlib Require Import ZArith List Bool Lia Sorted.
Import ListNotations.
Open Scope Z_scope.

(** ** Results of fallible code *)

Inductive res (A : Type) : Type :=
| Ok (a : A)
| Panic
| OutOfFuel.

Arguments Ok {A} a.
Arguments Panic {A}.
Arguments OutOfFuel {A}.

Definition bind {A B : Type} (m : res A) (k : A -> res B) : res B :=
  match m with
  | Ok a => k a
  | Panic => Panic
  | OutOfFuel => OutOfFuel
  end.

Notation "x <- m ;; k" := (bind m (fun x => k))
  (at level 61, m at next level, right associativity).

(** ** Slices *)

Definition len (l : list Z) : Z := Z.of_nat (length l).

(** [s[i]] *)
Definition index (s : list Z) (i : Z) : res Z :=
  if (0 <=? i) && (i <? len s) then Ok (nth (Z.to_nat i) s 0) else Panic.

(** [s[lo:hi]] *)
Definition slice (s : list Z) (lo hi : Z) : res (list Z) :=
  if (0 <=? lo) && (lo <=? hi) && (hi <=? len s)
  then Ok (firstn (Z.to_nat (hi - lo)) (skipn (Z.to_nat lo) s))
  else Panic.

(** [s[lo:]] *)
Definition slice_from (s : list Z) (lo : Z) : res (list Z) :=
  slice s lo (len s).

(** ** unicode/utf8 *)

Definition RuneError : Z := 0xFFFD.
Definition RuneSelf : Z := 0x80.
Definition MaxRune : Z := 0x10FFFF.
Definition locb : Z := 0x80.
Definition hicb : Z := 0xBF.
Definition maskx : Z := 0x3F.
Definition mask2 : Z := 0x1F.
Definition mask3 : Z := 0x0F.
Definition mask4 : Z := 0x07.

(** The information [utf8.first] holds for a leading byte: one-byte ASCII,
    an illegal leading byte, or the size of the sequence with the range
    the second byte must lie in ([utf8.acceptRanges]). *)
Inductive firstInfo : Type :=
| FirstAS
| FirstXX
| FirstLead (sz lo hi : Z).

Definition first (p0 : Z) : firstInfo :=
  if p0 <? 0x80 then FirstAS
  else if p0 <? 0xC2 then FirstXX
  else if p0 <? 0xE0 then FirstLead 2 locb hicb
  else if p0 =? 0xE0 then FirstLead 3 0xA0 hicb
  else if p0 <? 0xED then FirstLead 3 locb hicb
  else if p0 =? 0xED then FirstLead 3 locb 0x9F
  else if p0 <? 0xF0 then FirstLead 3 locb hicb
  else if p0 =? 0xF0 then FirstLead 4 0x90 hicb
  else if p0 <? 0xF4 then FirstLead 4 locb hicb
  else if p0 =? 0xF4 then FirstLead 4 locb 0x8F
  else FirstXX.

(** [utf8.DecodeRune]: the rune at the head of [p] and its width in bytes;
    [(RuneError, 0)] on the empty slice and [(RuneError, 1)] on an invalid
    encoding. *)
Definition DecodeRune (p : list Z) : Z * Z :=
  match p with
  | [] => (RuneError, 0)
  | p0 :: tl1 =>
    match first p0 with
    | FirstAS => (p0, 1)
    | FirstXX => (RuneError, 1)
    | FirstLead sz lo hi =>
      if len p <? sz then (RuneError, 1)
      else
        match tl1 with
        | [] => (RuneError, 1)
        | b1 :: tl2 =>
          if (b1 <? lo) || (hi <? b1) then (RuneError, 1)
          else if sz <=? 2 then
            (Z.lor (Z.shiftl (Z.land p0 mask2) 6) (Z.land b1 maskx), 2)
          else
            match tl2 with
            | [] => (RuneError, 1)
            | b2 :: tl3 =>
              if (b2 <? locb) || (hicb <? b2) then (RuneError, 1)
              else if sz <=? 3 then
                (Z.lor (Z.lor (Z.shiftl (Z.land p0 mask3) 12)
                              (Z.shiftl (Z.land b1 maskx) 6))
                       (Z.land b2 maskx), 3)
              else
                match tl3 with
                | [] => (RuneError, 1)
                | b3 :: _ =>
                  if (b3 <? locb) || (hicb <? b3) then (RuneError, 1)
                  else
                    (Z.lor (Z.lor (Z.lor (Z.shiftl (Z.land p0 mask4) 18)
                                         (Z.shiftl (Z.land b1 maskx) 12))
                                  (Z.shiftl (Z.land b2 maskx) 6))
                           (Z.land b3 maskx), 4)
                end
            end
        end
    end
  end.

(** [utf8.AppendRune nil r]: the UTF-8 encoding of [r]; a surrogate or an
    out-of-range value is encoded as [RuneError]. *)
Definition EncodeRune (r : Z) : list Z :=
  if (0 <=? r) && (r <? 0x80) then [r]
  else if (0 <=? r) && (r <? 0x800) then
    [Z.lor 0xC0 (Z.shiftr r 6); Z.lor 0x80 (Z.land r maskx)]
  else if (r <? 0) || (MaxRune <? r) || ((0xD800 <=? r) && (r <=? 0xDFFF)) then
    [0xEF; 0xBF; 0xBD]
  else if r <? 0x10000 then
    [Z.lor 0xE0 (Z.shiftr r 12);
     Z.lor 0x80 (Z.land (Z.shiftr r 6) maskx);
     Z.lor 0x80 (Z.land r maskx)]
  else
    [Z.lor 0xF0 (Z.shiftr r 18);
     Z.lor 0x80 (Z.land (Z.shiftr r 12) maskx);
     Z.lor 0x80 (Z.land (Z.shiftr r 6) maskx);
     Z.lor 0x80 (Z.land r maskx)].

(** [for pos, rune := range string(s)]: the pairs the loop binds, in
    order.  [pos] is the byte offset of the rune; an invalid byte yields
    [RuneError] and the next iteration starts one byte later. *)
Fixpoint range_from (fuel : nat) (s : list Z) (pos : Z) : list (Z * Z) :=
  match fuel with
  | O => []
  | S fuel' =>
    match s with
    | [] => []
    | _ :: _ =>
      let '(r, sz) := DecodeRune s in
      (pos, r) :: range_from fuel' (skipn (Z.to_nat sz) s) (pos + sz)
    end
  end.

Definition range_string (s : list Z) : list (Z * Z) :=
  range_from (length s) s 0.

(** ** unicode and strings *)

(** The case ranges of [unicode.CaseRanges] that map an upper-case (or
    title-case) rune to its lower case, for the runes below U+0800: the
    only ones [outputLatin] hands to [strings.ToLower].  An entry
    [(lo, hi, stride, delta)] maps every [stride]-th rune from [lo] to
    [hi] to itself plus [delta]. *)
Definition lowerRanges : list (Z * Z * Z * Z) :=
  [
   (0x00C0, 0x00D6, 1, 32); (0x00D8, 0x00DE, 1, 32); (0x0100, 0x012E, 2, 1);
   (0x0130, 0x0130, 1, (-199)); (0x0132, 0x0136, 2, 1); (0x0139, 0x0147, 2, 1);
   (0x014A, 0x0176, 2, 1); (0x0178, 0x0178, 1, (-121)); (0x0179, 0x017D, 2, 1);
   (0x0181, 0x0181, 1, 210); (0x0182, 0x0184, 2, 1); (0x0186, 0x0186, 1, 206);
   (0x0187, 0x0187, 1, 1); (0x0189, 0x018A, 1, 205); (0x018B, 0x018B, 1, 1);
   (0x018E, 0x018E, 1, 79); (0x018F, 0x018F, 1, 202); (0x0190, 0x0190, 1, 203);
   (0x0191, 0x0191, 1, 1); (0x0193, 0x0193, 1, 205); (0x0194, 0x0194, 1, 207);
   (0x0196, 0x0196, 1, 211); (0x0197, 0x0197, 1, 209); (0x0198, 0x0198, 1, 1);
   (0x019C, 0x019C, 1, 211); (0x019D, 0x019D, 1, 213); (0x019F, 0x019F, 1, 214);
   (0x01A0, 0x01A4, 2, 1); (0x01A6, 0x01A6, 1, 218); (0x01A7, 0x01A7, 1, 1);
   (0x01A9, 0x01A9, 1, 218); (0x01AC, 0x01AC, 1, 1); (0x01AE, 0x01AE, 1, 218);
   (0x01AF, 0x01AF, 1, 1); (0x01B1, 0x01B2, 1, 217); (0x01B3, 0x01B5, 2, 1);
   (0x01B7, 0x01B7, 1, 219); (0x01B8, 0x01B8, 1, 1); (0x01BC, 0x01BC, 1, 1);
   (0x01C4, 0x01C4, 1, 2); (0x01C5, 0x01C5, 1, 1); (0x01C7, 0x01C7, 1, 2);
   (0x01C8, 0x01C8, 1, 1); (0x01CA, 0x01CA, 1, 2); (0x01CB, 0x01DB, 2, 1);
   (0x01DE, 0x01EE, 2, 1); (0x01F1, 0x01F1, 1, 2); (0x01F2, 0x01F4, 2, 1);
   (0x01F6, 0x01F6, 1, (-97)); (0x01F7, 0x01F7, 1, (-56)); (0x01F8, 0x021E, 2, 1);
   (0x0220, 0x0220, 1, (-130)); (0x0222, 0x0232, 2, 1); (0x023A, 0x023A, 1, 10795);
   (0x023B, 0x023B, 1, 1); (0x023D, 0x023D, 1, (-163)); (0x023E, 0x023E, 1, 10792);
   (0x0241, 0x0241, 1, 1); (0x0243, 0x0243, 1, (-195)); (0x0244, 0x0244, 1, 69);
   (0x0245, 0x0245, 1, 71); (0x0246, 0x024E, 2, 1); (0x0370, 0x0372, 2, 1);
   (0x0376, 0x0376, 1, 1); (0x037F, 0x037F, 1, 116); (0x0386, 0x0386, 1, 38);
   (0x0388, 0x038A, 1, 37); (0x038C, 0x038C, 1, 64); (0x038E, 0x038F, 1, 63);
   (0x0391, 0x03A1, 1, 32); (0x03A3, 0x03AB, 1, 32); (0x03CF, 0x03CF, 1, 8);
   (0x03D8, 0x03EE, 2, 1); (0x03F4, 0x03F4, 1, (-60)); (0x03F7, 0x03F7, 1, 1);
   (0x03F9, 0x03F9, 1, (-7)); (0x03FA, 0x03FA, 1, 1); (0x03FD, 0x03FF, 1, (-130));
   (0x0400, 0x040F, 1, 80); (0x0410, 0x042F, 1, 32); (0x0460, 0x0480, 2, 1);
   (0x048A, 0x04BE, 2, 1); (0x04C0, 0x04C0, 1, 15); (0x04C1, 0x04CD, 2, 1);
   (0x04D0, 0x052E, 2, 1); (0x0531, 0x0556, 1, 48)
  ].

Fixpoint to_lower_in (tbl : list (Z * Z * Z * Z)) (r : Z) : Z :=
  match tbl with
  | [] => r
  | (lo, hi, stride, delta) :: tbl' =>
    if (lo <=? r) && (r <=? hi) && ((r - lo) mod stride =? 0)
    then r + delta
    else to_lower_in tbl' r
  end.

(** [unicode.ToLower] *)
Definition unicode_ToLower (r : Z) : Z :=
  if r <=? 0x7F then
    if (0x41 <=? r) && (r <=? 0x5A) then r + 0x20 else r
  else to_lower_in lowerRanges r.

(** [strings.Map]: every rune of [s] is replaced by the encoding of its
    image; a negative image drops the rune. *)
Definition strings_Map (mapping : Z -> Z) (s : list Z) : list Z :=
  flat_map (fun pr : Z * Z =>
              let r := mapping (snd pr) in
              if 0 <=? r then EncodeRune r else [])
           (range_string s).

(** [strings.ToLower]: a byte-wise path for ASCII-only strings, and
    [strings.Map unicode.ToLower] otherwise. *)
Definition strings_ToLower (s : list Z) : list Z :=
  if forallb (fun c => c <? RuneSelf) s then
    map (fun c => if (0x41 <=? c) && (c <=? 0x5A) then c + 0x20 else c) s
  else strings_Map unicode_ToLower s.

(** [strconv.Itoa], the [%d] verb of [fmt.Sprintf]. *)
Fixpoint digits (fuel : nat) (n : Z) (acc : list Z) : list Z :=
  match fuel with
  | O => acc
  | S fuel' =>
    if n <? 10 then (0x30 + n) :: acc
    else digits fuel' (n / 10) ((0x30 + n mod 10) :: acc)
  end.

Definition Itoa (n : Z) : list Z :=
  if n <? 0 then 0x2D :: digits 20 (- n) [] else digits 20 n [].

(** The bytes of a string literal. *)
Definition bytes_of (s : string) : list Z :=
  map (fun a => Z.of_N (N_of_ascii a)) (list_ascii_of_string s).

(** ** tokenizer/simple.go *)

Definition MAX_TOKEN_SIZE : Z := 23.
Definition MARKER_PER_TOKENS : Z := 100.

Record Token : Type := mkToken {
  TokenBytes : list Z;   (* [1 + MAX_TOKEN_SIZE]byte *)
  TokenPos : Z
}.

(** [copy(token.TokenBytes[1:], s)] into a zeroed array: at most
    [MAX_TOKEN_SIZE] bytes of [s] fit, the rest of the array stays 0. *)
Definition copy_payload (s : list Z) : list Z :=
  firstn 23 s ++ repeat 0 (23 - Nat.min 23 (length s)).

(** The three statements every emitting site repeats:
    [token.TokenBytes[0] = byte(len(s))], [copy(token.TokenBytes[1:], s)],
    [token.TokenPos = int64(p)]. *)
Definition makeToken (s : list Z) (p : Z) : Token :=
  {| TokenBytes := (len s mod 256) :: copy_payload s; TokenPos := p |}.

(** The payload length a token records, and the payload bytes it stores. *)
Definition payload_len (tk : Token) : Z := hd 0 (TokenBytes tk).
Definition payload (tk : Token) : list Z :=
  firstn (Z.to_nat (payload_len tk)) (tl (TokenBytes tk)).

Record SimpleTokenizer : Type := mkTokenizer {
  input : list Z;
  begin : Z;
  currTokenPos : Z;
  nextMarker : Z;
  latinBuf : list Z;
  Done : bool;
  yielded : list Token   (* ghost: the arguments of the calls to yield *)
}.

Definition NewSimpleTokenizer (inp : list Z) : SimpleTokenizer :=
  {| input := inp; begin := 0; currTokenPos := 0;
     nextMarker := MARKER_PER_TOKENS; latinBuf := []; Done := false;
     yielded := [] |}.

Definition set_begin (v : Z) (t : SimpleTokenizer) : SimpleTokenizer :=
  {| input := input t; begin := v; currTokenPos := currTokenPos t;
     nextMarker := nextMarker t; latinBuf := latinBuf t; Done := Done t;
     yielded := yielded t |}.

Definition set_currTokenPos (v : Z) (t : SimpleTokenizer) : SimpleTokenizer :=
  {| input := input t; begin := begin t; currTokenPos := v;
     nextMarker := nextMarker t; latinBuf := latinBuf t; Done := Done t;
     yielded := yielded t |}.

Definition set_nextMarker (v : Z) (t : SimpleTokenizer) : SimpleTokenizer :=
  {| input := input t; begin := begin t; currTokenPos := currTokenPos t;
     nextMarker := v; latinBuf := latinBuf t; Done := Done t;
     yielded := yielded t |}.

Definition set_latinBuf (v : list Z) (t : SimpleTokenizer) : SimpleTokenizer :=
  {| input := input t; begin := begin t; currTokenPos := currTokenPos t;
     nextMarker := nextMarker t; latinBuf := v; Done := Done t;
     yielded := yielded t |}.

Definition set_Done (v : bool) (t : SimpleTokenizer) : SimpleTokenizer :=
  {| input := input t; begin := begin t; currTokenPos := currTokenPos t;
     nextMarker := nextMarker t; latinBuf := latinBuf t; Done := v;
     yielded := yielded t |}.

Definition isBreakerRune (rune : Z) : bool :=
  (rune <? 33) || (rune =? 127) || (rune =? RuneError).

Definition isLatin (rune : Z) : bool :=
  rune <? 0x7FF.

(** The values a [handler] variable takes. *)
Inductive handler : Type :=
| beginToken
| breakerToken
| latinToken
| cjkToken.

(** The test [outputLatin] applies to an ASCII byte. *)
Definition isAlnum (b : Z) : bool :=
  ((0x30 <=? b) && (b <=? 0x39)) || ((0x61 <=? b) && (b <=? 0x7A))
  || ((0x41 <=? b) && (b <=? 0x5A)).

(** The loop of [outputLatin]; [rest] is [ibuf[i:]] and [buf] the contents
    of [t.latinBuf]. *)
Fixpoint latin_loop (rest : list Z) (buf : list Z) : res (list Z) :=
  match rest with
  | [] => Ok buf
  | b :: rest' =>
    if 127 <? b then
      if MAX_TOKEN_SIZE - 1 <=? len buf then Ok buf
      else
        match rest' with
        | [] => Panic
        | b' :: rest'' => latin_loop rest'' (buf ++ [b; b'])
        end
    else
      if MAX_TOKEN_SIZE <=? len buf then Ok buf
      else latin_loop rest' (if isAlnum b then buf ++ [b] else buf)
  end.

Section Handlers.

(** The consumer: given the tokens it has received so far and a new
    one, whether it wants more. *)
Variable yield : list Token -> Token -> bool.

(** [yield(token)]: records the call and returns the consumer's answer. *)
Definition call_yield (tk : Token) (t : SimpleTokenizer)
  : bool * SimpleTokenizer :=
  (yield (yielded t) tk,
   {| input := input t; begin := begin t; currTokenPos := currTokenPos t;
      nextMarker := nextMarker t; latinBuf := latinBuf t; Done := Done t;
      yielded := yielded t ++ [tk] |}).

Definition incrTokenCount (n pos : Z) (t : SimpleTokenizer)
  : SimpleTokenizer :=
  let t := set_currTokenPos (currTokenPos t + n) t in
  if nextMarker t <=? currTokenPos t then
    let mkStr := bytes_of "_MARKER_" ++ Itoa (nextMarker t) in
    let token := makeToken mkStr pos in
    let '(more, t) := call_yield token t in
    let t := if more then t else set_Done true t in
    set_nextMarker (nextMarker t + MARKER_PER_TOKENS) t
  else t.

Definition outputLatin (pos : Z) (t : SimpleTokenizer)
  : res SimpleTokenizer :=
  ibuf <- slice (input t) (begin t) pos ;;
  buf <- latin_loop ibuf [] ;;
  let t := set_latinBuf buf t in
  if 1 <? len buf then
    let ls := strings_ToLower buf in
    let token := makeToken ls (currTokenPos t) in
    let '(more, t) := call_yield token t in
    if more then Ok (incrTokenCount 1 pos t)
    else Ok (set_Done true t)
  else Ok (incrTokenCount 1 pos t).

(** The loop of [outputCJK]. *)
Fixpoint cjk_loop (fuel : nat) (ibuf : list Z) (ia ib ic id : Z)
         (t : SimpleTokenizer) : res SimpleTokenizer :=
  if ia <? id then
    match fuel with
    | O => OutOfFuel
    | S fuel' =>
      w <- slice ibuf ia id ;;
      let token := makeToken w (currTokenPos t) in
      let '(more, t) := call_yield token t in
      if more then
        let t := incrTokenCount 1 (begin t + ia) t in
        if Done t then Ok t
        else
          tail <- slice_from ibuf id ;;
          let sz := snd (DecodeRune tail) in
          cjk_loop fuel' ibuf ib ic id (id + sz) t
      else Ok (set_Done true t)
    end
  else Ok t.

Definition outputCJK (pos : Z) (t : SimpleTokenizer)
  : res SimpleTokenizer :=
  ibuf <- slice (input t) (begin t) pos ;;
  let ia := 0 in
  let ib := snd (DecodeRune ibuf) in
  tl1 <- slice_from ibuf ib ;;
  let ic := ib + snd (DecodeRune tl1) in
  tl2 <- slice_from ibuf ic ;;
  let id := ic + snd (DecodeRune tl2) in
  cjk_loop (S (length ibuf)) ibuf ia ib ic id t.

(** [h(t, pos, rune, yield)] *)
Definition call (h : handler) (t : SimpleTokenizer) (pos rune : Z)
  : res (handler * SimpleTokenizer) :=
  match h with
  | beginToken =>
    if isBreakerRune rune then Ok (breakerToken, set_begin pos t)
    else if isLatin rune then Ok (latinToken, set_begin pos t)
    else Ok (cjkToken, set_begin pos t)
  | breakerToken =>
    if isBreakerRune rune then Ok (breakerToken, t)
    else
      c <- (if begin t + 1 <? pos then Ok true
            else b <- index (input t) (begin t) ;; Ok (negb (b =? 0x20))) ;;
      let t := if c : bool then incrTokenCount 1 pos t else t in
      if isLatin rune then Ok (latinToken, set_begin pos t)
      else Ok (cjkToken, set_begin pos t)
  | latinToken =>
    if isBreakerRune rune then
      t <- outputLatin pos t ;; Ok (breakerToken, set_begin pos t)
    else if isLatin rune then Ok (latinToken, t)
    else
      t <- outputLatin pos t ;; Ok (cjkToken, set_begin pos t)
  | cjkToken =>
    if isBreakerRune rune then
      t <- outputCJK pos t ;; Ok (breakerToken, set_begin pos t)
    else Ok (cjkToken, t)
  end.

(** How the [range] loop of [Tokenize] is left: by its [return], or by
    running out of runes with [h] the handler in force. *)
Inductive loop_exit : Type :=
| Returned (t : SimpleTokenizer)
| Finished (h : handler) (t : SimpleTokenizer).

(** The loop of [Tokenize] over the pairs of [range string(t.input)]. *)
Fixpoint scan (rs : list (Z * Z)) (h : handler) (t : SimpleTokenizer)
  : res loop_exit :=
  match rs with
  | [] => Ok (Finished h t)
  | (pos, rune) :: rs' =>
    if Done t then Ok (Returned t)
    else
      ht <- call h t pos rune ;;
      scan rs' (fst ht) (snd ht)
  end.

(** The function [Tokenize] returns, applied to [yield]. *)
Definition Tokenize (t : SimpleTokenizer) : res SimpleTokenizer :=
  if len (input t) =? 0 then Ok t
  else
    e <- scan (range_string (input t)) beginToken t ;;
    match e with
    | Returned t => Ok t
    | Finished h t =>
      ht <- call h t (len (input t)) 0x20 ;; Ok (snd ht)
    end.

End Handlers.

(** The consumer of a [for range] loop that never breaks. *)
Definition take_all : list Token -> Token -> bool := fun _ _ => true.

(** The consumer that breaks on receiving its [n]-th token. *)
Definition take_n (n : nat) : list Token -> Token -> bool :=
  fun seen _ => (S (length seen) <? n)%nat.

(** The (payload, position) pairs a run over [s] hands to [yield]. *)
Definition tokens_of (y : list Token -> Token -> bool) (s : string)
  : res (list (list Z * Z)) :=
  t <- Tokenize y (NewSimpleTokenizer (bytes_of s)) ;;
  Ok (map (fun tk => (payload tk, TokenPos tk)) (yielded t)).

Definition expect (l : list (string * Z)) : res (list (list Z * Z)) :=
  Ok (map (fun p => (bytes_of (fst p), snd p)) l).

(** ** Vocabulary of the properties *)

(** The three categories of section 4.1, as the handlers test them: first
    [isBreakerRune], then [isLatin] on what is left. *)
Inductive rune_class : Type :=
| Breaker
| LatinClass
| CJKClass.

Definition classify (rune : Z) : rune_class :=
  if isBreakerRune rune then Breaker
  else if isLatin rune then LatinClass
  else CJKClass.

(** The relation between the two counters that [incrTokenCount] keeps:
    the next threshold is the first multiple of the interval above the
    logical position. *)
Definition marker_inv (t : SimpleTokenizer) : Prop :=
  0 <= currTokenPos t /\
  nextMarker t = MARKER_PER_TOKENS * (currTokenPos t / MARKER_PER_TOKENS + 1).

(** The marker token of threshold [m] generated at byte offset [off]. *)
Definition marker_token (m off : Z) : Token :=
  makeToken (bytes_of "_MARKER_" ++ Itoa m) off.

(** [c] is the encoding of one code point that is not a breaker: the
    decoder reads it whole and returns a rune [isBreakerRune] rejects. *)
Definition run_char (c : list Z) : Prop :=
  exists r, isBreakerRune r = false /\ DecodeRune c = (r, len c).

(** A continuation byte. *)
Definition cont (b : Z) : Prop := locb <= b <= hicb.

(** The byte length of the first [k] characters of a run. *)
Definition offs (cs : list (list Z)) (k : nat) : Z :=
  len (concat (firstn k cs)).

(** The [i]-th window of a run of characters, as section 4.4 words it:
    up to three consecutive code points starting at the [i]-th. *)
Definition window (cs : list (list Z)) (i : nat) : list (list Z) :=
  firstn 3 (skipn i cs).

(** What section 4.4 and 4.5 say the [i]-th window of a run contributes
    to the output: the token of the window, at logical position
    [curr + i], followed by a marker when that advance reaches a multiple
    of the interval.  [base] is the byte offset of the run. *)
Definition ngram_group (cs : list (list Z)) (base curr : Z) (i : nat)
  : list Token :=
  makeToken (concat (window cs i)) (curr + Z.of_nat i)
  :: (if (curr + Z.of_nat i + 1) mod MARKER_PER_TOKENS =? 0
      then [marker_token (curr + Z.of_nat i + 1) (base + offs cs i)]
      else []).

Definition ngram_tokens (cs : list (list Z)) (base curr : Z) : list Token :=
  flat_map (ngram_group cs base curr) (seq 0 (length cs)).

(** The loop of [outputCJK] read along the characters of the run rather
    than along byte offsets; [off] is the offset [ia] of the first
    character of [cs] in the run. *)
Fixpoint cjk_chars (yield : list Token -> Token -> bool)
         (cs : list (list Z)) (off : Z) (t : SimpleTokenizer)
  : SimpleTokenizer :=
  match cs with
  | [] => t
  | c :: cs' =>
    let token := makeToken (concat (firstn 3 cs)) (currTokenPos t) in
    let '(more, t) := call_yield yield token t in
    if more then
      let t := incrTokenCount yield 1 (begin t + off) t in
      if Done t then t else cjk_chars yield cs' (off + len c) t
    else set_Done true t
  end.

(** [c] is the encoding of one Latin-class code point. *)
Definition latin_char (c : list Z) : Prop :=
  exists r, isBreakerRune r = false /\ isLatin r = true /\
            DecodeRune c = (r, len c).

(** Whether the three bytes of U+FFFD start [l], and whether they occur
    anywhere in [l]. *)
Definition starts_fffd (l : list Z) : bool :=
  match l with
  | a :: b :: c :: _ => (a =? 0xEF) && (b =? 0xBF) && (c =? 0xBD)
  | _ => false
  end.

Fixpoint contains_fffd (l : list Z) : bool :=
  match l with
  | [] => false
  | _ :: tl => starts_fffd l || contains_fffd tl
  end.

(** The payload area of a token is free of U+FFFD. *)
Definition fffd_free (tk : Token) : Prop :=
  contains_fffd (tl (TokenBytes tk)) = false.

(** A case range maps runes below U+0800 to runes below U+0800, or is one
    of the two single-rune ranges whose image is U+2C65 or U+2C66. *)
Definition range_entry_ok (e : Z * Z * Z * Z) : bool :=
  let '(lo, hi, stride, delta) := e in
  (lo <=? hi) && (0 <=? lo + delta) &&
  ((hi + delta <? 0x800) ||
   ((lo =? hi) && (0x2C65 <=? lo + delta) && (lo + delta <=? 0x2C66))).

(** What holds of the counters and of the output at every point of a
    run of [Tokenize]. *)
Definition out_inv (t : SimpleTokenizer) : Prop :=
  marker_inv t /\ Forall fffd_free (yielded t).

(** What holds when the [range] loop is about to read the rune at byte
    offset [pos] with [h] the handler in force: the run that is open
    starts at [t.begin], is not empty and is made of whole characters of
    its class; the logical position has not overtaken the run start. *)
Definition scan_inv (h : handler) (t : SimpleTokenizer) (pos : Z) : Prop :=
  out_inv t /\
  0 <= begin t <= pos /\ pos <= len (input t) /\
  currTokenPos t <= begin t /\
  match h with
  | beginToken => True
  | breakerToken => begin t < pos
  | latinToken =>
    begin t < pos /\
    exists cs, Forall latin_char cs /\
               slice (input t) (begin t) pos = Ok (concat cs)
  | cjkToken =>
    begin t < pos /\
    exists cs, Forall run_char cs /\
               slice (input t) (begin t) pos = Ok (concat cs)
  end.

(** The byte-wise lower-casing of the ASCII path of [strings.ToLower]. *)
Definition lower_byte (c : Z) : Z :=
  if (0x41 <=? c) && (c <=? 0x5A) then c + 0x20 else c.

(** Whether [outputLatin] keeps a character of a Latin run: an ASCII
    byte when it is a digit or a letter, a two-byte character always. *)
Definition keeps (c : list Z) : bool :=
  match c with
  | [b] => isAlnum b
  | _ => true
  end.

(** A byte that is an ASCII digit, an ASCII lower-case letter, or not
    ASCII at all. *)
Definition clean_byte (b : Z) : Prop :=
  0x30 <= b <= 0x39 \/ 0x61 <= b <= 0x7A \/ 0x80 <= b.

(** The state a [loop_exit] carries. *)
Definition exit_state (e : loop_exit) : SimpleTokenizer :=
  match e with
  | Returned t => t
  | Finished _ t => t
  end.

(** The consumer asked for more after each of the tokens of [l]. *)
Definition accepted (yield : list Token -> Token -> bool) (l : list Token)
  : Prop :=
  forall pre tk post, l = pre ++ tk :: post -> yield pre tk = true.

(** Cancellation is honoured in state [t]: either the consumer has
    accepted every token and [Done] is unset, or it declined the last
    token it was handed, accepted all the others, and [Done] is set. *)
Definition cancel_ok (yield : list Token -> Token -> bool)
           (t : SimpleTokenizer) : Prop :=
  if Done t then
    exists l tk, yielded t = l ++ [tk] /\ accepted yield l /\
                 yield l tk = false
  else accepted yield (yielded t).

(** A case range maps no rune from U+0080 on into ASCII, except a
    single-rune range whose image is a lower-case ASCII letter. *)
Definition range_entry_clean (e : Z * Z * Z * Z) : bool :=
  let '(lo, hi, stride, delta) := e in
  (0x80 <=? lo + delta) ||
  ((lo =? hi) && (0x61 <=? lo + delta) && (lo + delta <=? 0x7A)).

(** A token as a consumer can rely on it for an input of [n] bytes: a
    24-byte array, a recorded payload length of at least 1, a position
    between 0 and [n]. *)
Definition tok_wf (n : Z) (tk : Token) : Prop :=
  length (TokenBytes tk) = 24%nat /\
  1 <= payload_len tk /\
  0 <= TokenPos tk <= n.

(** The marker an advance of the logical position from [c] to [c + 1]
    calls for: none unless [c + 1] is a multiple of the interval, and
    then the one of threshold [c + 1], recording the byte offset [off]. *)
Definition marker_due (c off : Z) : list Token :=
  if (c + 1) mod MARKER_PER_TOKENS =? 0 then [marker_token (c + 1) off]
  else [].

(** * Properties *)

(** ** The repository's tests (simple_test.go), run on the embedding *)

Module Tests.
Local Open Scope string_scope.

Example TestLatin_1 :
  tokens_of take_all "hello, world" = expect [("hello", 0); ("world", 1)].
Proof. vm_compute. reflexivity. Qed.

Example TestLatin_2 :
  tokens_of take_all "hello, world!   From Me."
  = expect [("hello", 0); ("world", 1); ("from", 3); ("me", 4)].
Proof. vm_compute. reflexivity. Qed.

Example TestLatin_3 :
  tokens_of take_all (String "032" (String "032" (append "H1N1 Covid19 a b@b" (String "010" "c3"))))
  = expect [("h1n1", 1); ("covid19", 2); ("bb", 4); ("c3", 6)].
Proof. vm_compute. reflexivity. Qed.

Example TestLatin_4 :
  tokens_of take_all "À bon chat, bon rat"
  = expect [("à", 0); ("bon", 1); ("chat", 2); ("bon", 3); ("rat", 4)].
Proof. vm_compute. reflexivity. Qed.

Example TestLatin_5 :
  tokens_of take_all "Mieux vaut prévenir que guérir"
  = expect [("mieux", 0); ("vaut", 1); ("prévenir", 2); ("que", 3);
            ("guérir", 4)].
Proof. vm_compute. reflexivity. Qed.

Example TestLatin_6 :
  tokens_of take_all "abcdefgHiJklMnOpqRstUvwxyz is a 26 letters long word!"
  = expect [("abcdefghijklmnopqrstuvw", 0); ("is", 1); ("26", 3);
            ("letters", 4); ("long", 5); ("word", 6)].
Proof. vm_compute. reflexivity. Qed.

Example TestCJK_1 :
  tokens_of take_all "相见时难别亦难"
  = expect [("相见时", 0); ("见时难", 1); ("时难别", 2); ("难别亦", 3);
            ("别亦难", 4); ("亦难", 5); ("难", 6)].
Proof. vm_compute. reflexivity. Qed.

Example TestCJK_2 :
  tokens_of take_all "I come, I see, I征服"
  = expect [("come", 1); ("see", 3); ("征服", 5); ("服", 6)].
Proof. vm_compute. reflexivity. Qed.

Example TestCJK_3 :
  tokens_of take_all "中华铅笔2B的好用, 6B的太软了"
  = expect [("中华铅", 0); ("华铅笔", 1); ("铅笔2", 2); ("笔2B", 3);
            ("2B的", 4); ("B的好", 5); ("的好用", 6); ("好用,", 7);
            ("用,", 8); (",", 9); ("6b", 10); ("的太软", 11);
            ("太软了", 12); ("软了", 13); ("了", 14)].
Proof. vm_compute. reflexivity. Qed.

End Tests.

(** ** Rune classification *)

(** C7. Every rune falls in exactly one category, decided by these
    thresholds: breaker iff below 33, equal to 127 or equal to the decode
    error sentinel U+FFFD; otherwise Latin iff below 0x7FF, and CJK iff
    not. *)
Theorem classify_thresholds : forall rune : Z,
  RuneError = 65533 /\
  (isBreakerRune rune = true <-> rune < 33 \/ rune = 127 \/ rune = RuneError) /\
  (classify rune = Breaker <-> isBreakerRune rune = true) /\
  (classify rune = LatinClass <-> isBreakerRune rune = false /\ rune < 2047) /\
  (classify rune = CJKClass <-> isBreakerRune rune = false /\ 2047 <= rune) /\
  (isLatin rune = true <-> rune < 2047).
Proof.
  intro rune. unfold classify, isLatin, isBreakerRune, RuneError.
  split; [reflexivity|].
  split.
  { rewrite !orb_true_iff, Z.ltb_lt, !Z.eqb_eq. tauto. }
  destruct (rune <? 33) eqn:E1; destruct (rune =? 127) eqn:E2;
    destruct (rune =? 65533) eqn:E3; destruct (rune <? 2047) eqn:E4; simpl;
    rewrite ?Z.ltb_lt, ?Z.ltb_ge, ?Z.eqb_eq, ?Z.eqb_neq in *;
    repeat split; intros; try discriminate; try lia; try tauto;
    try (destruct H; try discriminate; lia).
Qed.

(** Projections of an updated state. *)
Ltac st_simpl :=
  cbn [set_begin set_currTokenPos set_nextMarker set_latinBuf set_Done
       call_yield input begin currTokenPos nextMarker latinBuf Done yielded
       fst snd] in *.

(** ** Slices and tokens *)

Lemma len_nonneg : forall l, 0 <= len l.
Proof. intros; unfold len; lia. Qed.

Lemma len_app : forall a b, len (a ++ b) = len a + len b.
Proof. intros; unfold len; rewrite length_app; lia. Qed.

Lemma len_cons : forall x l, len (x :: l) = 1 + len l.
Proof. intros; unfold len; simpl length; lia. Qed.

Lemma len_nil : len [] = 0.
Proof. reflexivity. Qed.

Lemma len_zero_nil : forall l, len l = 0 -> l = [].
Proof. intros [|x l]; [reflexivity|rewrite len_cons; pose proof (len_nonneg l); lia]. Qed.

Lemma slice_ok : forall s lo hi,
  0 <= lo -> lo <= hi -> hi <= len s ->
  slice s lo hi = Ok (firstn (Z.to_nat (hi - lo)) (skipn (Z.to_nat lo) s)).
Proof.
  intros s lo hi H1 H2 H3. unfold slice.
  destruct (0 <=? lo) eqn:E1; [|apply Z.leb_gt in E1; lia].
  destruct (lo <=? hi) eqn:E2; [|apply Z.leb_gt in E2; lia].
  destruct (hi <=? len s) eqn:E3; [|apply Z.leb_gt in E3; lia].
  reflexivity.
Qed.

Lemma slice_inv : forall s lo hi w,
  slice s lo hi = Ok w ->
  0 <= lo /\ lo <= hi /\ hi <= len s /\
  w = firstn (Z.to_nat (hi - lo)) (skipn (Z.to_nat lo) s).
Proof.
  intros s lo hi w H. unfold slice in H.
  destruct (0 <=? lo) eqn:E1; [|discriminate].
  destruct (lo <=? hi) eqn:E2; [|discriminate].
  destruct (hi <=? len s) eqn:E3; [|discriminate].
  simpl in H. inversion H.
  apply Z.leb_le in E1, E2, E3. auto.
Qed.

Lemma slice_len : forall s lo hi w, slice s lo hi = Ok w -> len w = hi - lo.
Proof.
  intros s lo hi w H. apply slice_inv in H. destruct H as (H1 & H2 & H3 & ->).
  unfold len in *. rewrite length_firstn, length_skipn. lia.
Qed.

(** A slice described by the pieces of the buffer around it. *)
Lemma slice_app3 : forall a b c,
  slice (a ++ b ++ c) (len a) (len a + len b) = Ok b.
Proof.
  intros a b c. rewrite slice_ok.
  - unfold len. rewrite Nat2Z.id.
    rewrite skipn_app, skipn_all, Nat.sub_diag. simpl.
    replace (Z.to_nat (Z.of_nat (length a) + Z.of_nat (length b) - Z.of_nat (length a)))
      with (length b) by lia.
    rewrite firstn_app, firstn_all, Nat.sub_diag. simpl. now rewrite app_nil_r.
  - apply len_nonneg.
  - pose proof (len_nonneg b); lia.
  - rewrite !len_app. pose proof (len_nonneg c); lia.
Qed.

Lemma slice_split : forall s lo hi w,
  slice s lo hi = Ok w ->
  exists a c, s = a ++ w ++ c /\ len a = lo /\ len w = hi - lo.
Proof.
  intros s lo hi w H. pose proof (slice_len _ _ _ _ H) as Hl.
  apply slice_inv in H. destruct H as (H1 & H2 & H3 & Hw).
  exists (firstn (Z.to_nat lo) s), (skipn (Z.to_nat (hi - lo)) (skipn (Z.to_nat lo) s)).
  split; [|split].
  - rewrite Hw, firstn_skipn, firstn_skipn. reflexivity.
  - unfold len in *. rewrite length_firstn. lia.
  - exact Hl.
Qed.

Lemma copy_payload_short : forall s,
  (length s <= 23)%nat -> copy_payload s = s ++ repeat 0 (23 - length s).
Proof.
  intros s H. unfold copy_payload.
  rewrite firstn_all2 by lia. now rewrite Nat.min_r by lia.
Qed.

Lemma length_copy_payload : forall s, length (copy_payload s) = 23%nat.
Proof.
  intros s. unfold copy_payload. rewrite length_app, length_firstn, repeat_length. lia.
Qed.

(** A payload that fits is stored whole. *)
Lemma payload_makeToken : forall s p,
  len s <= MAX_TOKEN_SIZE -> payload (makeToken s p) = s.
Proof.
  intros s p H. unfold MAX_TOKEN_SIZE, len in H.
  unfold payload, payload_len, makeToken. simpl.
  rewrite Z.mod_small by (unfold len; lia).
  unfold len. rewrite Nat2Z.id, copy_payload_short by lia.
  rewrite firstn_app, firstn_all, Nat.sub_diag. simpl. apply app_nil_r.
Qed.

Lemma payload_len_makeToken : forall s p,
  payload_len (makeToken s p) = len s mod 256.
Proof. reflexivity. Qed.

(** ** Decimal rendering *)

Lemma digits_length : forall fuel k n acc,
  (k <= fuel)%nat -> 0 <= n < 10 ^ Z.of_nat (S k) ->
  (length (digits fuel n acc) <= S k + length acc)%nat.
Proof.
  induction fuel as [|fuel IH]; intros k n acc Hk Hn.
  - simpl. lia.
  - simpl. destruct (n <? 10) eqn:E.
    + simpl. lia.
    + apply Z.ltb_ge in E. destruct k as [|k].
      * change (10 ^ Z.of_nat 1) with 10 in Hn. lia.
      * specialize (IH k (n / 10) ((48 + n mod 10) :: acc)).
        assert (H10 : 10 ^ Z.of_nat (S (S k)) = 10 * 10 ^ Z.of_nat (S k)).
        { rewrite (Nat2Z.inj_succ (S k)), Z.pow_succ_r by lia. reflexivity. }
        assert (0 <= n / 10 < 10 ^ Z.of_nat (S k)).
        { split; [apply Z.div_pos; lia|]. apply Z.div_lt_upper_bound; lia. }
        simpl length in IH. lia.
Qed.

Lemma Itoa_length : forall n, 0 <= n < 10 ^ 15 -> len (Itoa n) <= 15.
Proof.
  intros n Hn. unfold Itoa. destruct (n <? 0) eqn:E; [apply Z.ltb_lt in E; lia|].
  pose proof (digits_length 20 14 n [] ltac:(lia)) as H.
  change (Z.of_nat 15) with 15 in H. specialize (H Hn).
  change (length (@nil Z)) with 0%nat in H.
  unfold len. lia.
Qed.

(** ** Marker injection *)

Lemma marker_inv_init : forall inp, marker_inv (NewSimpleTokenizer inp).
Proof. intros; split; simpl; [lia|reflexivity]. Qed.

(** One call of [incrTokenCount], whatever the consumer answers: an
    advance of the logical position by [n] (at most the interval) that
    reaches or crosses a multiple of 100 hands exactly one marker token
    to the consumer, with payload ["_MARKER_"] followed by the decimal
    threshold and with the position [pos] it is given, and moves the
    next threshold up by 100; an advance that crosses nothing emits
    nothing and leaves the threshold alone. *)
Lemma incr_crossing :
  forall (yield : list Token -> Token -> bool) (n pos : Z)
         (t : SimpleTokenizer),
  marker_inv t ->
  1 <= n <= MARKER_PER_TOKENS ->
  nextMarker t < 10 ^ 15 ->
  let t' := incrTokenCount yield n pos t in
  let c := currTokenPos t in
  currTokenPos t' = c + n /\
  marker_inv t' /\
  (c / 100 < (c + n) / 100 ->
     nextMarker t = 100 * ((c + n) / 100) /\
     yielded t' = yielded t ++ [marker_token (nextMarker t) pos] /\
     payload (marker_token (nextMarker t) pos)
       = bytes_of "_MARKER_" ++ Itoa (nextMarker t) /\
     TokenPos (marker_token (nextMarker t) pos) = pos /\
     nextMarker t' = nextMarker t + 100) /\
  (c / 100 = (c + n) / 100 ->
     yielded t' = yielded t /\ nextMarker t' = nextMarker t).
Proof.
  intros yield n pos t [Hc Hm] Hn Hbig t' c. subst t' c.
  unfold MARKER_PER_TOKENS in *. unfold incrTokenCount, marker_inv, MARKER_PER_TOKENS.
  st_simpl.
  destruct (nextMarker t <=? currTokenPos t + n) eqn:E.
  - apply Z.leb_le in E.
    assert (Hcross : (currTokenPos t + n) / 100 = currTokenPos t / 100 + 1)
      by (clear Hbig; Z.to_euclidean_division_equations; lia).
    assert (Hpay : payload (marker_token (nextMarker t) pos)
                   = bytes_of "_MARKER_" ++ Itoa (nextMarker t)).
    { apply payload_makeToken. rewrite len_app.
      assert (len (Itoa (nextMarker t)) <= 15).
      { apply Itoa_length. split; [|exact Hbig].
        clear Hbig. Z.to_euclidean_division_equations; lia. }
      change (len (bytes_of "_MARKER_")) with 8. unfold MAX_TOKEN_SIZE. lia. }
    destruct (yield _ _); st_simpl; rewrite Hcross;
      repeat split; auto; try lia; try (intros; lia).
  - apply Z.leb_gt in E.
    assert (Hstay : (currTokenPos t + n) / 100 = currTokenPos t / 100)
      by (clear Hbig; Z.to_euclidean_division_equations; lia).
    st_simpl. rewrite !Hstay. repeat split; auto; try lia.
Qed.

Lemma incr_currTokenPos : forall yield n pos t,
  currTokenPos (incrTokenCount yield n pos t) = currTokenPos t + n.
Proof.
  intros. unfold incrTokenCount. st_simpl.
  destruct (nextMarker t <=? currTokenPos t + n); [|reflexivity].
  destruct (yield _ _); reflexivity.
Qed.

Lemma incr_input : forall yield n pos t,
  input (incrTokenCount yield n pos t) = input t.
Proof.
  intros. unfold incrTokenCount. st_simpl.
  destruct (nextMarker t <=? currTokenPos t + n); [|reflexivity].
  destruct (yield _ _); reflexivity.
Qed.

Lemma incr_begin : forall yield n pos t,
  begin (incrTokenCount yield n pos t) = begin t.
Proof.
  intros. unfold incrTokenCount. st_simpl.
  destruct (nextMarker t <=? currTokenPos t + n); [|reflexivity].
  destruct (yield _ _); reflexivity.
Qed.

Lemma index_of_slice : forall s lo hi b w,
  slice s lo hi = Ok (b :: w) -> index s lo = Ok b.
Proof.
  intros s lo hi b w H. apply slice_split in H.
  destruct H as (a & c & -> & Ha & Hw).
  unfold index. rewrite !len_app, len_cons.
  pose proof (len_nonneg a). pose proof (len_nonneg w). pose proof (len_nonneg c).
  destruct (0 <=? lo) eqn:E1; [|apply Z.leb_gt in E1; lia].
  destruct (lo <? len a + (1 + len w + len c)) eqn:E2; [|apply Z.ltb_ge in E2; lia].
  simpl. f_equal. subst lo. unfold len. rewrite Nat2Z.id.
  rewrite app_nth2, Nat.sub_diag by lia. reflexivity.
Qed.

(** ** Breaker runs *)

(** C4. When a Latin or CJK rune closes the breaker run
    [input[begin:pos]], made of the characters [chars]: a run that is
    exactly one ASCII space leaves the logical position as it is; any
    other run (more than one character, or one character that is not the
    space) advances it by exactly 1. *)
Theorem breaker_run_advance :
  forall (yield : list Token -> Token -> bool) (t : SimpleTokenizer)
         (pos rune : Z) (chars : list (list Z)),
  isBreakerRune rune = false ->
  chars <> [] ->
  Forall (fun c => c <> []) chars ->
  slice (input t) (begin t) pos = Ok (concat chars) ->
  exists t',
    call yield breakerToken t pos rune
      = Ok (if isLatin rune then latinToken else cjkToken, t') /\
    begin t' = pos /\
    (chars = [[32]] -> currTokenPos t' = currTokenPos t) /\
    (chars <> [[32]] -> currTokenPos t' = currTokenPos t + 1).
Proof.
  intros yield t pos rune chars Hr Hne Hall Hs.
  pose proof (slice_len _ _ _ _ Hs) as Hlen.
  destruct chars as [|c cs]; [congruence|]. clear Hne.
  inversion Hall as [|? ? Hc Hcs]; subst.
  destruct c as [|b c]; [congruence|]. clear Hc.
  simpl concat in *. simpl app in *.
  pose proof (index_of_slice _ _ _ _ _ Hs) as Hi.
  rewrite len_cons in Hlen. pose proof (len_nonneg (c ++ concat cs)) as Hnn.
  unfold call. rewrite Hr.
  destruct (begin t + 1 <? pos) eqn:E.
  - apply Z.ltb_lt in E. simpl bind.
    exists (set_begin pos (incrTokenCount yield 1 pos t)).
    split; [destruct (isLatin rune); reflexivity|].
    split; [reflexivity|]. st_simpl. rewrite incr_currTokenPos.
    split; [|intros _; reflexivity].
    intros Heq. inversion Heq; subst. simpl in Hlen. lia.
  - apply Z.ltb_ge in E. rewrite Hi. simpl bind.
    assert (Hz : len (c ++ concat cs) = 0) by lia.
    apply len_zero_nil in Hz. apply app_eq_nil in Hz. destruct Hz as [-> Hz].
    assert (cs = []).
    { destruct cs as [|c' cs']; [reflexivity|].
      inversion Hcs; subst. simpl in Hz. apply app_eq_nil in Hz.
      destruct Hz; congruence. }
    subst cs.
    destruct (b =? 32) eqn:Eb; simpl negb; cbv iota.
    + apply Z.eqb_eq in Eb. subst b. exists (set_begin pos t).
      split; [destruct (isLatin rune); reflexivity|].
      split; [reflexivity|]. split; [reflexivity|]. congruence.
    + apply Z.eqb_neq in Eb.
      exists (set_begin pos (incrTokenCount yield 1 pos t)).
      split; [destruct (isLatin rune); reflexivity|].
      split; [reflexivity|]. st_simpl. rewrite incr_currTokenPos.
      split; [|reflexivity]. intros Heq. inversion Heq. congruence.
Qed.

(** ** UTF-8 decoding *)

Lemma first_lead_size : forall p0 sz lo hi,
  first p0 = FirstLead sz lo hi ->
  2 <= sz <= 4 /\ locb <= lo /\ hi <= hicb /\
  (sz = 2 -> 0xC2 <= p0 < 0xE0) /\
  (sz = 3 -> 0xE0 <= p0 < 0xF0 /\ (p0 = 0xE0 -> lo = 0xA0)) /\
  (sz = 4 -> 0xF0 <= p0 <= 0xF4 /\ (p0 = 0xF0 -> lo = 0x90)).
Proof.
  intros p0 sz lo hi H. unfold first, locb, hicb in *.
  repeat match type of H with
         | (if ?c then _ else _) = _ => destruct c eqn:?
         end; inversion H; subst;
    rewrite ?Z.ltb_lt, ?Z.ltb_ge, ?Z.eqb_eq, ?Z.eqb_neq in *;
    repeat split; intros; try lia.
Qed.

Lemma first_ascii : forall p0, first p0 = FirstAS <-> p0 < 0x80.
Proof.
  intros p0. unfold first.
  repeat match goal with
         | |- context [if ?c then _ else _] => destruct c eqn:?
         end;
    rewrite ?Z.ltb_lt, ?Z.ltb_ge, ?Z.eqb_eq, ?Z.eqb_neq in *;
    split; intros; try discriminate; try lia; reflexivity.
Qed.

Lemma DecodeRune_nil : DecodeRune [] = (RuneError, 0).
Proof. reflexivity. Qed.

(** The width of a decoded rune: 0 on the empty slice only, otherwise
    between 1 and 4 and never more than what the slice holds. *)
Lemma DecodeRune_size : forall p,
  p <> [] ->
  1 <= snd (DecodeRune p) <= 4 /\ snd (DecodeRune p) <= len p.
Proof.
  intros p Hp. destruct p as [|p0 tl1]; [congruence|].
  unfold DecodeRune. rewrite !len_cons.
  destruct (first p0) as [| |sz lo hi]; simpl snd;
    try (pose proof (len_nonneg tl1); lia).
  destruct (_ <? sz); simpl snd; try (pose proof (len_nonneg tl1); lia).
  destruct tl1 as [|b1 tl2]; simpl snd; [rewrite len_nil; lia|].
  rewrite len_cons.
  destruct (_ || _); simpl snd; try (pose proof (len_nonneg tl2); lia).
  destruct (sz <=? 2); simpl snd; try (pose proof (len_nonneg tl2); lia).
  destruct tl2 as [|b2 tl3]; simpl snd; [rewrite len_nil; lia|].
  rewrite len_cons.
  destruct (_ || _); simpl snd; try (pose proof (len_nonneg tl3); lia).
  destruct (sz <=? 3); simpl snd; try (pose proof (len_nonneg tl3); lia).
  destruct tl3 as [|b3 tl4]; simpl snd; [rewrite len_nil; lia|].
  rewrite len_cons.
  destruct (_ || _); simpl snd; pose proof (len_nonneg tl4); lia.
Qed.

Lemma DecodeRune_size_nonneg : forall p, 0 <= snd (DecodeRune p) <= len p.
Proof.
  intros [|p0 tl1].
  - simpl. rewrite len_nil. lia.
  - pose proof (DecodeRune_size (p0 :: tl1) ltac:(discriminate)). lia.
Qed.

Lemma RuneError_breaker : isBreakerRune RuneError = true.
Proof. reflexivity. Qed.

Lemma not_breaker_not_error : forall r, isBreakerRune r = false -> r <> RuneError.
Proof. intros r H ->. rewrite RuneError_breaker in H. discriminate. Qed.

Ltac pair_inv H :=
  apply pair_equal_spec in H; destruct H as [? ?]; subst.

Ltac decode_err H :=
  exfalso; pair_inv H; congruence.

(** The shapes of a valid encoding. *)
Lemma DecodeRune_valid_inv : forall s r sz,
  DecodeRune s = (r, sz) -> r <> RuneError ->
  (exists p0 tl, s = p0 :: tl /\ sz = 1 /\ r = p0 /\ p0 < 0x80) \/
  (exists p0 b1 tl, s = p0 :: b1 :: tl /\ sz = 2 /\
     0xC2 <= p0 < 0xE0 /\ cont b1 /\
     r = Z.lor (Z.shiftl (Z.land p0 mask2) 6) (Z.land b1 maskx)) \/
  (exists p0 b1 b2 tl, s = p0 :: b1 :: b2 :: tl /\ sz = 3 /\
     0xE0 <= p0 < 0xF0 /\ (p0 = 0xE0 -> 0xA0 <= b1) /\
     cont b1 /\ cont b2 /\
     r = Z.lor (Z.lor (Z.shiftl (Z.land p0 mask3) 12)
                      (Z.shiftl (Z.land b1 maskx) 6))
               (Z.land b2 maskx)) \/
  (exists p0 b1 b2 b3 tl, s = p0 :: b1 :: b2 :: b3 :: tl /\ sz = 4 /\
     0xF0 <= p0 <= 0xF4 /\ (p0 = 0xF0 -> 0x90 <= b1) /\
     cont b1 /\ cont b2 /\ cont b3 /\
     r = Z.lor (Z.lor (Z.lor (Z.shiftl (Z.land p0 mask4) 18)
                             (Z.shiftl (Z.land b1 maskx) 12))
                      (Z.shiftl (Z.land b2 maskx) 6))
               (Z.land b3 maskx)).
Proof.
  intros s r sz H Hr. destruct s as [|p0 tl1]; [decode_err H|].
  unfold DecodeRune in H.
  destruct (first p0) as [| |n lo hi] eqn:F.
  - left. apply first_ascii in F. pair_inv H. eauto 6.
  - decode_err H.
  - right. apply first_lead_size in F.
    destruct F as (Hn & Hlo & Hhi & F2 & F3 & F4).
    destruct (_ <? n); [decode_err H|].
    destruct tl1 as [|b1 tl2]; [decode_err H|].
    destruct ((b1 <? lo) || (hi <? b1)) eqn:C1; [decode_err H|].
    apply orb_false_iff in C1. destruct C1 as [C1a C1b].
    apply Z.ltb_ge in C1a, C1b.
    assert (Hc1 : cont b1) by (unfold cont; lia).
    destruct (n <=? 2) eqn:N2.
    { apply Z.leb_le in N2. left. pair_inv H.
      unfold cont, locb, hicb in *.
      exists p0, b1, tl2. repeat split; auto; try lia; apply F2; lia. }
    apply Z.leb_gt in N2. right.
    destruct tl2 as [|b2 tl3]; [decode_err H|].
    destruct ((b2 <? locb) || (hicb <? b2)) eqn:C2; [decode_err H|].
    apply orb_false_iff in C2. destruct C2 as [C2a C2b].
    apply Z.ltb_ge in C2a, C2b.
    assert (Hc2 : cont b2) by (unfold cont; lia).
    destruct (n <=? 3) eqn:N3.
    { apply Z.leb_le in N3. left. pair_inv H.
      assert (Hn3 : n = 3) by lia. destruct (F3 Hn3) as [Hp Hl].
      unfold cont, locb, hicb in *.
      exists p0, b1, b2, tl3. repeat split; auto; try lia;
        intros E; specialize (Hl E); lia. }
    apply Z.leb_gt in N3. right.
    destruct tl3 as [|b3 tl4]; [decode_err H|].
    destruct ((b3 <? locb) || (hicb <? b3)) eqn:C3; [decode_err H|].
    apply orb_false_iff in C3. destruct C3 as [C3a C3b].
    apply Z.ltb_ge in C3a, C3b.
    assert (Hc3 : cont b3) by (unfold cont; lia).
    pair_inv H.
    assert (Hn4 : n = 4) by lia. destruct (F4 Hn4) as [Hp Hl].
    unfold cont, locb, hicb in *.
    exists p0, b1, b2, b3, tl4. repeat split; auto; try lia;
      intros E; specialize (Hl E); lia.
Qed.

(** A valid encoding decodes to the same rune whatever follows it, and
    the decoder reads exactly its bytes. *)
Lemma DecodeRune_prefix : forall s r sz,
  DecodeRune s = (r, sz) -> r <> RuneError ->
  exists c tl, s = c ++ tl /\ len c = sz /\
               forall rest, DecodeRune (c ++ rest) = (r, sz).
Proof.
  intros s r sz H Hr. destruct s as [|p0 tl1]; [decode_err H|].
  unfold DecodeRune in H.
  destruct (first p0) as [| |n lo hi] eqn:F.
  - pair_inv H. exists [r], tl1. repeat split.
    intros rest. simpl. now rewrite F.
  - decode_err H.
  - pose proof (first_lead_size _ _ _ _ F) as (Hn & _).
    assert (Hfit : forall k l, n <= k -> 0 <= len l -> (k + len l <? n) = false)
      by (intros; apply Z.ltb_ge; lia).
    destruct (len (p0 :: tl1) <? n) eqn:L; [decode_err H|].
    destruct tl1 as [|b1 tl2]; [decode_err H|].
    destruct ((b1 <? lo) || (hi <? b1)) eqn:C1; [decode_err H|].
    destruct (n <=? 2) eqn:N2.
    { pair_inv H. exists [p0; b1], tl2. repeat split.
      intros rest. simpl app. unfold DecodeRune. rewrite F, C1, N2.
      rewrite !len_cons, Z.add_assoc.
      rewrite Hfit; [reflexivity|apply Z.leb_le in N2; lia|apply len_nonneg]. }
    destruct tl2 as [|b2 tl3]; [decode_err H|].
    destruct ((b2 <? locb) || (hicb <? b2)) eqn:C2; [decode_err H|].
    destruct (n <=? 3) eqn:N3.
    { pair_inv H. exists [p0; b1; b2], tl3. repeat split.
      intros rest. simpl app. unfold DecodeRune. rewrite F, C1, N2, C2, N3.
      rewrite !len_cons, !Z.add_assoc.
      rewrite Hfit; [reflexivity|apply Z.leb_le in N3; lia|apply len_nonneg]. }
    destruct tl3 as [|b3 tl4]; [decode_err H|].
    destruct ((b3 <? locb) || (hicb <? b3)) eqn:C3; [decode_err H|].
    pair_inv H. exists [p0; b1; b2; b3], tl4. repeat split.
    intros rest. simpl app. unfold DecodeRune. rewrite F, C1, N2, C2, N3, C3.
    rewrite !len_cons, !Z.add_assoc.
    rewrite Hfit; [reflexivity|lia|apply len_nonneg].
Qed.

Lemma run_char_nonempty : forall c, run_char c -> c <> [].
Proof.
  intros c (r & Hb & Hd) ->. rewrite DecodeRune_nil in Hd.
  inversion Hd; subst. rewrite RuneError_breaker in Hb. discriminate.
Qed.

Lemma run_char_len : forall c, run_char c -> 1 <= len c <= 4.
Proof.
  intros c H. pose proof (run_char_nonempty _ H) as Hne.
  destruct H as (r & Hb & Hd).
  pose proof (DecodeRune_size _ Hne) as Hs. rewrite Hd in Hs. simpl in Hs. lia.
Qed.

Lemma run_char_ext : forall c rest,
  run_char c -> DecodeRune (c ++ rest) = DecodeRune c.
Proof.
  intros c rest (r & Hb & Hd).
  destruct (DecodeRune_prefix _ _ _ Hd (not_breaker_not_error _ Hb))
    as (c' & tl & Hc & Hl & Hext).
  assert (tl = []).
  { apply (f_equal len) in Hc. rewrite len_app in Hc.
    apply len_zero_nil. lia. }
  subst tl. rewrite app_nil_r in Hc. subst c'. rewrite Hext, Hd. reflexivity.
Qed.

(** ** CJK n-gram extraction *)

Lemma offs_0 : forall cs, offs cs 0 = 0.
Proof. reflexivity. Qed.

Lemma offs_cons : forall c cs k, offs (c :: cs) (S k) = len c + offs cs k.
Proof. intros. unfold offs. simpl. apply len_app. Qed.

Lemma offs_nil : forall k, offs [] k = 0.
Proof. intros [|k]; reflexivity. Qed.

Lemma slice_from_app : forall a b, slice_from (a ++ b) (len a) = Ok b.
Proof.
  intros a b. unfold slice_from.
  pose proof (slice_app3 a b []) as H. rewrite app_nil_r in H.
  rewrite len_app. exact H.
Qed.

Lemma concat_firstn_skipn : forall (cs : list (list Z)) k,
  concat cs = concat (firstn k cs) ++ concat (skipn k cs).
Proof. intros. rewrite <- concat_app, firstn_skipn. reflexivity. Qed.

(** The width of the rune decoded at the head of a run is the length of
    its first character, or 0 when the run is empty. *)
Lemma decode_head_run : forall cs,
  Forall run_char cs ->
  snd (DecodeRune (concat cs)) = offs cs 1.
Proof.
  intros [|c cs] H.
  - reflexivity.
  - inversion H as [|? ? Hc Hcs]; subst. simpl concat.
    rewrite run_char_ext by assumption.
    destruct Hc as (r & _ & Hd). rewrite Hd. simpl snd.
    rewrite offs_cons, offs_0. lia.
Qed.

Lemma offs_succ : forall cs k,
  Forall run_char cs ->
  offs cs (S k) = offs cs k + snd (DecodeRune (concat (skipn k cs))).
Proof.
  induction cs as [|c cs IH]; intros k H.
  - rewrite !offs_nil. simpl. destruct k; reflexivity.
  - inversion H as [|? ? Hc Hcs]; subst. destruct k as [|k].
    + rewrite offs_0. simpl skipn. rewrite decode_head_run by assumption. lia.
    + rewrite !offs_cons. simpl skipn. rewrite IH by assumption. lia.
Qed.

(** The loop over byte offsets and the loop over characters agree. *)
Lemma cjk_loop_chars : forall yield cs pre fuel t,
  Forall run_char cs ->
  (length cs <= fuel)%nat ->
  cjk_loop yield fuel (pre ++ concat cs)
           (len pre) (len pre + offs cs 1) (len pre + offs cs 2)
           (len pre + offs cs 3) t
  = Ok (cjk_chars yield cs (len pre) t).
Proof.
  intros yield cs. induction cs as [|c cs IH]; intros pre fuel t Hcs Hf.
  - rewrite !offs_nil. destruct fuel; simpl;
      replace (len pre <? len pre + 0) with false
        by (symmetry; apply Z.ltb_ge; lia); reflexivity.
  - inversion Hcs as [|? ? Hc Hcs']; subst.
    pose proof (run_char_len _ Hc) as Hlen.
    destruct fuel as [|fuel]; [simpl in Hf; lia|].
    assert (Hlt : (len pre <? len pre + offs (c :: cs) 3) = true).
    { apply Z.ltb_lt. rewrite offs_cons.
      pose proof (len_nonneg (concat (firstn 2 cs))). unfold offs. lia. }
    cbn [cjk_loop cjk_chars]. rewrite Hlt.
    assert (Hw : slice (pre ++ concat (c :: cs)) (len pre)
                       (len pre + offs (c :: cs) 3)
                 = Ok (concat (firstn 3 (c :: cs)))).
    { rewrite (concat_firstn_skipn (c :: cs) 3). apply slice_app3. }
    rewrite Hw. cbn [bind].
    destruct (call_yield yield _ t) as [more t1] eqn:Y.
    destruct more; [|reflexivity].
    destruct (Done (incrTokenCount yield 1 (begin t1 + len pre) t1)) eqn:D;
      [reflexivity|].
    assert (Htl : slice_from (pre ++ concat (c :: cs))
                             (len pre + offs (c :: cs) 3)
                  = Ok (concat (skipn 3 (c :: cs)))).
    { rewrite (concat_firstn_skipn (c :: cs) 3), app_assoc.
      unfold offs. rewrite <- len_app. apply slice_from_app. }
    rewrite Htl. cbn [bind].
    rewrite <- Z.add_assoc, <- (offs_succ (c :: cs) 3) by assumption.
    specialize (IH (pre ++ c) fuel
                   (incrTokenCount yield 1 (begin t1 + len pre) t1) Hcs'
                   ltac:(simpl in Hf; lia)).
    rewrite !offs_cons. rewrite len_app in IH.
    simpl concat. rewrite app_assoc.
    rewrite <- IH. f_equal; try lia.
    rewrite offs_0. lia.
Qed.

Lemma slice_from_offs : forall cs k,
  slice_from (concat cs) (offs cs k) = Ok (concat (skipn k cs)).
Proof.
  intros cs k. rewrite (concat_firstn_skipn cs k) at 1.
  unfold offs. apply slice_from_app.
Qed.

Lemma run_length_le : forall cs,
  Forall run_char cs -> (length cs <= length (concat cs))%nat.
Proof.
  induction 1 as [|c cs Hc Hcs IH]; simpl; [lia|].
  rewrite length_app. pose proof (run_char_len _ Hc) as Hl. unfold len in Hl. lia.
Qed.

Lemma outputCJK_chars : forall yield t pos cs,
  Forall run_char cs ->
  slice (input t) (begin t) pos = Ok (concat cs) ->
  outputCJK yield pos t = Ok (cjk_chars yield cs 0 t).
Proof.
  intros yield t pos cs Hcs Hs. unfold outputCJK. rewrite Hs. cbn [bind].
  rewrite decode_head_run by assumption.
  rewrite slice_from_offs. cbn [bind].
  rewrite <- offs_succ by assumption.
  rewrite slice_from_offs. cbn [bind].
  rewrite <- offs_succ by assumption.
  pose proof (cjk_loop_chars yield cs [] (S (length (concat cs))) t Hcs) as H.
  rewrite len_nil in H. simpl app in H. rewrite !Z.add_0_l in H.
  apply H. pose proof (run_length_le cs Hcs). lia.
Qed.

(** An accepted advance by one slot, under the marker invariant. *)
Lemma incr_accepted : forall yield pos t,
  (forall seen tk, yield seen tk = true) ->
  marker_inv t ->
  let t' := incrTokenCount yield 1 pos t in
  yielded t' = yielded t ++
    (if (currTokenPos t + 1) mod MARKER_PER_TOKENS =? 0
     then [marker_token (currTokenPos t + 1) pos] else []) /\
  currTokenPos t' = currTokenPos t + 1 /\
  marker_inv t' /\ Done t' = Done t /\ begin t' = begin t /\
  input t' = input t.
Proof.
  intros yield pos t Hy [Hc Hm] t'. subst t'.
  unfold incrTokenCount, marker_inv, MARKER_PER_TOKENS in *. st_simpl.
  rewrite Hy.
  destruct (nextMarker t <=? currTokenPos t + 1) eqn:E.
  - apply Z.leb_le in E. st_simpl.
    assert (H1 : currTokenPos t + 1 = nextMarker t)
      by (Z.to_euclidean_division_equations; lia).
    assert (H2 : (currTokenPos t + 1) mod 100 = 0)
      by (Z.to_euclidean_division_equations; lia).
    rewrite H2. simpl Z.eqb. cbv iota. rewrite H1.
    repeat split; auto; try lia;
      try (Z.to_euclidean_division_equations; lia).
  - apply Z.leb_gt in E. st_simpl.
    assert (H2 : (currTokenPos t + 1) mod 100 <> 0)
      by (Z.to_euclidean_division_equations; lia).
    apply Z.eqb_neq in H2. rewrite H2. rewrite app_nil_r.
    repeat split; auto; try lia;
      try (Z.to_euclidean_division_equations; lia).
Qed.

Lemma ngram_group_shift : forall c cs base curr i,
  ngram_group (c :: cs) base curr (S i)
  = ngram_group cs (base + len c) (curr + 1) i.
Proof.
  intros. unfold ngram_group, window. simpl skipn.
  rewrite offs_cons, Nat2Z.inj_succ.
  replace (curr + Z.succ (Z.of_nat i)) with (curr + 1 + Z.of_nat i) by lia.
  replace (base + (len c + offs cs i)) with (base + len c + offs cs i) by lia.
  reflexivity.
Qed.

Lemma ngram_tokens_cons : forall c cs base curr,
  ngram_tokens (c :: cs) base curr
  = ngram_group (c :: cs) base curr 0
    ++ ngram_tokens cs (base + len c) (curr + 1).
Proof.
  intros. unfold ngram_tokens. simpl length. simpl seq.
  cbn [flat_map]. f_equal.
  rewrite <- seq_shift, flat_map_concat_map, map_map, <- flat_map_concat_map.
  apply flat_map_ext. intros i. apply ngram_group_shift.
Qed.

(** With a consumer that takes everything, the loop over the characters
    of a run emits the windows of section 4.4 with their markers. *)
Lemma cjk_chars_accepted : forall yield cs off t,
  (forall seen tk, yield seen tk = true) ->
  marker_inv t -> Done t = false ->
  let t' := cjk_chars yield cs off t in
  yielded t' = yielded t ++ ngram_tokens cs (begin t + off) (currTokenPos t) /\
  currTokenPos t' = currTokenPos t + Z.of_nat (length cs) /\
  marker_inv t' /\ Done t' = false /\ begin t' = begin t /\
  input t' = input t.
Proof.
  intros yield cs. induction cs as [|c cs IH]; intros off t Hy Hm Hd t'.
  - subst t'. simpl. unfold ngram_tokens. simpl. rewrite app_nil_r, Z.add_0_r.
    repeat split; auto; apply Hm.
  - set (t1 := {| input := input t; begin := begin t;
                  currTokenPos := currTokenPos t; nextMarker := nextMarker t;
                  latinBuf := latinBuf t; Done := Done t;
                  yielded := yielded t ++ [makeToken (concat (firstn 3 (c :: cs))) (currTokenPos t)] |}).
    assert (Hm1 : marker_inv t1) by exact Hm.
    destruct (incr_accepted yield (begin t1 + off) t1 Hy Hm1)
      as (Y & C & M & D & B & I).
    assert (E : t' = cjk_chars yield cs (off + len c)
                       (incrTokenCount yield 1 (begin t1 + off) t1)).
    { subst t'. cbn [cjk_chars]. unfold call_yield at 1. rewrite Hy.
      cbv beta iota zeta. fold t1. rewrite D.
      change (Done t1) with (Done t). rewrite Hd. reflexivity. }
    destruct (IH (off + len c) _ Hy M ltac:(rewrite D; exact Hd))
      as (Y' & C' & M' & D' & B' & I').
    rewrite E, Y', C', B', I', Y, C, B, I.
    split; [|split; [|split; [exact M'|split; [exact D'|split; reflexivity]]]];
      subst t1; st_simpl.
    + rewrite ngram_tokens_cons. unfold ngram_group at 1, window.
      simpl skipn. rewrite offs_0, Z.add_0_r. simpl Z.of_nat.
      rewrite Z.add_0_r, <- !app_assoc. simpl app.
      replace (begin t + (off + len c)) with (begin t + off + len c) by lia.
      reflexivity.
    + simpl length. lia.
Qed.

Lemma run_bytes_le : forall ws,
  Forall run_char ws -> len (concat ws) <= 4 * Z.of_nat (length ws).
Proof.
  induction 1 as [|c ws Hc Hws IH]; simpl concat.
  - simpl. rewrite len_nil. lia.
  - rewrite len_app. pose proof (run_char_len _ Hc). simpl length. lia.
Qed.

Lemma Forall_firstn : forall (A : Type) (P : A -> Prop) n (l : list A),
  Forall P l -> Forall P (firstn n l).
Proof.
  intros A P n l H. rewrite <- (firstn_skipn n l) in H.
  apply Forall_app in H. tauto.
Qed.

Lemma Forall_skipn : forall (A : Type) (P : A -> Prop) n (l : list A),
  Forall P l -> Forall P (skipn n l).
Proof.
  intros A P n l H. rewrite <- (firstn_skipn n l) in H.
  apply Forall_app in H. tauto.
Qed.

Lemma window_run : forall cs i, Forall run_char cs -> Forall run_char (window cs i).
Proof.
  intros cs i H. unfold window. apply Forall_firstn, Forall_skipn, H.
Qed.

Lemma window_length : forall (cs : list (list Z)) i,
  (i < length cs)%nat ->
  length (window cs i)
  = (if (i + 3 <=? length cs)%nat then 3%nat else (length cs - i)%nat).
Proof.
  intros cs i Hi. unfold window. rewrite length_firstn, length_skipn.
  destruct (i + 3 <=? length cs)%nat eqn:E.
  - apply Nat.leb_le in E. lia.
  - apply Nat.leb_gt in E. lia.
Qed.

(** C2. Closing a CJK run of [n] code points (by a breaker, or by the
    trailing space of the flush) with a consumer that takes everything:
    the run hands over exactly [n] windows, the [i]-th being the raw
    bytes of the code points [i], [i+1], [i+2] of the run as far as they
    exist (so [n-2] windows of width 3, then one of width 2, then one of
    width 1 when [n >= 3]; widths 2, 1 when [n = 2]; width 1 when
    [n = 1]), stored unmodified, at logical position [curr + i]; each
    window is followed by the advance of the counter (and by its marker
    when the advance reaches a multiple of 100), so the counter ends
    [n] higher. *)
Theorem cjk_run_ngrams :
  forall (yield : list Token -> Token -> bool) (t : SimpleTokenizer)
         (pos rune : Z) (cs : list (list Z)),
  (forall seen tk, yield seen tk = true) ->
  marker_inv t ->
  Done t = false ->
  isBreakerRune rune = true ->
  Forall run_char cs ->
  slice (input t) (begin t) pos = Ok (concat cs) ->
  exists t',
    call yield cjkToken t pos rune = Ok (breakerToken, t') /\
    yielded t' = yielded t ++ ngram_tokens cs (begin t) (currTokenPos t) /\
    currTokenPos t' = currTokenPos t + Z.of_nat (length cs) /\
    forall i, (i < length cs)%nat ->
      length (window cs i)
        = (if (i + 3 <=? length cs)%nat then 3%nat else (length cs - i)%nat) /\
      payload (makeToken (concat (window cs i)) (currTokenPos t + Z.of_nat i))
        = concat (window cs i) /\
      TokenPos (makeToken (concat (window cs i)) (currTokenPos t + Z.of_nat i))
        = currTokenPos t + Z.of_nat i.
Proof.
  intros yield t pos rune cs Hy Hm Hd Hr Hcs Hs.
  destruct (cjk_chars_accepted yield cs 0 t Hy Hm Hd)
    as (Y & C & M & D & B & I).
  exists (set_begin pos (cjk_chars yield cs 0 t)).
  split.
  { unfold call. rewrite Hr, (outputCJK_chars yield t pos cs Hcs Hs).
    reflexivity. }
  st_simpl. rewrite Z.add_0_r in Y.
  split; [exact Y|]. split; [exact C|].
  intros i Hi. split; [apply window_length; exact Hi|].
  split; [|reflexivity].
  apply payload_makeToken.
  pose proof (run_bytes_le _ (window_run cs i Hcs)) as Hb.
  assert (length (window cs i) <= 3)%nat
    by (unfold window; rewrite length_firstn; lia).
  unfold MAX_TOKEN_SIZE. lia.
Qed.

(** ** Rune values *)

Lemma land_shiftl_small : forall q y k,
  0 <= k -> 0 <= y < 2 ^ k -> Z.land (Z.shiftl q k) y = 0.
Proof.
  intros q y k Hk Hy. apply Z.bits_inj'. intros n Hn.
  rewrite Z.land_spec, Z.bits_0.
  destruct (Z.lt_ge_cases n k) as [L|G].
  - rewrite Z.shiftl_spec_low by assumption. reflexivity.
  - destruct (Z.eq_dec y 0) as [->|Hy0].
    + rewrite Z.bits_0. apply andb_false_r.
    + rewrite (Z.bits_above_log2 y n); [apply andb_false_r|lia|].
      apply Z.log2_lt_pow2; [lia|].
      apply Z.lt_le_trans with (2 ^ k); [lia|].
      apply Z.pow_le_mono_r; lia.
Qed.

(** Fields that do not overlap are added by [Z.lor]. *)
Lemma lor_disjoint_add : forall x y k,
  0 <= k -> x mod 2 ^ k = 0 -> 0 <= y < 2 ^ k -> Z.lor x y = x + y.
Proof.
  intros x y k Hk Hx Hy.
  assert (E : x = Z.shiftl (x / 2 ^ k) k).
  { rewrite Z.shiftl_mul_pow2 by assumption.
    pose proof (Z.div_mod x (2 ^ k) ltac:(lia)). lia. }
  pose proof (Z.add_lor_land x y) as H.
  rewrite E in H at 2. rewrite land_shiftl_small in H by assumption. lia.
Qed.

Lemma land_maskx : forall b, Z.land b maskx = b mod 64.
Proof. intros. change maskx with (Z.ones 6). now rewrite Z.land_ones by lia. Qed.

Lemma land_mask2 : forall b, Z.land b mask2 = b mod 32.
Proof. intros. change mask2 with (Z.ones 5). now rewrite Z.land_ones by lia. Qed.

Lemma land_mask3 : forall b, Z.land b mask3 = b mod 16.
Proof. intros. change mask3 with (Z.ones 4). now rewrite Z.land_ones by lia. Qed.

Lemma land_mask4 : forall b, Z.land b mask4 = b mod 8.
Proof. intros. change mask4 with (Z.ones 3). now rewrite Z.land_ones by lia. Qed.

Lemma rune2_val : forall p0 b1,
  Z.lor (Z.shiftl (Z.land p0 mask2) 6) (Z.land b1 maskx)
  = (p0 mod 32) * 64 + b1 mod 64.
Proof.
  intros. rewrite land_mask2, land_maskx, Z.shiftl_mul_pow2 by lia.
  apply (lor_disjoint_add _ _ 6); [lia| |].
  - change (2 ^ 6) with 64. apply Z.mod_mul. lia.
  - change (2 ^ 6) with 64. apply Z.mod_pos_bound. lia.
Qed.

Lemma rune3_val : forall p0 b1 b2,
  Z.lor (Z.lor (Z.shiftl (Z.land p0 mask3) 12)
               (Z.shiftl (Z.land b1 maskx) 6))
        (Z.land b2 maskx)
  = (p0 mod 16) * 4096 + (b1 mod 64) * 64 + b2 mod 64.
Proof.
  intros. rewrite land_mask3, !land_maskx, !Z.shiftl_mul_pow2 by lia.
  change (2 ^ 12) with 4096. change (2 ^ 6) with 64.
  pose proof (Z.mod_pos_bound b1 64 ltac:(lia)) as H1.
  pose proof (Z.mod_pos_bound b2 64 ltac:(lia)) as H2.
  assert (E1 : Z.lor (p0 mod 16 * 4096) (b1 mod 64 * 64)
               = p0 mod 16 * 4096 + b1 mod 64 * 64).
  { apply (lor_disjoint_add _ _ 12); change (2 ^ 12) with 4096;
      [lia|apply Z.mod_mul; lia|lia]. }
  rewrite E1.
  apply (lor_disjoint_add _ _ 6); change (2 ^ 6) with 64; [lia| |assumption].
  replace (p0 mod 16 * 4096 + b1 mod 64 * 64)
    with ((p0 mod 16 * 64 + b1 mod 64) * 64) by lia.
  apply Z.mod_mul. lia.
Qed.

Lemma rune4_val : forall p0 b1 b2 b3,
  Z.lor (Z.lor (Z.lor (Z.shiftl (Z.land p0 mask4) 18)
                      (Z.shiftl (Z.land b1 maskx) 12))
               (Z.shiftl (Z.land b2 maskx) 6))
        (Z.land b3 maskx)
  = (p0 mod 8) * 262144 + (b1 mod 64) * 4096 + (b2 mod 64) * 64 + b3 mod 64.
Proof.
  intros. rewrite land_mask4, !land_maskx, !Z.shiftl_mul_pow2 by lia.
  change (2 ^ 18) with 262144. change (2 ^ 12) with 4096.
  change (2 ^ 6) with 64.
  pose proof (Z.mod_pos_bound b1 64 ltac:(lia)) as H1.
  pose proof (Z.mod_pos_bound b2 64 ltac:(lia)) as H2.
  pose proof (Z.mod_pos_bound b3 64 ltac:(lia)) as H3.
  assert (E1 : Z.lor (p0 mod 8 * 262144) (b1 mod 64 * 4096)
               = p0 mod 8 * 262144 + b1 mod 64 * 4096).
  { apply (lor_disjoint_add _ _ 18); change (2 ^ 18) with 262144;
      [lia|apply Z.mod_mul; lia|lia]. }
  rewrite E1.
  assert (E2 : Z.lor (p0 mod 8 * 262144 + b1 mod 64 * 4096) (b2 mod 64 * 64)
               = p0 mod 8 * 262144 + b1 mod 64 * 4096 + b2 mod 64 * 64).
  { apply (lor_disjoint_add _ _ 12); change (2 ^ 12) with 4096; [lia| |lia].
    replace (p0 mod 8 * 262144 + b1 mod 64 * 4096)
      with ((p0 mod 8 * 64 + b1 mod 64) * 4096) by lia.
    apply Z.mod_mul. lia. }
  rewrite E2.
  apply (lor_disjoint_add _ _ 6); change (2 ^ 6) with 64; [lia| |assumption].
  replace (p0 mod 8 * 262144 + b1 mod 64 * 4096 + b2 mod 64 * 64)
    with ((p0 mod 8 * 4096 + b1 mod 64 * 64 + b2 mod 64) * 64) by lia.
  apply Z.mod_mul. lia.
Qed.

(** A Latin-class character is one ASCII byte or a two-byte sequence. *)
Lemma latin_char_shape : forall c,
  latin_char c ->
  (exists b, c = [b] /\ 33 <= b < 127) \/
  (exists p0 b1, c = [p0; b1] /\ 0xC2 <= p0 < 0xE0 /\ cont b1).
Proof.
  intros c (r & Hb & Hl & Hd).
  pose proof (not_breaker_not_error _ Hb) as Hr.
  unfold isLatin in Hl. apply Z.ltb_lt in Hl.
  unfold isBreakerRune in Hb. apply orb_false_iff in Hb. destruct Hb as [Hb _].
  apply orb_false_iff in Hb. destruct Hb as [Hb1 Hb2].
  apply Z.ltb_ge in Hb1. apply Z.eqb_neq in Hb2.
  destruct (DecodeRune_valid_inv _ _ _ Hd Hr)
    as [(p0 & tl & -> & Hs & -> & Hp)
       |[(p0 & b1 & tl & -> & Hs & Hp & Hc & ->)
        |[(p0 & b1 & b2 & tl & -> & Hs & Hp & Hlo & Hc1 & Hc2 & ->)
         |(p0 & b1 & b2 & b3 & tl & -> & Hs & Hp & Hlo & Hc1 & Hc2 & Hc3 & ->)]]].
  - left. rewrite len_cons in Hs.
    assert (tl = []) by (apply len_zero_nil; lia). subst tl.
    exists p0. split; [reflexivity|lia].
  - right. rewrite !len_cons in Hs.
    assert (tl = []) by (apply len_zero_nil; lia). subst tl.
    exists p0, b1. auto.
  - exfalso. rewrite rune3_val in Hl. unfold cont, locb, hicb in *.
    clear Hr Hd Hb2 Hb1.
    assert (p0 = 224 \/ 225 <= p0) as [E|E] by lia.
    + specialize (Hlo E). subst p0.
      change (224 mod 16) with 0 in Hl.
      Z.to_euclidean_division_equations; lia.
    + Z.to_euclidean_division_equations; lia.
  - exfalso. rewrite rune4_val in Hl. unfold cont, locb, hicb in *.
    clear Hr Hd Hb2 Hb1.
    assert (p0 = 240 \/ 241 <= p0) as [E|E] by lia.
    + specialize (Hlo E). subst p0.
      change (240 mod 8) with 0 in Hl.
      Z.to_euclidean_division_equations; lia.
    + Z.to_euclidean_division_equations; lia.
Qed.

Lemma latin_char_run : forall c, latin_char c -> run_char c.
Proof. intros c (r & Hb & _ & Hd). exists r. auto. Qed.

(** ** Lower-casing *)

Lemma lowerRanges_ok : forallb range_entry_ok lowerRanges = true.
Proof. vm_compute. reflexivity. Qed.

Lemma to_lower_in_bound : forall tbl r,
  forallb range_entry_ok tbl = true ->
  0 <= r < 0x800 ->
  0 <= to_lower_in tbl r < 0x800 \/
  to_lower_in tbl r = 0x2C65 \/ to_lower_in tbl r = 0x2C66.
Proof.
  induction tbl as [|[[[lo hi] stride] delta] tbl IH]; intros r Ht Hr.
  - simpl. left. exact Hr.
  - simpl in Ht. apply andb_true_iff in Ht. destruct Ht as [He Ht].
    simpl. destruct ((lo <=? r) && (r <=? hi) && _) eqn:M.
    + apply andb_true_iff in M. destruct M as [M _].
      apply andb_true_iff in M. destruct M as [M1 M2].
      apply Z.leb_le in M1, M2.
      apply andb_true_iff in He. destruct He as [He1 He2].
      apply andb_true_iff in He1. destruct He1 as [_ He1].
      apply Z.leb_le in He1.
      apply orb_true_iff in He2. destruct He2 as [He2|He2].
      * apply Z.ltb_lt in He2. left. lia.
      * apply andb_true_iff in He2. destruct He2 as [He2 He3].
        apply andb_true_iff in He2. destruct He2 as [He2 He4].
        apply Z.eqb_eq in He2. apply Z.leb_le in He3, He4. right. lia.
    + apply IH; assumption.
Qed.

Lemma unicode_ToLower_bound : forall r,
  0 <= r < 0x800 ->
  0 <= unicode_ToLower r < 0x800 \/
  unicode_ToLower r = 0x2C65 \/ unicode_ToLower r = 0x2C66.
Proof.
  intros r Hr. unfold unicode_ToLower.
  destruct (r <=? 127) eqn:E.
  - apply Z.leb_le in E. left. destruct (_ && _); lia.
  - apply to_lower_in_bound; [exact lowerRanges_ok|exact Hr].
Qed.

Lemma EncodeRune_no_ef : forall r,
  0 <= r < 0x800 \/ r = 0x2C65 \/ r = 0x2C66 ->
  Forall (fun b => b <> 0xEF) (EncodeRune r).
Proof.
  intros r [Hr|[->| ->]].
  - unfold EncodeRune.
    destruct ((0 <=? r) && (r <? 128)) eqn:E1.
    { apply andb_true_iff in E1. destruct E1 as [_ E1]. apply Z.ltb_lt in E1.
      constructor; [lia|constructor]. }
    destruct ((0 <=? r) && (r <? 2048)) eqn:E2.
    2:{ apply andb_false_iff in E2.
        destruct E2 as [E2|E2]; [apply Z.leb_gt in E2|apply Z.ltb_ge in E2]; lia. }
    rewrite land_maskx, Z.shiftr_div_pow2 by lia. change (2 ^ 6) with 64.
    rewrite (lor_disjoint_add 192 (r / 64) 6);
      [|lia|reflexivity|change (2 ^ 6) with 64; Z.to_euclidean_division_equations; lia].
    rewrite (lor_disjoint_add 128 (r mod 64) 6);
      [|lia|reflexivity|change (2 ^ 6) with 64; Z.to_euclidean_division_equations; lia].
    constructor; [Z.to_euclidean_division_equations; lia|].
    constructor; [Z.to_euclidean_division_equations; lia|constructor].
  - vm_compute. repeat constructor; discriminate.
  - vm_compute. repeat constructor; discriminate.
Qed.

(** The runes the [range] loop reads along a run of characters. *)
Lemma range_from_chars : forall cs fuel pos,
  Forall run_char cs -> (length cs <= fuel)%nat ->
  map snd (range_from fuel (concat cs) pos)
  = map (fun c => fst (DecodeRune c)) cs.
Proof.
  induction cs as [|c cs IH]; intros fuel pos Hcs Hf.
  - destruct fuel; reflexivity.
  - inversion Hcs as [|? ? Hc Hcs']; subst.
    destruct fuel as [|fuel]; [simpl in Hf; lia|].
    pose proof (run_char_nonempty _ Hc) as Hne.
    simpl concat. cbn [range_from].
    destruct (c ++ concat cs) as [|x l] eqn:E.
    { apply app_eq_nil in E. destruct E. congruence. }
    rewrite <- E. rewrite run_char_ext by assumption.
    destruct Hc as (r & Hb & Hd). rewrite Hd. cbn [map snd fst].
    rewrite Hd. cbn [fst].
    f_equal. unfold len. rewrite Nat2Z.id.
    rewrite skipn_app, skipn_all, Nat.sub_diag. simpl app.
    apply IH; [assumption|simpl in Hf; lia].
Qed.

Lemma flat_map_snd : forall (f : Z -> list Z) (l : list (Z * Z)),
  flat_map (fun pr => f (snd pr)) l = flat_map f (map snd l).
Proof.
  intros f l. induction l as [|x l IH]; simpl; [reflexivity|now rewrite IH].
Qed.

Lemma Forall_flat_map : forall (A B : Type) (P : B -> Prop) (f : A -> list B) l,
  (forall x, In x l -> Forall P (f x)) -> Forall P (flat_map f l).
Proof.
  intros A B P f l H. induction l as [|x l IH]; simpl; [constructor|].
  apply Forall_app. split; [apply H; left; reflexivity|].
  apply IH. intros y Hy. apply H. right. exact Hy.
Qed.

Lemma latin_rune_bound : forall c,
  latin_char c -> 0 <= fst (DecodeRune c) < 0x800.
Proof.
  intros c (r & Hb & Hl & Hd). rewrite Hd. simpl fst.
  unfold isLatin in Hl. apply Z.ltb_lt in Hl.
  unfold isBreakerRune in Hb. apply orb_false_iff in Hb. destruct Hb as [Hb _].
  apply orb_false_iff in Hb. destruct Hb as [Hb _]. apply Z.ltb_ge in Hb. lia.
Qed.

(** Lower-casing a run of Latin-class characters never produces the
    byte 0xEF. *)
Lemma ToLower_no_ef : forall cs,
  Forall latin_char cs ->
  Forall (fun b => b <> 0xEF) (strings_ToLower (concat cs)).
Proof.
  intros cs Hcs. unfold strings_ToLower.
  destruct (forallb _ (concat cs)) eqn:A.
  - rewrite forallb_forall in A. apply Forall_forall. intros b Hb.
    apply in_map_iff in Hb. destruct Hb as (c & <- & Hc).
    specialize (A c Hc). unfold RuneSelf in A. apply Z.ltb_lt in A.
    destruct (_ && _); lia.
  - unfold strings_Map, range_string.
    rewrite (flat_map_snd (fun r => if 0 <=? unicode_ToLower r
                                    then EncodeRune (unicode_ToLower r) else [])).
    assert (Hrun : Forall run_char cs).
    { eapply Forall_impl; [|exact Hcs]. apply latin_char_run. }
    rewrite range_from_chars; [|assumption|apply run_length_le; assumption].
    apply Forall_flat_map. intros r Hr. apply in_map_iff in Hr.
    destruct Hr as (c & <- & Hc).
    rewrite Forall_forall in Hcs. specialize (Hcs c Hc).
    destruct (0 <=? _); [|constructor].
    apply EncodeRune_no_ef, unicode_ToLower_bound, latin_rune_bound, Hcs.
Qed.

(** ** Latin runs *)

(** On a run of Latin-class characters the loop of [outputLatin] never
    indexes out of range, and what it appends to the buffer is again a
    sequence of whole Latin-class characters. *)
Lemma latin_loop_chars : forall cs buf,
  Forall latin_char cs ->
  exists kept,
    latin_loop (concat cs) buf = Ok (buf ++ concat kept) /\
    Forall latin_char kept.
Proof.
  induction cs as [|c cs IH]; intros buf Hcs.
  - exists []. simpl. rewrite app_nil_r. auto.
  - inversion Hcs as [|? ? Hc Hcs']; subst.
    destruct (latin_char_shape _ Hc) as [(b & -> & Hb)|(p0 & b1 & -> & Hp & Hc1)].
    + simpl concat. simpl app. cbn [latin_loop].
      replace (127 <? b) with false by (symmetry; apply Z.ltb_ge; lia).
      destruct (MAX_TOKEN_SIZE <=? len buf).
      { exists []. simpl. rewrite app_nil_r. auto. }
      destruct (isAlnum b).
      * destruct (IH (buf ++ [b]) Hcs') as (kept & Hk & Hkept).
        exists ([b] :: kept). rewrite Hk. simpl concat.
        rewrite <- app_assoc. auto.
      * destruct (IH buf Hcs') as (kept & Hk & Hkept).
        exists kept. auto.
    + simpl concat. simpl app. cbn [latin_loop].
      replace (127 <? p0) with true by (symmetry; apply Z.ltb_lt; lia).
      destruct (MAX_TOKEN_SIZE - 1 <=? len buf).
      { exists []. simpl. rewrite app_nil_r. auto. }
      destruct (IH (buf ++ [p0; b1]) Hcs') as (kept & Hk & Hkept).
      exists ([p0; b1] :: kept). rewrite Hk. simpl concat.
      rewrite <- app_assoc. auto.
Qed.

(** The buffer never outgrows [MAX_TOKEN_SIZE]. *)
Lemma latin_loop_len : forall n rest buf out,
  (length rest <= n)%nat ->
  latin_loop rest buf = Ok out ->
  len buf <= MAX_TOKEN_SIZE -> len out <= MAX_TOKEN_SIZE.
Proof.
  unfold MAX_TOKEN_SIZE.
  induction n as [|n IH]; intros rest buf out Hn H Hb.
  - destruct rest; [|simpl in Hn; lia]. simpl in H. inversion H; subst. exact Hb.
  - destruct rest as [|b rest]; [simpl in H; inversion H; subst; exact Hb|].
    cbn [latin_loop] in H. unfold MAX_TOKEN_SIZE in H.
    destruct (127 <? b).
    + destruct (23 - 1 <=? len buf) eqn:E; [inversion H; subst; exact Hb|].
      apply Z.leb_gt in E.
      destruct rest as [|b' rest]; [discriminate|].
      apply IH in H; [exact H|simpl in Hn |- *; lia|].
      rewrite len_app. change (len [b; b']) with 2. lia.
    + destruct (23 <=? len buf) eqn:E; [inversion H; subst; exact Hb|].
      apply Z.leb_gt in E.
      apply IH in H; [exact H|simpl in Hn; lia|].
      destruct (isAlnum b); [|lia].
      rewrite len_app. change (len [b]) with 1. lia.
Qed.

(** ** Payloads free of U+FFFD *)

Lemma starts_fffd_head : forall a l, a <> 0xEF -> starts_fffd (a :: l) = false.
Proof.
  intros a [|b [|c l]] H; simpl; try reflexivity.
  apply Z.eqb_neq in H. rewrite H. reflexivity.
Qed.

Lemma contains_fffd_head : forall a l,
  a <> 0xEF -> contains_fffd (a :: l) = contains_fffd l.
Proof.
  intros a l H. cbn [contains_fffd]. now rewrite starts_fffd_head.
Qed.

Lemma no_ef_free : forall l,
  Forall (fun b => b <> 0xEF) l -> contains_fffd l = false.
Proof.
  induction 1 as [|a l Ha Hl IH]; [reflexivity|].
  now rewrite contains_fffd_head.
Qed.

Lemma no_ef_app : forall l m,
  Forall (fun b => b <> 0xEF) l ->
  contains_fffd (l ++ m) = contains_fffd m.
Proof.
  induction 1 as [|a l Ha Hl IH]; [reflexivity|].
  simpl app. now rewrite contains_fffd_head.
Qed.

(** A character that is not a breaker contributes no U+FFFD, whatever
    follows it. *)
Lemma run_char_free : forall c m,
  run_char c -> contains_fffd (c ++ m) = contains_fffd m.
Proof.
  intros c m (r & Hb & Hd).
  pose proof (not_breaker_not_error _ Hb) as Hr.
  assert (Hlen : forall (tl : list Z) k, k + len tl = k -> tl = []).
  { intros tl k E. apply len_zero_nil. lia. }
  destruct (DecodeRune_valid_inv _ _ _ Hd Hr)
    as [(p0 & tl & -> & Hs & -> & Hp)
       |[(p0 & b1 & tl & -> & Hs & Hp & Hc & ->)
        |[(p0 & b1 & b2 & tl & -> & Hs & Hp & Hlo & Hc1 & Hc2 & ->)
         |(p0 & b1 & b2 & b3 & tl & -> & Hs & Hp & Hlo & Hc1 & Hc2 & Hc3 & ->)]]];
    rewrite !len_cons in Hs; unfold cont, locb, hicb in *.
  - assert (tl = []) by (apply (Hlen tl 1); lia). subst tl.
    simpl app. apply contains_fffd_head. lia.
  - assert (tl = []) by (apply (Hlen tl 2); lia). subst tl.
    simpl app. rewrite !contains_fffd_head by lia. reflexivity.
  - assert (tl = []) by (apply (Hlen tl 3); lia). subst tl.
    simpl app. cbn [contains_fffd].
    replace (starts_fffd (p0 :: b1 :: b2 :: m)) with false.
    + rewrite !starts_fffd_head by lia. reflexivity.
    + symmetry. cbn [starts_fffd].
      destruct (p0 =? 239) eqn:E0; [|reflexivity].
      destruct (b1 =? 191) eqn:E1; [|reflexivity].
      destruct (b2 =? 189) eqn:E2; [|reflexivity].
      apply Z.eqb_eq in E0, E1, E2. subst. exfalso. apply Hr. reflexivity.
  - assert (tl = []) by (apply (Hlen tl 4); lia). subst tl.
    simpl app. rewrite !contains_fffd_head by lia. reflexivity.
Qed.

Lemma run_chars_free : forall cs m,
  Forall run_char cs -> contains_fffd (concat cs ++ m) = contains_fffd m.
Proof.
  induction 1 as [|c cs Hc Hcs IH]; [reflexivity|].
  simpl concat. rewrite <- app_assoc, run_char_free by assumption. exact IH.
Qed.

Lemma zeros_no_ef : forall n, Forall (fun b => b <> 0xEF) (repeat 0 n).
Proof. induction n; simpl; constructor; [lia|assumption]. Qed.

(** A token whose payload has no byte 0xEF. *)
Lemma fffd_free_no_ef : forall s p,
  Forall (fun b => b <> 0xEF) s -> fffd_free (makeToken s p).
Proof.
  intros s p H. unfold fffd_free, makeToken. simpl tl. unfold copy_payload.
  apply no_ef_free, Forall_app. split; [apply Forall_firstn, H|apply zeros_no_ef].
Qed.

(** A token holding up to three characters of a run. *)
Lemma fffd_free_window : forall ws p,
  Forall run_char ws -> (length ws <= 3)%nat ->
  fffd_free (makeToken (concat ws) p).
Proof.
  intros ws p H Hl. unfold fffd_free, makeToken. simpl tl.
  pose proof (run_bytes_le ws H) as Hb. unfold len in Hb.
  rewrite copy_payload_short by lia.
  rewrite run_chars_free by assumption.
  apply no_ef_free, zeros_no_ef.
Qed.

Lemma digits_ascii : forall fuel n acc,
  0 <= n -> Forall (fun b => b <> 0xEF) acc ->
  Forall (fun b => b <> 0xEF) (digits fuel n acc).
Proof.
  induction fuel as [|fuel IH]; intros n acc Hn Hacc; cbn [digits]; [exact Hacc|].
  destruct (n <? 10) eqn:E.
  - apply Z.ltb_lt in E. constructor; [lia|exact Hacc].
  - apply IH; [apply Z.div_pos; lia|].
    constructor; [|exact Hacc].
    pose proof (Z.mod_pos_bound n 10 ltac:(lia)). lia.
Qed.

Lemma fffd_free_marker : forall m off, fffd_free (marker_token m off).
Proof.
  intros m off. unfold marker_token. apply fffd_free_no_ef.
  apply Forall_app. split.
  - vm_compute. repeat constructor; discriminate.
  - unfold Itoa. destruct (m <? 0) eqn:E.
    + apply Z.ltb_lt in E. constructor; [lia|].
      apply digits_ascii; [lia|constructor].
    + apply Z.ltb_ge in E. apply digits_ascii; [lia|constructor].
Qed.

(** ** Invariants of the scan *)

Lemma incr_inv : forall yield pos t,
  out_inv t ->
  out_inv (incrTokenCount yield 1 pos t) /\
  input (incrTokenCount yield 1 pos t) = input t /\
  begin (incrTokenCount yield 1 pos t) = begin t.
Proof.
  intros yield pos t [[Hc Hm] Hy].
  split; [|split; [apply incr_input|apply incr_begin]].
  unfold out_inv, marker_inv, incrTokenCount, MARKER_PER_TOKENS in *. st_simpl.
  destruct (nextMarker t <=? currTokenPos t + 1) eqn:E.
  - apply Z.leb_le in E.
    assert (Hy' : Forall fffd_free
              (yielded t ++ [makeToken (bytes_of "_MARKER_" ++ Itoa (nextMarker t)) pos])).
    { apply Forall_app. split; [exact Hy|].
      constructor; [apply fffd_free_marker|constructor]. }
    destruct (yield _ _); st_simpl;
      (split; [split; [lia|Z.to_euclidean_division_equations; lia]|exact Hy']).
  - apply Z.leb_gt in E. st_simpl.
    split; [split; [lia|Z.to_euclidean_division_equations; lia]|exact Hy].
Qed.

Lemma outputLatin_inv : forall yield pos t cs,
  out_inv t ->
  Forall latin_char cs ->
  slice (input t) (begin t) pos = Ok (concat cs) ->
  exists t',
    outputLatin yield pos t = Ok t' /\ out_inv t' /\ input t' = input t /\
    currTokenPos t' <= currTokenPos t + 1.
Proof.
  intros yield pos t cs Hinv Hcs Hs. unfold outputLatin. rewrite Hs. cbn [bind].
  destruct (latin_loop_chars cs [] Hcs) as (kept & Hk & Hkept).
  rewrite Hk. cbn [bind]. simpl app.
  destruct (1 <? len (concat kept)).
  - unfold call_yield. st_simpl.
    set (tk := makeToken (strings_ToLower (concat kept)) (currTokenPos t)).
    set (t1 := {| input := input t; begin := begin t;
                  currTokenPos := currTokenPos t; nextMarker := nextMarker t;
                  latinBuf := concat kept; Done := Done t;
                  yielded := yielded t ++ [tk] |}).
    assert (H1 : out_inv t1).
    { destruct Hinv as [Hm Hy]. split; [exact Hm|].
      subst t1. st_simpl. apply Forall_app. split; [exact Hy|].
      constructor; [|constructor].
      apply fffd_free_no_ef, ToLower_no_ef, Hkept. }
    destruct (yield (yielded t) tk).
    + destruct (incr_inv yield pos t1 H1) as (A & B & _).
      eexists. split; [reflexivity|]. split; [exact A|]. split; [exact B|].
      rewrite incr_currTokenPos. subst t1. st_simpl. lia.
    + eexists. split; [reflexivity|]. split; [exact H1|]. split; [reflexivity|].
      subst t1. st_simpl. lia.
  - set (t1 := set_latinBuf (concat kept) t).
    assert (H1 : out_inv t1) by exact Hinv.
    destruct (incr_inv yield pos t1 H1) as (A & B & _).
    eexists. split; [reflexivity|]. split; [exact A|]. split; [exact B|].
    rewrite incr_currTokenPos. subst t1. st_simpl. lia.
Qed.

Lemma cjk_chars_inv : forall yield cs off t,
  out_inv t ->
  Forall run_char cs ->
  out_inv (cjk_chars yield cs off t) /\
  input (cjk_chars yield cs off t) = input t /\
  currTokenPos (cjk_chars yield cs off t)
    <= currTokenPos t + Z.of_nat (length cs).
Proof.
  intros yield cs. induction cs as [|c cs IH]; intros off t Hinv Hcs.
  - simpl. repeat split; auto; try apply Hinv; lia.
  - inversion Hcs as [|? ? Hc Hcs']; subst.
    cbn [cjk_chars]. unfold call_yield.
    set (tk := makeToken (concat (firstn 3 (c :: cs))) (currTokenPos t)).
    set (t1 := {| input := input t; begin := begin t;
                  currTokenPos := currTokenPos t; nextMarker := nextMarker t;
                  latinBuf := latinBuf t; Done := Done t;
                  yielded := yielded t ++ [tk] |}).
    assert (H1 : out_inv t1).
    { destruct Hinv as [Hm Hy]. split; [exact Hm|].
      subst t1. st_simpl. apply Forall_app. split; [exact Hy|].
      constructor; [|constructor].
      apply fffd_free_window; [apply Forall_firstn, Hcs|].
      rewrite length_firstn. lia. }
    assert (Hlen : Z.of_nat (length (c :: cs)) = 1 + Z.of_nat (length cs))
      by (simpl length; lia).
    rewrite Hlen.
    destruct (yield (yielded t) tk).
    + destruct (incr_inv yield (begin t1 + off) t1 H1) as (A & B & _).
      pose proof (incr_currTokenPos yield 1 (begin t1 + off) t1) as C.
      change (currTokenPos t1) with (currTokenPos t) in C.
      destruct (Done (incrTokenCount yield 1 (begin t1 + off) t1)).
      { split; [exact A|]. split; [exact B|]. lia. }
      destruct (IH (off + len c) _ A Hcs') as (A' & B' & C').
      split; [exact A'|]. split; [rewrite B'; exact B|]. lia.
    + split; [exact H1|]. split; [reflexivity|]. subst t1. st_simpl. lia.
Qed.

Lemma outputCJK_inv : forall yield pos t cs,
  out_inv t ->
  Forall run_char cs ->
  slice (input t) (begin t) pos = Ok (concat cs) ->
  exists t',
    outputCJK yield pos t = Ok t' /\ out_inv t' /\ input t' = input t /\
    currTokenPos t' <= currTokenPos t + (pos - begin t).
Proof.
  intros yield pos t cs Hinv Hcs Hs.
  exists (cjk_chars yield cs 0 t).
  split; [apply outputCJK_chars; assumption|].
  destruct (cjk_chars_inv yield cs 0 t Hinv Hcs) as (A & B & C).
  split; [exact A|]. split; [exact B|].
  pose proof (run_length_le cs Hcs) as Hl.
  pose proof (slice_len _ _ _ _ Hs) as Hb. unfold len in Hb. lia.
Qed.

Lemma app_inj_len : forall (a a' x y : list Z),
  a ++ x = a' ++ y -> length a = length a' -> a = a' /\ x = y.
Proof.
  induction a as [|u a IH]; intros [|u' a'] x y H Hl; simpl in *;
    try discriminate; auto.
  inversion H; subst. destruct (IH a' x y H2 ltac:(lia)) as [-> ->]. auto.
Qed.

Lemma slice_extend : forall s b p q w c,
  slice s b p = Ok w -> slice s p q = Ok c -> slice s b q = Ok (w ++ c).
Proof.
  intros s b p q w c Hw Hc.
  destruct (slice_split _ _ _ _ Hw) as (a & x & E & La & Lw).
  destruct (slice_split _ _ _ _ Hc) as (a' & y & E' & La' & Lc).
  assert (Ha : a' = a ++ w /\ c ++ y = x).
  { rewrite E in E'. rewrite app_assoc in E'.
    symmetry in E'. apply app_inj_len in E'; [tauto|].
    rewrite length_app. unfold len in *. lia. }
  destruct Ha as [-> <-]. subst s.
  replace b with (len a) by lia.
  replace q with (len a + len (w ++ c)) by (rewrite !len_app in *; lia).
  rewrite (app_assoc w c y). apply slice_app3.
Qed.

(** The bytes of a rune that is not a breaker, as a slice of the input. *)
Lemma decode_slice : forall s pos r sz,
  0 <= pos <= len s ->
  DecodeRune (skipn (Z.to_nat pos) s) = (r, sz) ->
  isBreakerRune r = false ->
  exists c, slice s pos (pos + sz) = Ok c /\
            DecodeRune c = (r, len c) /\ len c = sz.
Proof.
  intros s pos r sz Hp Hd Hb.
  destruct (DecodeRune_prefix _ _ _ Hd (not_breaker_not_error _ Hb))
    as (c & tl & E & Lc & Hext).
  exists c. split; [|split; [|exact Lc]].
  - assert (Es : s = firstn (Z.to_nat pos) s ++ c ++ tl)
      by (rewrite <- E; symmetry; apply firstn_skipn).
    assert (La : len (firstn (Z.to_nat pos) s) = pos).
    { unfold len in *. rewrite length_firstn. lia. }
    remember (firstn (Z.to_nat pos) s) as a eqn:Ea. clear Ea.
    rewrite Es, <- La, <- Lc. apply slice_app3.
  - specialize (Hext []). rewrite app_nil_r in Hext. rewrite Lc. exact Hext.
Qed.

Lemma slice_empty : forall s p, 0 <= p <= len s -> slice s p p = Ok [].
Proof.
  intros s p Hp. rewrite slice_ok by lia. rewrite Z.sub_diag. reflexivity.
Qed.

(** One iteration of the loop of [Tokenize] keeps the invariant and
    never panics. *)
Lemma call_inv : forall yield h t pos r sz,
  scan_inv h t pos ->
  pos < len (input t) ->
  DecodeRune (skipn (Z.to_nat pos) (input t)) = (r, sz) ->
  exists h' t',
    call yield h t pos r = Ok (h', t') /\
    scan_inv h' t' (pos + sz) /\ input t' = input t.
Proof.
  intros yield h t pos r sz (Hout & Hb & Hp & Hcur & Hrun) Hlt Hd.
  assert (Hsz : 1 <= sz /\ pos + sz <= len (input t)).
  { assert (Hne : skipn (Z.to_nat pos) (input t) <> []).
    { intros E. apply (f_equal (@length Z)) in E. rewrite length_skipn in E.
      unfold len in *. simpl in E. lia. }
    pose proof (DecodeRune_size _ Hne) as Hs. rewrite Hd in Hs. simpl snd in Hs.
    unfold len in *. rewrite length_skipn in Hs. lia. }
  assert (Hnew : forall t0, out_inv t0 -> input t0 = input t ->
            currTokenPos t0 <= pos ->
            isBreakerRune r = false ->
            scan_inv (if isLatin r then latinToken else cjkToken)
                     (set_begin pos t0) (pos + sz)).
  { intros t0 H0 I0 C0 Hbr.
    destruct (decode_slice (input t) pos r sz ltac:(lia) Hd Hbr)
      as (c & Hc & Hdc & Lc).
    split; [exact H0|]. st_simpl. rewrite I0.
    split; [lia|]. split; [lia|]. split; [exact C0|].
    destruct (isLatin r) eqn:L.
    - split; [lia|]. exists [c]. split; [repeat constructor; exists r; auto|].
      simpl. rewrite app_nil_r. exact Hc.
    - split; [lia|]. exists [c]. split; [repeat constructor; exists r; auto|].
      simpl. rewrite app_nil_r. exact Hc. }
  assert (Hext : forall (P : list Z -> Prop) cs,
            (forall c, DecodeRune c = (r, len c) -> P c) ->
            isBreakerRune r = false ->
            Forall P cs ->
            slice (input t) (begin t) pos = Ok (concat cs) ->
            exists cs', Forall P cs' /\
              slice (input t) (begin t) (pos + sz) = Ok (concat cs')).
  { intros P cs HP Hbr Hcs Hs.
    destruct (decode_slice (input t) pos r sz ltac:(lia) Hd Hbr)
      as (c & Hc & Hdc & Lc).
    exists (cs ++ [c]). split.
    - apply Forall_app. split; [exact Hcs|]. constructor; [auto|constructor].
    - rewrite concat_app. simpl. rewrite app_nil_r.
      eapply slice_extend; eassumption. }
  assert (Hclose : forall t0, out_inv t0 -> input t0 = input t ->
            currTokenPos t0 <= pos ->
            scan_inv breakerToken (set_begin pos t0) (pos + sz)).
  { intros t0 H0 I0 C0. split; [exact H0|]. st_simpl. rewrite I0.
    repeat split; lia. }
  destruct (isBreakerRune r) eqn:Hbr.
  - (* a breaker closes whatever run is open *)
    destruct h; simpl; rewrite Hbr.
    + do 2 eexists. split; [reflexivity|]. split; [|reflexivity].
      apply Hclose; auto; lia.
    + do 2 eexists. split; [reflexivity|]. split; [|reflexivity].
      split; [exact Hout|]. repeat split; auto; lia.
    + destruct Hrun as (Hne & cs & Hcs & Hs).
      destruct (outputLatin_inv yield pos t cs Hout Hcs Hs)
        as (t' & E & O & I & C).
      rewrite E. cbn [bind]. do 2 eexists. split; [reflexivity|].
      split; [|exact I]. apply Hclose; auto; lia.
    + destruct Hrun as (Hne & cs & Hcs & Hs).
      destruct (outputCJK_inv yield pos t cs Hout Hcs Hs)
        as (t' & E & O & I & C).
      rewrite E. cbn [bind]. do 2 eexists. split; [reflexivity|].
      split; [|exact I]. apply Hclose; auto; lia.
  - destruct h; simpl; rewrite Hbr.
    + specialize (Hnew t Hout eq_refl ltac:(lia) eq_refl).
      destruct (isLatin r); do 2 eexists;
        (split; [reflexivity|]); (split; [exact Hnew|reflexivity]).
    + assert (Hidx : exists b, index (input t) (begin t) = Ok b).
      { unfold index.
        replace ((0 <=? begin t) && (begin t <? len (input t))) with true.
        - eauto.
        - symmetry. apply andb_true_iff. split; [apply Z.leb_le|apply Z.ltb_lt]; lia. }
      destruct Hidx as (b & Hidx). rewrite Hidx.
      pose proof (incr_currTokenPos yield 1 pos t) as Ci.
      destruct (begin t + 1 <? pos); cbn [bind].
      * destruct (incr_inv yield pos t Hout) as (A & B & _).
        specialize (Hnew _ A B ltac:(lia) eq_refl).
        destruct (isLatin r); do 2 eexists;
          (split; [reflexivity|]); (split; [exact Hnew|]); st_simpl; exact B.
      * destruct (negb (b =? 32)).
        -- destruct (incr_inv yield pos t Hout) as (A & B & _).
           specialize (Hnew _ A B ltac:(lia) eq_refl).
           destruct (isLatin r); do 2 eexists;
             (split; [reflexivity|]); (split; [exact Hnew|]); st_simpl; exact B.
        -- specialize (Hnew t Hout eq_refl ltac:(lia) eq_refl).
           destruct (isLatin r); do 2 eexists;
             (split; [reflexivity|]); (split; [exact Hnew|reflexivity]).
    + destruct Hrun as (Hne & cs & Hcs & Hs).
      destruct (isLatin r) eqn:L.
      * destruct (Hext latin_char cs) as (cs' & Hcs' & Hs'); auto.
        { intros c Hc. exists r. auto. }
        do 2 eexists. split; [reflexivity|]. split; [|reflexivity].
        split; [exact Hout|]. split; [lia|]. split; [lia|].
        split; [exact Hcur|]. split; [lia|]. eauto.
      * destruct (outputLatin_inv yield pos t cs Hout Hcs Hs)
          as (t' & E & O & I & C).
        rewrite E. cbn [bind].
        specialize (Hnew _ O I ltac:(lia) eq_refl).
        do 2 eexists. split; [reflexivity|]. split; [exact Hnew|exact I].
    + destruct Hrun as (Hne & cs & Hcs & Hs).
      destruct (Hext run_char cs) as (cs' & Hcs' & Hs'); auto.
      { intros c Hc. exists r. auto. }
      do 2 eexists. split; [reflexivity|]. split; [|reflexivity].
      split; [exact Hout|]. split; [lia|]. split; [lia|].
      split; [exact Hcur|]. split; [lia|]. eauto.
Qed.

Lemma flush_inv : forall yield h t,
  scan_inv h t (len (input t)) ->
  exists h' t',
    call yield h t (len (input t)) 32 = Ok (h', t') /\ out_inv t' /\
    input t' = input t /\ currTokenPos t' <= len (input t).
Proof.
  intros yield h t (Hout & Hb & Hp & Hcur & Hrun).
  destruct h; simpl.
  - do 2 eexists. split; [reflexivity|]. split; [exact Hout|].
    split; [reflexivity|]. st_simpl. lia.
  - do 2 eexists. split; [reflexivity|]. split; [exact Hout|].
    split; [reflexivity|]. lia.
  - destruct Hrun as (Hne & cs & Hcs & Hs).
    destruct (outputLatin_inv yield _ t cs Hout Hcs Hs) as (t' & E & O & I & C).
    rewrite E. cbn [bind]. do 2 eexists. split; [reflexivity|].
    split; [exact O|]. split; [exact I|]. st_simpl. lia.
  - destruct Hrun as (Hne & cs & Hcs & Hs).
    destruct (outputCJK_inv yield _ t cs Hout Hcs Hs) as (t' & E & O & I & C).
    rewrite E. cbn [bind]. do 2 eexists. split; [reflexivity|].
    split; [exact O|]. split; [exact I|]. st_simpl. lia.
Qed.

(** The loop of [Tokenize] from byte offset [pos] on: it ends, by its
    [return] or at the end of the input, without a panic. *)
Lemma scan_inv_run : forall yield fuel pos h t,
  scan_inv h t pos ->
  (length (skipn (Z.to_nat pos) (input t)) <= fuel)%nat ->
  exists e,
    scan yield (range_from fuel (skipn (Z.to_nat pos) (input t)) pos) h t
      = Ok e /\
    match e with
    | Returned t' =>
      out_inv t' /\ input t' = input t /\ currTokenPos t' <= len (input t)
    | Finished h' t' =>
      scan_inv h' t' (len (input t')) /\ input t' = input t
    end.
Proof.
  intros yield. induction fuel as [|fuel IH]; intros pos h t Hinv Hf.
  - assert (Hpos : pos = len (input t)).
    { destruct Hinv as (_ & Hb & Hp & _). rewrite length_skipn in Hf.
      unfold len in *. lia. }
    exists (Finished h t). split; [reflexivity|]. rewrite <- Hpos. auto.
  - destruct (skipn (Z.to_nat pos) (input t)) as [|x l] eqn:E.
    + assert (Hpos : pos = len (input t)).
      { destruct Hinv as (_ & Hb & Hp & _).
        apply (f_equal (@length Z)) in E. rewrite length_skipn in E.
        unfold len in *. simpl in E. lia. }
      exists (Finished h t). split; [reflexivity|]. rewrite <- Hpos. auto.
    + cbn [range_from]. destruct (DecodeRune (x :: l)) as [r sz] eqn:D.
      cbn [scan]. destruct (Done t) eqn:Dn.
      { exists (Returned t). split; [reflexivity|].
        destruct Hinv as (Hout & Hb & Hp & Hcur & _).
        split; [exact Hout|]. split; [reflexivity|]. lia. }
      assert (Hlt : pos < len (input t)).
      { destruct Hinv as (_ & Hb & Hp & _).
        apply (f_equal (@length Z)) in E. rewrite length_skipn in E.
        unfold len in *. simpl in E. lia. }
      rewrite <- E in D.
      destruct (call_inv yield h t pos r sz Hinv Hlt D) as (h' & t' & C & I & In).
      rewrite C. cbn [bind fst snd].
      assert (Hsz : 1 <= sz).
      { assert (Hne : skipn (Z.to_nat pos) (input t) <> [])
          by (rewrite E; discriminate).
        pose proof (DecodeRune_size _ Hne) as Hs. rewrite D in Hs. simpl in Hs. lia. }
      assert (Hpos : 0 <= pos) by (destruct Hinv as (_ & Hb & _); lia).
      rewrite <- E, skipn_skipn.
      replace (Z.to_nat sz + Z.to_nat pos)%nat with (Z.to_nat (pos + sz)) by lia.
      rewrite <- In.
      destruct (IH (pos + sz) h' t' I) as (e & He & Hm).
      { rewrite In, length_skipn.
        apply (f_equal (@length Z)) in E. rewrite length_skipn in E.
        simpl in Hf, E. lia. }
      exists e. split; [exact He|].
      exact Hm.
Qed.

(** [Tokenize] returns on every input, whatever the consumer does, and
    leaves the counters and the output in order; the logical position
    never exceeds the length of the input. *)
Lemma Tokenize_ok : forall yield inp,
  exists t',
    Tokenize yield (NewSimpleTokenizer inp) = Ok t' /\ out_inv t' /\
    currTokenPos t' <= len inp.
Proof.
  intros yield inp. unfold Tokenize.
  assert (H0 : out_inv (NewSimpleTokenizer inp)).
  { split; [apply marker_inv_init|constructor]. }
  destruct (len (input (NewSimpleTokenizer inp)) =? 0).
  { eexists. split; [reflexivity|]. split; [exact H0|].
    simpl. apply len_nonneg. }
  assert (Hinv : scan_inv beginToken (NewSimpleTokenizer inp) 0).
  { split; [exact H0|]. simpl. pose proof (len_nonneg inp). repeat split; lia. }
  destruct (scan_inv_run yield (length inp) 0 beginToken _ Hinv)
    as (e & E & He).
  { simpl. lia. }
  simpl in E. unfold range_string. simpl input. rewrite E. cbn [bind].
  destruct e as [t'|h' t'].
  - exists t'. destruct He as (A & B & C). auto.
  - destruct He as (He & Hi).
    destruct (flush_inv yield h' t' He) as (h'' & t'' & F & O & I & C).
    rewrite F. cbn [bind snd]. exists t''. rewrite Hi in C. auto.
Qed.

(** X7. For every input and every consumer [Tokenize] returns with the
    logical position between 0 and the length of the input and the next
    marker threshold at most 100 above that length: the counters stay
    far below the range of a 64-bit [int]. *)
Lemma Tokenize_counters : forall yield inp,
  exists t',
    Tokenize yield (NewSimpleTokenizer inp) = Ok t' /\
    0 <= currTokenPos t' <= len inp /\
    nextMarker t' <= len inp + MARKER_PER_TOKENS.
Proof.
  intros yield inp.
  destruct (Tokenize_ok yield inp) as (t' & E & ((Hc & Hm) & _) & Hb).
  exists t'. split; [exact E|]. split; [lia|].
  rewrite Hm. unfold MARKER_PER_TOKENS.
  Z.to_euclidean_division_equations; lia.
Qed.

(** ** The cursor of the scan *)

Lemma range_from_stable : forall fuel fuel' s pos,
  (length s <= fuel)%nat -> (length s <= fuel')%nat ->
  range_from fuel s pos = range_from fuel' s pos.
Proof.
  induction fuel as [|fuel IH]; intros fuel' s pos H H'.
  - destruct s; [|simpl in H; lia]. destruct fuel'; reflexivity.
  - destruct s as [|x l]; [destruct fuel'; reflexivity|].
    destruct fuel' as [|fuel']; [simpl in H'; lia|].
    cbn [range_from]. destruct (DecodeRune (x :: l)) as [r sz] eqn:D.
    f_equal.
    pose proof (DecodeRune_size (x :: l) ltac:(discriminate)) as Hs.
    rewrite D in Hs. simpl snd in Hs.
    apply IH; rewrite length_skipn; unfold len in Hs; simpl length in *; lia.
Qed.

Lemma range_from_cursor : forall fuel s pos,
  Forall (fun p => pos <= p < pos + len s) (map fst (range_from fuel s pos)) /\
  StronglySorted Z.lt (map fst (range_from fuel s pos)).
Proof.
  induction fuel as [|fuel IH]; intros s pos.
  - simpl. split; constructor.
  - destruct s as [|x l]; [simpl; split; constructor|].
    cbn [range_from]. destruct (DecodeRune (x :: l)) as [r sz] eqn:D.
    pose proof (DecodeRune_size (x :: l) ltac:(discriminate)) as Hs.
    rewrite D in Hs. simpl snd in Hs.
    destruct (IH (skipn (Z.to_nat sz) (x :: l)) (pos + sz)) as [Hb Hsorted].
    assert (Hl : len (skipn (Z.to_nat sz) (x :: l)) = len (x :: l) - sz).
    { unfold len in *. rewrite length_skipn. lia. }
    rewrite Hl in Hb. cbn [map fst]. split.
    + constructor; [pose proof (len_nonneg l); rewrite len_cons; lia|].
      eapply Forall_impl; [|exact Hb]. intros p Hp. cbv beta in Hp |- *. lia.
    + constructor; [exact Hsorted|].
      eapply Forall_impl; [|exact Hb]. intros p Hp. cbv beta in Hp. lia.
Qed.

(** C9. The byte offsets the [range] loop of [Tokenize] visits are
    strictly increasing (so every iteration advances by at least one
    byte) and stay inside the input; the loop needs no more iterations
    than the input has bytes; and [Tokenize] returns, for every input and
    every consumer, which covers the window loop of [outputCJK] at every
    CJK run it closes. *)
Theorem scan_terminates :
  forall (yield : list Token -> Token -> bool) (inp : list Z),
  StronglySorted Z.lt (map fst (range_string inp)) /\
  Forall (fun p => 0 <= p < len inp) (map fst (range_string inp)) /\
  (forall fuel, (length inp <= fuel)%nat ->
                range_from fuel inp 0 = range_string inp) /\
  exists t', Tokenize yield (NewSimpleTokenizer inp) = Ok t'.
Proof.
  intros yield inp. unfold range_string.
  destruct (range_from_cursor (length inp) inp 0) as [Hb Hs].
  split; [exact Hs|]. split; [exact Hb|]. split.
  - intros fuel Hf. apply range_from_stable; lia.
  - destruct (Tokenize_ok yield inp) as (t' & E & _). exists t'. exact E.
Qed.

(** ** The replacement character *)

Lemma starts_fffd_firstn : forall n l,
  starts_fffd (firstn n l) = true -> starts_fffd l = true.
Proof.
  intros n l. destruct l as [|a [|b [|c l]]]; destruct n as [|[|[|n]]];
    simpl; auto; discriminate.
Qed.

Lemma contains_fffd_firstn : forall l n,
  contains_fffd l = false -> contains_fffd (firstn n l) = false.
Proof.
  induction l as [|a l IH]; intros n H; destruct n; try reflexivity.
  cbn [contains_fffd] in H. apply orb_false_iff in H. destruct H as [H1 H2].
  change (firstn (S n) (a :: l)) with (a :: firstn n l).
  cbn [contains_fffd]. apply orb_false_iff. split; [|apply IH, H2].
  destruct (starts_fffd (a :: firstn n l)) eqn:E; [|reflexivity].
  change (a :: firstn n l) with (firstn (S n) (a :: l)) in E.
  apply starts_fffd_firstn in E. congruence.
Qed.

Lemma fffd_free_payload : forall tk,
  fffd_free tk -> contains_fffd (payload tk) = false.
Proof. intros tk H. unfold payload. apply contains_fffd_firstn, H. Qed.

(** C10. The well-formed three bytes of U+FFFD decode to the value of
    the decode-error sentinel, which is classified as a breaker: in the
    Latin and in the CJK state it closes the open run and the machine
    enters the breaker state; and for every input and every consumer, no
    token handed over holds U+FFFD in its payload. *)
Theorem replacement_char_is_breaker :
  forall (yield : list Token -> Token -> bool),
  EncodeRune 0xFFFD = [0xEF; 0xBF; 0xBD] /\
  (forall rest, DecodeRune (0xEF :: 0xBF :: 0xBD :: rest) = (RuneError, 3)) /\
  classify RuneError = Breaker /\
  (forall t pos,
     call yield latinToken t pos RuneError
     = (t' <- outputLatin yield pos t ;; Ok (breakerToken, set_begin pos t'))) /\
  (forall t pos,
     call yield cjkToken t pos RuneError
     = (t' <- outputCJK yield pos t ;; Ok (breakerToken, set_begin pos t'))) /\
  (forall inp, exists t',
     Tokenize yield (NewSimpleTokenizer inp) = Ok t' /\
     Forall (fun tk => contains_fffd (payload tk) = false) (yielded t')).
Proof.
  intros yield. split; [reflexivity|]. split.
  { intros rest. unfold DecodeRune.
    change (first 239) with (FirstLead 3 locb hicb). cbv beta iota.
    replace (len (239 :: 191 :: 189 :: rest) <? 3) with false.
    - reflexivity.
    - symmetry. apply Z.ltb_ge. rewrite !len_cons.
      pose proof (len_nonneg rest). lia. }
  split; [reflexivity|]. split; [reflexivity|]. split; [reflexivity|].
  intros inp. destruct (Tokenize_ok yield inp) as (t' & E & (_ & Hy) & _).
  exists t'. split; [exact E|].
  eapply Forall_impl; [|exact Hy]. apply fffd_free_payload.
Qed.

(** ** Where the code departs from the specification *)

(** C1. The bound on the recorded payload length fails on the code:
    [outputLatin] caps the buffer at 23 bytes and lower-cases it
    afterwards, and the lower case of U+023A is the three-byte U+2C65.
    On a run of eight U+023A (16 bytes) the lower-cased string has 24
    bytes: the token records length 24, above [MAX_TOKEN_SIZE], while its
    array holds the first 23 bytes, the last character cut after two of
    its three bytes. *)
Theorem lowercase_outgrows_token :
  let inp := bytes_of "ȺȺȺȺȺȺȺȺ" in
  len inp = 16 /\
  exists t' tk,
    Tokenize take_all (NewSimpleTokenizer inp) = Ok t' /\
    yielded t' = [tk] /\
    latinBuf t' = inp /\
    payload_len tk = 24 /\
    MAX_TOKEN_SIZE < payload_len tk /\
    tl (TokenBytes tk)
    = [226; 177; 165; 226; 177; 165; 226; 177; 165; 226; 177; 165;
       226; 177; 165; 226; 177; 165; 226; 177; 165; 226; 177].
Proof.
  cbv zeta. split; [reflexivity|].
  eexists. eexists. split; [vm_compute; reflexivity|].
  cbn [yielded latinBuf]. repeat split; reflexivity.
Qed.

(** C5. The emission test fails on the code in one direction:
    [outputLatin] tests the length of the buffer before lower-casing it,
    and the lower case of the two-byte U+0130 is the one-byte "i".  The run
    made of U+0130 alone is emitted as a token whose payload is the single
    byte "i", although the normalized result has byte length 1. *)
Theorem single_byte_token_emitted :
  let inp := bytes_of "İ" in
  inp = [196; 176] /\
  strings_ToLower inp = [105] /\
  exists t' tk,
    Tokenize take_all (NewSimpleTokenizer inp) = Ok t' /\
    yielded t' = [tk] /\
    payload tk = [105] /\ payload_len tk = 1 /\ TokenPos tk = 0 /\
    currTokenPos t' = 1.
Proof.
  cbv zeta. split; [reflexivity|]. split; [vm_compute; reflexivity|].
  eexists. eexists. split; [vm_compute; reflexivity|].
  cbn [yielded currTokenPos]. repeat split; reflexivity.
Qed.

(** C8. Cancellation does not stop the flush: the loop of [Tokenize]
    tests [t.Done] at the top of each iteration only, and the call that
    flushes the last run comes after the loop without a test.  On "ab"
    followed by one CJK character, with a consumer that breaks on its
    first token, the Latin token is declined while the last rune is
    handled, and the flush still builds the CJK token and calls [yield]
    with it. *)
Theorem flush_runs_after_cancel :
  let inp := bytes_of "ab中" in
  let tk1 := makeToken (bytes_of "ab") 0 in
  let tk2 := makeToken (bytes_of "中") 0 in
  take_n 1 [] tk1 = false /\
  exists t',
    Tokenize (take_n 1) (NewSimpleTokenizer inp) = Ok t' /\
    yielded t' = [tk1; tk2] /\
    Done t' = true.
Proof.
  cbv zeta. split; [reflexivity|].
  eexists. split; [vm_compute; reflexivity|].
  split; reflexivity.
Qed.

Lemma incr_yielded : forall yield n pos t,
  yielded (incrTokenCount yield n pos t) = yielded t \/
  yielded (incrTokenCount yield n pos t)
  = yielded t ++ [marker_token (nextMarker t) pos].
Proof.
  intros. unfold incrTokenCount. st_simpl.
  destruct (nextMarker t <=? currTokenPos t + n); [|left; reflexivity].
  right. destruct (yield _ _); reflexivity.
Qed.

(** X8. What [outputLatin] does on a closed Latin run: a token is handed
    over exactly when the buffer (filtered, capped, not yet lower-cased)
    is longer than one byte; it carries the lower-cased buffer and the
    logical position before the advance; and unless the consumer
    declines that token the position advances by one (a marker may
    follow). *)
Lemma outputLatin_run : forall yield pos t cs,
  Forall latin_char cs ->
  slice (input t) (begin t) pos = Ok (concat cs) ->
  exists buf t',
    latin_loop (concat cs) [] = Ok buf /\
    len buf <= MAX_TOKEN_SIZE /\
    outputLatin yield pos t = Ok t' /\
    let tk := makeToken (strings_ToLower buf) (currTokenPos t) in
    (1 < len buf ->
       yield (yielded t) tk = true ->
       exists mk, yielded t' = yielded t ++ tk :: mk /\
                  currTokenPos t' = currTokenPos t + 1) /\
    (1 < len buf ->
       yield (yielded t) tk = false ->
       yielded t' = yielded t ++ [tk] /\ Done t' = true /\
       currTokenPos t' = currTokenPos t) /\
    (len buf <= 1 ->
       currTokenPos t' = currTokenPos t + 1 /\
       (yielded t' = yielded t \/
        yielded t' = yielded t ++ [marker_token (nextMarker t) pos])).
Proof.
  intros yield pos t cs Hcs Hs.
  destruct (latin_loop_chars cs [] Hcs) as (kept & Hk & _). simpl app in Hk.
  assert (Hlen : len (concat kept) <= MAX_TOKEN_SIZE).
  { eapply latin_loop_len; [apply Nat.le_refl|exact Hk|].
    rewrite len_nil. unfold MAX_TOKEN_SIZE. lia. }
  unfold outputLatin. rewrite Hs. cbn [bind]. rewrite Hk. cbn [bind].
  exists (concat kept).
  destruct (1 <? len (concat kept)) eqn:E.
  - apply Z.ltb_lt in E. unfold call_yield. st_simpl.
    set (tk := makeToken (strings_ToLower (concat kept)) (currTokenPos t)).
    set (t1 := {| input := input t; begin := begin t;
                  currTokenPos := currTokenPos t; nextMarker := nextMarker t;
                  latinBuf := concat kept; Done := Done t;
                  yielded := yielded t ++ [tk] |}).
    destruct (yield (yielded t) tk) eqn:Y.
    + exists (incrTokenCount yield 1 pos t1).
      split; [reflexivity|]. split; [exact Hlen|].
      split; [reflexivity|]. cbv zeta.
      split; [|split]; try (intros; congruence); try lia.
      intros _ _. rewrite incr_currTokenPos.
      destruct (incr_yielded yield 1 pos t1) as [H|H]; rewrite H;
        subst t1; st_simpl.
      * exists []. auto.
      * eexists. split; [|reflexivity]. rewrite <- app_assoc. reflexivity.
    + exists (set_Done true t1).
      split; [reflexivity|]. split; [exact Hlen|].
      split; [reflexivity|]. cbv zeta.
      split; [|split]; try (intros; congruence); try lia.
      intros _ _. subst t1. st_simpl. auto.
  - apply Z.ltb_ge in E.
    exists (incrTokenCount yield 1 pos (set_latinBuf (concat kept) t)).
    split; [reflexivity|]. split; [exact Hlen|].
    split; [reflexivity|]. cbv zeta. split; [|split]; try lia.
    intros _. rewrite incr_currTokenPos. st_simpl. split; [reflexivity|].
    apply (incr_yielded yield 1 pos (set_latinBuf (concat kept) t)).
Qed.

(** ** Instances *)

(** The n-grams of a run of three code points, by [cjk_run_ngrams]. *)
Lemma cjk_run_ngrams_witness :
  let cs := [bytes_of "相"; bytes_of "见"; bytes_of "时"] in
  let t := NewSimpleTokenizer (concat cs) in
  exists t',
    call take_all cjkToken t 9 32 = Ok (breakerToken, t') /\
    yielded t' = [makeToken (bytes_of "相见时") 0;
                  makeToken (bytes_of "见时") 1;
                  makeToken (bytes_of "时") 2] /\
    currTokenPos t' = 3.
Proof.
  cbv zeta.
  destruct (cjk_run_ngrams take_all
              (NewSimpleTokenizer
                 (concat [bytes_of "相"; bytes_of "见"; bytes_of "时"]))
              9 32 [bytes_of "相"; bytes_of "见"; bytes_of "时"])
    as (t' & C & Y & P & _).
  - intros seen tk. reflexivity.
  - split; [simpl; lia|reflexivity].
  - reflexivity.
  - reflexivity.
  - repeat constructor; eexists; (split; [|reflexivity]); reflexivity.
  - reflexivity.
  - exists t'. split; [exact C|]. split; [exact Y|exact P].
Defined.

(** One space before a word, by [breaker_run_advance]. *)
Lemma breaker_run_advance_witness :
  let t := set_begin 2 (set_currTokenPos 1 (NewSimpleTokenizer (bytes_of "hi yo"))) in
  exists t',
    call take_all breakerToken t 3 121 = Ok (latinToken, t') /\
    begin t' = 3 /\ currTokenPos t' = 1.
Proof.
  cbv zeta.
  destruct (breaker_run_advance take_all
              (set_begin 2 (set_currTokenPos 1
                 (NewSimpleTokenizer (bytes_of "hi yo"))))
              3 121 [[32]])
    as (t' & C & B & P & _).
  - reflexivity.
  - discriminate.
  - repeat constructor; discriminate.
  - reflexivity.
  - exists t'. split; [exact C|]. split; [exact B|]. apply P. reflexivity.
Defined.

(** * Further properties of the tokenizer *)

(** ** Inputs made of breakers *)

Lemma scan_breakers : forall yield rs h t,
  h = beginToken \/ h = breakerToken ->
  Forall (fun pr => isBreakerRune (snd pr) = true) rs ->
  Done t = false ->
  exists h' t',
    scan yield rs h t = Ok (Finished h' t') /\
    (h' = beginToken \/ h' = breakerToken) /\
    yielded t' = yielded t /\ currTokenPos t' = currTokenPos t /\
    Done t' = false /\ input t' = input t.
Proof.
  intros yield rs. induction rs as [|[pos r] rs IH]; intros h t Hh Hrs Hd.
  - exists h, t. simpl. auto 7.
  - inversion Hrs as [|? ? Hr Hrs']; subst. simpl snd in Hr.
    cbn [scan]. rewrite Hd.
    destruct Hh as [-> | ->]; cbn [call]; rewrite Hr; cbn [bind fst snd].
    + destruct (IH breakerToken (set_begin pos t) (or_intror eq_refl) Hrs' Hd)
        as (h' & t' & E & Hh' & Y & C & D & I).
      exists h', t'. auto 7.
    + destruct (IH breakerToken t (or_intror eq_refl) Hrs' Hd)
        as (h' & t' & E & Hh' & Y & C & D & I).
      exists h', t'. auto 7.
Qed.

(** X1. An input in which every rune the scan reads is a breaker (white
    space, control characters, DEL, invalid bytes, U+FFFD; the empty
    input too) produces no token at all and leaves the logical position
    at 0, whatever the consumer. *)
Theorem breakers_only_no_token :
  forall (yield : list Token -> Token -> bool) (inp : list Z),
  Forall (fun pr => isBreakerRune (snd pr) = true) (range_string inp) ->
  exists t',
    Tokenize yield (NewSimpleTokenizer inp) = Ok t' /\
    yielded t' = [] /\ currTokenPos t' = 0 /\ Done t' = false.
Proof.
  intros yield inp H. unfold Tokenize.
  destruct (len (input (NewSimpleTokenizer inp)) =? 0).
  { eexists. split; [reflexivity|]. auto. }
  cbn [input NewSimpleTokenizer].
  destruct (scan_breakers yield (range_string inp) beginToken
              (NewSimpleTokenizer inp) (or_introl eq_refl) H eq_refl)
    as (h' & t' & E & Hh & Y & C & D & I).
  rewrite E. cbn [bind].
  destruct Hh as [-> | ->]; cbn [call];
    change (isBreakerRune 32) with true; cbv iota; cbn [bind snd].
  - eexists. split; [reflexivity|]. st_simpl. auto.
  - eexists. split; [reflexivity|]. auto.
Qed.

(** ** Inputs made of one run *)

Lemma DecodeRune_ascii : forall b l, b < 0x80 -> DecodeRune (b :: l) = (b, 1).
Proof.
  intros b l H. unfold DecodeRune.
  replace (first b) with FirstAS by (symmetry; apply first_ascii; exact H).
  reflexivity.
Qed.

Lemma range_from_ascii : forall s fuel pos,
  Forall (fun b => b < 0x80) s -> (length s <= fuel)%nat ->
  map snd (range_from fuel s pos) = s.
Proof.
  induction s as [|b s IH]; intros fuel pos Hs Hf.
  - destruct fuel; reflexivity.
  - inversion Hs as [|? ? Hb Hs']; subst.
    destruct fuel as [|fuel]; [simpl in Hf; lia|].
    cbn [range_from]. rewrite DecodeRune_ascii by exact Hb.
    cbn [map snd]. f_equal. apply IH; [exact Hs'|simpl in Hf; lia].
Qed.

Lemma slice_full : forall s, slice s 0 (len s) = Ok s.
Proof.
  intros s. rewrite slice_ok; [|lia|apply len_nonneg|lia].
  rewrite Z.sub_0_r. unfold len. rewrite Nat2Z.id. simpl skipn.
  now rewrite firstn_all.
Qed.

Lemma scan_latin_stay : forall yield rs t,
  Forall (fun pr => isBreakerRune (snd pr) = false /\ isLatin (snd pr) = true) rs ->
  Done t = false ->
  scan yield rs latinToken t = Ok (Finished latinToken t).
Proof.
  intros yield rs t. induction rs as [|[pos r] rs IH]; intros Hrs Hd.
  - reflexivity.
  - inversion Hrs as [|? ? [Hb Hl] Hrs']; subst. simpl snd in *.
    cbn [scan call]. rewrite Hd, Hb, Hl. cbn [bind fst snd]. apply IH; assumption.
Qed.

Lemma scan_cjk_stay : forall yield rs t,
  Forall (fun pr => isBreakerRune (snd pr) = false) rs ->
  Done t = false ->
  scan yield rs cjkToken t = Ok (Finished cjkToken t).
Proof.
  intros yield rs t. induction rs as [|[pos r] rs IH]; intros Hrs Hd.
  - reflexivity.
  - inversion Hrs as [|? ? Hb Hrs']; subst. simpl snd in *.
    cbn [scan call]. rewrite Hd, Hb. cbn [bind fst snd]. apply IH; assumption.
Qed.

(** On ASCII bytes the loop of [outputLatin] keeps the digits and letters
    in order until the buffer is full. *)
Lemma latin_loop_ascii : forall w buf,
  Forall (fun b => b <= 127) w -> len buf <= MAX_TOKEN_SIZE ->
  latin_loop w buf
  = Ok (buf ++ firstn (Z.to_nat (MAX_TOKEN_SIZE - len buf)) (filter isAlnum w)).
Proof.
  unfold MAX_TOKEN_SIZE.
  induction w as [|b w IH]; intros buf Hw Hb.
  - simpl. rewrite firstn_nil, app_nil_r. reflexivity.
  - inversion Hw as [|? ? Hb' Hw']; subst. cbn [latin_loop filter].
    replace (127 <? b) with false by (symmetry; apply Z.ltb_ge; lia).
    unfold MAX_TOKEN_SIZE. destruct (23 <=? len buf) eqn:E.
    + apply Z.leb_le in E. replace (23 - len buf) with 0 by lia.
      simpl. rewrite app_nil_r. reflexivity.
    + apply Z.leb_gt in E. destruct (isAlnum b).
      * rewrite IH; [|exact Hw'|rewrite len_app; change (len [b]) with 1; lia].
        rewrite len_app. change (len [b]) with 1.
        replace (Z.to_nat (23 - len buf))
          with (S (Z.to_nat (23 - (len buf + 1)))) by lia.
        cbn [firstn]. rewrite <- app_assoc. reflexivity.
      * apply IH; assumption.
Qed.

Lemma ToLower_ascii : forall s,
  Forall (fun b => b < 0x80) s -> strings_ToLower s = map lower_byte s.
Proof.
  intros s H. unfold strings_ToLower.
  replace (forallb (fun c => c <? RuneSelf) s) with true; [reflexivity|].
  symmetry. apply forallb_forall. intros x Hx.
  rewrite Forall_forall in H. apply Z.ltb_lt. unfold RuneSelf. auto.
Qed.

(** X2. An input that is one run of printable ASCII characters (bytes
    33 to 126) hands the consumer at most one token: the digits and
    letters of the run in order, cut after the 23rd and lower-cased, at
    position 0, and only if at least two of them are left.  The logical
    position ends at 1, unless the consumer declined the token. *)
Theorem ascii_run_token :
  forall (yield : list Token -> Token -> bool) (w : list Z),
  w <> [] ->
  Forall (fun b => 33 <= b < 127) w ->
  let buf := firstn 23 (filter isAlnum w) in
  let tk := makeToken (map lower_byte buf) 0 in
  exists t',
    Tokenize yield (NewSimpleTokenizer w) = Ok t' /\
    yielded t' = (if 1 <? len buf then [tk] else []) /\
    currTokenPos t'
    = (if (1 <? len buf) && negb (yield [] tk) then 0 else 1).
Proof.
  intros yield w Hne Hw buf tk.
  assert (Hasc : Forall (fun b => b < 0x80) w).
  { eapply Forall_impl; [|exact Hw]. intros b Hb. cbv beta in Hb. lia. }
  assert (Hcls : Forall (fun b => isBreakerRune b = false /\ isLatin b = true) w).
  { eapply Forall_impl; [|exact Hw]. intros b Hb. cbv beta in Hb.
    unfold isBreakerRune, isLatin, RuneError. split.
    - replace (b <? 33) with false by (symmetry; apply Z.ltb_ge; lia).
      replace (b =? 127) with false by (symmetry; apply Z.eqb_neq; lia).
      replace (b =? 65533) with false by (symmetry; apply Z.eqb_neq; lia).
      reflexivity.
    - apply Z.ltb_lt. lia. }
  assert (Hbuf : Forall (fun b => b < 0x80) buf).
  { subst buf. apply Forall_firstn. apply Forall_forall. intros x Hx.
    apply filter_In in Hx. destruct Hx as [Hx _].
    rewrite Forall_forall in Hasc. auto. }
  assert (HL : latin_loop w [] = Ok buf).
  { rewrite latin_loop_ascii;
      [|eapply Forall_impl; [|exact Hw]; intros x Hx; cbv beta in Hx; lia
       |rewrite len_nil; unfold MAX_TOKEN_SIZE; lia].
    reflexivity. }
  assert (Htk : makeToken (strings_ToLower buf) 0 = tk).
  { subst tk. rewrite ToLower_ascii by exact Hbuf. reflexivity. }
  clearbody tk buf.
  unfold Tokenize. cbn [input NewSimpleTokenizer].
  assert (Hs : slice w 0 (len w) = Ok w) by apply slice_full.
  destruct w as [|b l]; [congruence|]. clear Hne.
  replace (len (b :: l) =? 0) with false
    by (symmetry; apply Z.eqb_neq; rewrite len_cons; pose proof (len_nonneg l); lia).
  pose proof (Forall_inv Hasc) as Ab. pose proof (Forall_inv_tail Hasc) as Al.
  destruct (Forall_inv Hcls) as [Bb Lb]. pose proof (Forall_inv_tail Hcls) as Cl.
  unfold range_string. cbn [length range_from].
  rewrite DecodeRune_ascii by exact Ab.
  cbn [scan Done NewSimpleTokenizer call]. rewrite Bb, Lb. cbn [bind fst snd].
  change (skipn (Z.to_nat 1) (b :: l)) with l.
  rewrite scan_latin_stay; [|
    apply Forall_map with (f := snd)
      (P := fun r => isBreakerRune r = false /\ isLatin r = true);
    rewrite range_from_ascii by (auto; lia); exact Cl | reflexivity].
  cbn [bind call]. change (isBreakerRune 32) with true. cbv iota.
  unfold outputLatin. st_simpl. cbn [NewSimpleTokenizer input begin].
  rewrite Hs. cbn [bind]. rewrite HL. cbn [bind]. st_simpl.
  destruct (1 <? len buf) eqn:E.
  - cbn [NewSimpleTokenizer currTokenPos yielded]. rewrite Htk. cbn [andb].
    destruct (yield [] tk) eqn:Y; cbn [negb bind snd].
    + eexists. split; [reflexivity|]. st_simpl.
      unfold incrTokenCount. st_simpl. cbn. auto.
    + eexists. split; [reflexivity|]. st_simpl. auto.
  - cbn [andb bind snd]. eexists. split; [reflexivity|]. st_simpl.
    unfold incrTokenCount. st_simpl. cbn. auto.
Qed.

Lemma range_from_head_char : forall c rest fuel pos,
  run_char c ->
  range_from (S fuel) (c ++ rest) pos
  = (pos, fst (DecodeRune c)) :: range_from fuel rest (pos + len c).
Proof.
  intros c rest fuel pos Hc.
  pose proof (run_char_nonempty _ Hc) as Hne.
  cbn [range_from].
  destruct (c ++ rest) as [|x l] eqn:E.
  { apply app_eq_nil in E. destruct E. congruence. }
  rewrite <- E, run_char_ext by exact Hc.
  destruct Hc as (r & Hb & Hd). rewrite Hd. cbn [fst].
  unfold len. rewrite Nat2Z.id, skipn_app, skipn_all, Nat.sub_diag.
  reflexivity.
Qed.

(** X3. An input that is one run of characters none of which is a
    breaker and the first of which is CJK-class, read by a consumer that
    takes everything, produces exactly the sliding windows of the run
    (each followed by its marker when due), at logical positions 0, 1,
    2, ..., and the logical position ends at the number of characters. *)
Theorem cjk_input_ngrams :
  forall (yield : list Token -> Token -> bool) (c : list Z)
         (cs : list (list Z)),
  (forall seen tk, yield seen tk = true) ->
  Forall run_char (c :: cs) ->
  isLatin (fst (DecodeRune c)) = false ->
  exists t',
    Tokenize yield (NewSimpleTokenizer (concat (c :: cs))) = Ok t' /\
    yielded t' = ngram_tokens (c :: cs) 0 0 /\
    currTokenPos t' = Z.of_nat (length (c :: cs)).
Proof.
  intros yield c cs Hy Hrun Hl.
  pose proof (Forall_inv Hrun) as Hc. pose proof (Forall_inv_tail Hrun) as Hcs.
  pose proof (run_char_len _ Hc) as Hlen.
  set (inp := concat (c :: cs)).
  set (t0 := NewSimpleTokenizer inp).
  assert (Hb : isBreakerRune (fst (DecodeRune c)) = false).
  { destruct Hc as (r & Hb & Hd). rewrite Hd. exact Hb. }
  assert (Hscan : scan yield (range_string inp) beginToken t0
                  = Ok (Finished cjkToken (set_begin 0 t0))).
  { unfold range_string, inp. simpl concat. rewrite length_app.
    destruct (length c) as [|n] eqn:En; [unfold len in Hlen; lia|].
    cbn [Nat.add]. rewrite range_from_head_char by exact Hc.
    cbn [scan call]. change (Done t0) with false. cbv iota.
    rewrite Hb, Hl. cbn [bind fst snd].
    apply scan_cjk_stay; [|reflexivity].
    apply Forall_map with (f := snd) (P := fun r => isBreakerRune r = false).
    rewrite range_from_chars;
      [|exact Hcs|pose proof (run_length_le cs Hcs); lia].
    apply Forall_map. eapply Forall_impl; [|exact Hcs].
    intros x (r & Hr & Hd). rewrite Hd. exact Hr. }
  unfold Tokenize. fold inp. fold t0.
  replace (len (input t0) =? 0) with false.
  2:{ symmetry. apply Z.eqb_neq. unfold t0, inp. cbn [input NewSimpleTokenizer].
      simpl concat. rewrite len_app.
      pose proof (len_nonneg (concat cs)). lia. }
  change (input t0) with inp. rewrite Hscan. cbn [bind call].
  change (isBreakerRune 32) with true. cbv iota.
  change (input (set_begin 0 t0)) with inp.
  rewrite (outputCJK_chars yield (set_begin 0 t0) (len inp) (c :: cs) Hrun)
    by (apply slice_full).
  cbn [bind snd].
  destruct (cjk_chars_accepted yield (c :: cs) 0 (set_begin 0 t0) Hy)
    as (Y & C & _); [apply marker_inv_init|reflexivity|].
  eexists. split; [reflexivity|]. st_simpl. split; [exact Y|exact C].
Qed.

(** ** What a Latin token is made of *)

Lemma latin_loop_kept : forall cs buf,
  Forall latin_char cs ->
  exists k,
    (k <= length cs)%nat /\
    latin_loop (concat cs) buf
      = Ok (buf ++ concat (filter keeps (firstn k cs))) /\
    ((k < length cs)%nat ->
     MAX_TOKEN_SIZE - 1 <= len (buf ++ concat (filter keeps (firstn k cs)))).
Proof.
  unfold MAX_TOKEN_SIZE.
  induction cs as [|c cs IH]; intros buf Hcs.
  - exists 0%nat. simpl. rewrite app_nil_r. repeat split; auto; lia.
  - pose proof (Forall_inv Hcs) as Hc. pose proof (Forall_inv_tail Hcs) as Hcs'.
    destruct (latin_char_shape _ Hc) as [(b & -> & Hb)|(p0 & b1 & -> & Hp & Hc1)].
    + simpl concat. simpl app. cbn [latin_loop]. unfold MAX_TOKEN_SIZE.
      replace (127 <? b) with false by (symmetry; apply Z.ltb_ge; lia).
      destruct (23 <=? len buf) eqn:E.
      { apply Z.leb_le in E. exists 0%nat. simpl. rewrite app_nil_r.
        repeat split; auto; lia. }
      destruct (isAlnum b) eqn:A.
      * destruct (IH (buf ++ [b]) Hcs') as (k & Hk & Hr & Hcut).
        exists (S k). cbn [firstn filter keeps length]. rewrite A.
        simpl concat. rewrite <- app_assoc in Hr, Hcut. simpl app in *.
        split; [lia|]. split; [exact Hr|]. intros H. apply Hcut. lia.
      * destruct (IH buf Hcs') as (k & Hk & Hr & Hcut).
        exists (S k). cbn [firstn filter keeps length]. rewrite A.
        split; [lia|]. split; [exact Hr|]. intros H. apply Hcut. lia.
    + simpl concat. simpl app. cbn [latin_loop]. unfold MAX_TOKEN_SIZE.
      replace (127 <? p0) with true by (symmetry; apply Z.ltb_lt; lia).
      destruct (23 - 1 <=? len buf) eqn:E.
      { apply Z.leb_le in E. exists 0%nat. simpl. rewrite app_nil_r.
        repeat split; auto; lia. }
      destruct (IH (buf ++ [p0; b1]) Hcs') as (k & Hk & Hr & Hcut).
      exists (S k). cbn [firstn filter keeps length].
      simpl concat. rewrite <- app_assoc in Hr, Hcut. simpl app in *.
      split; [lia|]. split; [exact Hr|]. intros H. apply Hcut. lia.
Qed.

(** X4. On a run of Latin-class characters the buffer [outputLatin]
    builds is the run with its ASCII bytes that are neither digit nor
    letter dropped, in order, cut at a character boundary (a two-byte
    character is kept whole or not at all); it holds at most 23 bytes,
    and when characters were cut off it holds at least 22. *)
Theorem latin_buffer_kept :
  forall cs : list (list Z),
  Forall latin_char cs ->
  exists k,
    (k <= length cs)%nat /\
    latin_loop (concat cs) [] = Ok (concat (filter keeps (firstn k cs))) /\
    len (concat (filter keeps (firstn k cs))) <= MAX_TOKEN_SIZE /\
    ((k < length cs)%nat ->
     MAX_TOKEN_SIZE - 1 <= len (concat (filter keeps (firstn k cs)))).
Proof.
  intros cs Hcs. destruct (latin_loop_kept cs [] Hcs) as (k & Hk & Hr & Hcut).
  simpl app in *. exists k. split; [exact Hk|]. split; [exact Hr|].
  split; [|exact Hcut].
  eapply latin_loop_len; [apply Nat.le_refl|exact Hr|].
  rewrite len_nil. unfold MAX_TOKEN_SIZE. lia.
Qed.

Lemma lowerRanges_clean : forallb range_entry_clean lowerRanges = true.
Proof. vm_compute. reflexivity. Qed.

Lemma to_lower_in_clean : forall tbl r,
  forallb range_entry_clean tbl = true ->
  0x80 <= r ->
  0x80 <= to_lower_in tbl r \/ 0x61 <= to_lower_in tbl r <= 0x7A.
Proof.
  induction tbl as [|[[[lo hi] stride] delta] tbl IH]; intros r Ht Hr.
  - simpl. left. exact Hr.
  - simpl in Ht. apply andb_true_iff in Ht. destruct Ht as [He Ht].
    simpl. destruct ((lo <=? r) && (r <=? hi) && _) eqn:M.
    + apply andb_true_iff in M. destruct M as [M _].
      apply andb_true_iff in M. destruct M as [M1 M2].
      apply Z.leb_le in M1, M2.
      apply orb_true_iff in He. destruct He as [He|He].
      * apply Z.leb_le in He. left. lia.
      * apply andb_true_iff in He. destruct He as [He He3].
        apply andb_true_iff in He. destruct He as [He1 He2].
        apply Z.eqb_eq in He1. apply Z.leb_le in He2, He3. right. lia.
    + apply IH; assumption.
Qed.

Lemma EncodeRune_clean : forall r,
  0x80 <= r < 0x800 \/ r = 0x2C65 \/ r = 0x2C66 \/
  0x30 <= r <= 0x39 \/ 0x61 <= r <= 0x7A ->
  Forall clean_byte (EncodeRune r).
Proof.
  intros r [Hr|[->|[->|Hr]]].
  - unfold EncodeRune.
    replace ((0 <=? r) && (r <? 128)) with false
      by (symmetry; apply andb_false_iff; right; apply Z.ltb_ge; lia).
    replace ((0 <=? r) && (r <? 2048)) with true
      by (symmetry; apply andb_true_iff; split; [apply Z.leb_le|apply Z.ltb_lt]; lia).
    rewrite land_maskx, Z.shiftr_div_pow2 by lia. change (2 ^ 6) with 64.
    rewrite (lor_disjoint_add 192 (r / 64) 6);
      [|lia|reflexivity|change (2 ^ 6) with 64; Z.to_euclidean_division_equations; lia].
    rewrite (lor_disjoint_add 128 (r mod 64) 6);
      [|lia|reflexivity|change (2 ^ 6) with 64; Z.to_euclidean_division_equations; lia].
    unfold clean_byte.
    constructor; [right; right; Z.to_euclidean_division_equations; lia|].
    constructor; [right; right; Z.to_euclidean_division_equations; lia|constructor].
  - replace (EncodeRune 11365) with [226; 177; 165] by (vm_compute; reflexivity).
    repeat constructor; unfold clean_byte; lia.
  - replace (EncodeRune 11366) with [226; 177; 166] by (vm_compute; reflexivity).
    repeat constructor; unfold clean_byte; lia.
  - unfold EncodeRune.
    replace ((0 <=? r) && (r <? 128)) with true
      by (symmetry; apply andb_true_iff; split; [apply Z.leb_le|apply Z.ltb_lt]; lia).
    constructor; [unfold clean_byte; lia|constructor].
Qed.

Lemma isAlnum_spec : forall b,
  isAlnum b = true <->
  0x30 <= b <= 0x39 \/ 0x61 <= b <= 0x7A \/ 0x41 <= b <= 0x5A.
Proof.
  intros b. unfold isAlnum.
  rewrite !orb_true_iff, !andb_true_iff, !Z.leb_le. tauto.
Qed.

Lemma lower_byte_clean : forall b,
  isAlnum b = true \/ 0x80 <= b -> clean_byte (lower_byte b).
Proof.
  intros b H. unfold lower_byte, clean_byte.
  destruct ((65 <=? b) && (b <=? 90)) eqn:E.
  - apply andb_true_iff in E. destruct E as [E1 E2]. apply Z.leb_le in E1, E2. lia.
  - apply andb_false_iff in E.
    destruct H as [H|H]; [apply isAlnum_spec in H|];
      destruct E as [E|E]; apply Z.leb_gt in E; lia.
Qed.

(** The rune of a kept character and what its lower case encodes to. *)
Lemma kept_char_lower : forall c,
  latin_char c -> keeps c = true ->
  Forall (fun b => isAlnum b = true \/ 0x80 <= b) c /\
  Forall clean_byte
    (if 0 <=? unicode_ToLower (fst (DecodeRune c))
     then EncodeRune (unicode_ToLower (fst (DecodeRune c))) else []).
Proof.
  intros c Hc Hk.
  pose proof (latin_rune_bound c Hc) as Hbound.
  destruct (latin_char_shape _ Hc) as [(b & -> & Hb)|(p0 & b1 & -> & Hp & Hc1)].
  - simpl in Hk. split; [constructor; [left; exact Hk|constructor]|].
    rewrite DecodeRune_ascii by lia. cbn [fst].
    assert (El : unicode_ToLower b = lower_byte b).
    { unfold unicode_ToLower, lower_byte.
      replace (b <=? 127) with true by (symmetry; apply Z.leb_le; lia).
      reflexivity. }
    rewrite El.
    pose proof (lower_byte_clean b (or_introl Hk)) as Hcl.
    unfold clean_byte in Hcl.
    assert (lower_byte b < 0x80).
    { unfold lower_byte. destruct (_ && _) eqn:E; [|lia].
      apply andb_true_iff in E. destruct E as [_ E]. apply Z.leb_le in E. lia. }
    replace (0 <=? lower_byte b) with true by (symmetry; apply Z.leb_le; lia).
    apply EncodeRune_clean. lia.
  - unfold cont, locb, hicb in Hc1.
    split; [constructor; [right; lia|constructor; [right; lia|constructor]]|].
    assert (Hr : 0x80 <= fst (DecodeRune [p0; b1])).
    { destruct Hc as (r & Hbr & _ & Hd).
      destruct (DecodeRune_valid_inv _ _ _ Hd (not_breaker_not_error _ Hbr))
        as [(q0 & tl & E & Hs & _)
           |[(q0 & q1 & tl & E & Hs & _ & _ & Hv)
            |[(q0 & q1 & q2 & tl & E & _)
             |(q0 & q1 & q2 & q3 & tl & E & _)]]];
        try discriminate.
      inversion E; subst. rewrite Hd. cbn [fst]. rewrite rune2_val.
      Z.to_euclidean_division_equations; lia. }
    set (r := fst (DecodeRune [p0; b1])) in *.
    pose proof (unicode_ToLower_bound r Hbound) as Hup.
    assert (Hlo : 0x80 <= unicode_ToLower r \/ 0x61 <= unicode_ToLower r <= 0x7A).
    { unfold unicode_ToLower.
      replace (r <=? 127) with false by (symmetry; apply Z.leb_gt; lia).
      apply to_lower_in_clean; [exact lowerRanges_clean|exact Hr]. }
    replace (0 <=? unicode_ToLower r) with true by (symmetry; apply Z.leb_le; lia).
    apply EncodeRune_clean. lia.
Qed.

(** X5. The string a Latin token is built from holds nothing but ASCII
    digits, ASCII lower-case letters and non-ASCII bytes: ASCII
    punctuation is gone and no ASCII upper-case letter is left. *)
Theorem latin_token_clean :
  forall cs : list (list Z),
  Forall latin_char cs ->
  exists buf,
    latin_loop (concat cs) [] = Ok buf /\
    Forall clean_byte (strings_ToLower buf).
Proof.
  intros cs Hcs. destruct (latin_loop_kept cs [] Hcs) as (k & _ & Hr & _).
  simpl app in Hr. exists (concat (filter keeps (firstn k cs))).
  split; [exact Hr|].
  set (kept := filter keeps (firstn k cs)).
  assert (Hkept : Forall (fun c => latin_char c /\ keeps c = true) kept).
  { apply Forall_forall. intros c Hin. apply filter_In in Hin.
    destruct Hin as [Hin Hk]. split; [|exact Hk].
    pose proof (Forall_firstn _ latin_char k cs Hcs) as Hf.
    rewrite Forall_forall in Hf. auto. }
  assert (Hlat : Forall latin_char kept).
  { eapply Forall_impl; [|exact Hkept]. intros c [H _]. exact H. }
  unfold strings_ToLower.
  destruct (forallb _ (concat kept)) eqn:A.
  - apply Forall_forall. intros x Hx. apply in_map_iff in Hx.
    destruct Hx as (b & <- & Hb). apply in_concat in Hb.
    destruct Hb as (c & Hc & Hbc).
    rewrite Forall_forall in Hkept. destruct (Hkept c Hc) as [Hl Hk].
    destruct (kept_char_lower c Hl Hk) as [Hbytes _].
    rewrite Forall_forall in Hbytes.
    apply (lower_byte_clean b). auto.
  - unfold strings_Map, range_string.
    rewrite (flat_map_snd (fun r => if 0 <=? unicode_ToLower r
                                    then EncodeRune (unicode_ToLower r) else [])).
    assert (Hrun : Forall run_char kept).
    { eapply Forall_impl; [|exact Hlat]. apply latin_char_run. }
    rewrite range_from_chars; [|assumption|apply run_length_le; assumption].
    apply Forall_flat_map. intros r Hr'. apply in_map_iff in Hr'.
    destruct Hr' as (c & <- & Hc).
    rewrite Forall_forall in Hkept. destruct (Hkept c Hc) as [Hl Hk].
    apply (kept_char_lower c Hl Hk).
Qed.

(** ** Cancellation inside the loop *)

Lemma accepted_nil : forall yield, accepted yield [].
Proof. intros yield pre tk post H. destruct pre; discriminate. Qed.

Lemma accepted_snoc : forall yield l tk,
  accepted yield l -> yield l tk = true -> accepted yield (l ++ [tk]).
Proof.
  intros yield l tk Hl Hy pre tk' post E.
  induction post as [|x post _] using rev_ind.
  - apply app_inj_tail in E. destruct E as [-> ->]. exact Hy.
  - change (tk' :: post ++ [x]) with ((tk' :: post) ++ [x]) in E.
    rewrite app_assoc in E. apply app_inj_tail in E. destruct E as [E _].
    exact (Hl pre tk' post E).
Qed.

Lemma accepted_declined_last : forall yield l tk0 pre tk post,
  accepted yield l ->
  l ++ [tk0] = pre ++ tk :: post -> yield pre tk = false -> post = [].
Proof.
  intros yield l tk0 pre tk post Hl E Hy.
  induction post as [|x post _] using rev_ind; [reflexivity|].
  change (tk :: post ++ [x]) with ((tk :: post) ++ [x]) in E.
  rewrite app_assoc in E. apply app_inj_tail in E. destruct E as [E _].
  rewrite (Hl pre tk post E) in Hy. discriminate.
Qed.

Lemma cancel_ok_clean : forall yield t,
  Done t = false -> accepted yield (yielded t) -> cancel_ok yield t.
Proof. intros yield t Hd Ha. unfold cancel_ok. rewrite Hd. exact Ha. Qed.

Lemma incr_cancel : forall yield n pos t,
  Done t = false -> accepted yield (yielded t) ->
  cancel_ok yield (incrTokenCount yield n pos t).
Proof.
  intros yield n pos t Hd Ha. unfold incrTokenCount. st_simpl.
  destruct (nextMarker t <=? currTokenPos t + n).
  - destruct (yield (yielded t) _) eqn:Y; unfold cancel_ok; st_simpl.
    + rewrite Hd. apply accepted_snoc; assumption.
    + eexists. eexists. split; [reflexivity|]. split; assumption.
  - unfold cancel_ok. st_simpl. rewrite Hd. exact Ha.
Qed.

Lemma outputLatin_cancel : forall yield pos t t',
  Done t = false -> accepted yield (yielded t) ->
  outputLatin yield pos t = Ok t' -> cancel_ok yield t'.
Proof.
  intros yield pos t t' Hd Ha H. unfold outputLatin in H.
  destruct (slice (input t) (begin t) pos) as [ibuf| |]; try discriminate.
  cbn [bind] in H.
  destruct (latin_loop ibuf []) as [buf| |]; try discriminate.
  cbn [bind] in H. st_simpl.
  destruct (1 <? len buf).
  - destruct (yield (yielded t) _) eqn:Y; inversion H; subst.
    + apply incr_cancel; st_simpl; [exact Hd|].
      apply accepted_snoc; assumption.
    + unfold cancel_ok. st_simpl.
      eexists. eexists. split; [reflexivity|]. split; assumption.
  - inversion H; subst. apply incr_cancel; assumption.
Qed.

Lemma cjk_loop_cancel : forall yield fuel ibuf ia ib ic id t t',
  Done t = false -> accepted yield (yielded t) ->
  cjk_loop yield fuel ibuf ia ib ic id t = Ok t' -> cancel_ok yield t'.
Proof.
  intros yield. induction fuel as [|fuel IH];
    intros ibuf ia ib ic id t t' Hd Ha H; cbn [cjk_loop] in H.
  - destruct (ia <? id); [discriminate|]. inversion H; subst.
    apply cancel_ok_clean; assumption.
  - destruct (ia <? id); [|inversion H; subst; apply cancel_ok_clean; assumption].
    destruct (slice ibuf ia id) as [w| |]; try discriminate.
    cbn [bind] in H. st_simpl.
    destruct (yield (yielded t) (makeToken w (currTokenPos t))) eqn:Y.
    + set (t1 := {| input := input t; begin := begin t;
                    currTokenPos := currTokenPos t; nextMarker := nextMarker t;
                    latinBuf := latinBuf t; Done := Done t;
                    yielded := yielded t ++ [makeToken w (currTokenPos t)] |}) in *.
      assert (Hc : cancel_ok yield (incrTokenCount yield 1 (begin t + ia) t1)).
      { apply incr_cancel; [exact Hd|].
        subst t1. st_simpl. apply accepted_snoc; assumption. }
      change (begin t1) with (begin t) in H.
      destruct (Done (incrTokenCount yield 1 (begin t + ia) t1)) eqn:D.
      * inversion H; subst. exact Hc.
      * destruct (slice_from ibuf id) as [tail| |]; try discriminate.
        cbn [bind] in H. eapply IH; [exact D| |exact H].
        unfold cancel_ok in Hc. rewrite D in Hc. exact Hc.
    + inversion H; subst. unfold cancel_ok. st_simpl.
      eexists. eexists. split; [reflexivity|]. split; assumption.
Qed.

Lemma call_cancel : forall yield h t pos r h' t',
  Done t = false -> accepted yield (yielded t) ->
  call yield h t pos r = Ok (h', t') -> cancel_ok yield t'.
Proof.
  intros yield h t pos r h' t' Hd Ha H.
  assert (Hset : forall v t0, cancel_ok yield t0 -> cancel_ok yield (set_begin v t0))
    by (intros v t0 H0; exact H0).
  assert (Hclean : cancel_ok yield t) by (apply cancel_ok_clean; assumption).
  destruct h; cbn [call] in H.
  - destruct (isBreakerRune r); [|destruct (isLatin r)];
      inversion H; subst; apply Hset, Hclean.
  - destruct (isBreakerRune r); [inversion H; subst; exact Hclean|].
    destruct (begin t + 1 <? pos); cbn [bind] in H.
    + destruct (isLatin r); inversion H; subst; apply Hset, incr_cancel; assumption.
    + destruct (index (input t) (begin t)) as [b| |]; try discriminate.
      cbn [bind] in H.
      destruct (negb (b =? 32)); destruct (isLatin r); inversion H; subst;
        apply Hset; try (apply incr_cancel; assumption); exact Hclean.
  - destruct (isBreakerRune r); [|destruct (isLatin r)].
    + destruct (outputLatin yield pos t) as [t1| |] eqn:E; try discriminate.
      inversion H; subst. apply Hset. eapply outputLatin_cancel; eassumption.
    + inversion H; subst. exact Hclean.
    + destruct (outputLatin yield pos t) as [t1| |] eqn:E; try discriminate.
      inversion H; subst. apply Hset. eapply outputLatin_cancel; eassumption.
  - destruct (isBreakerRune r); [|inversion H; subst; exact Hclean].
    destruct (outputCJK yield pos t) as [t1| |] eqn:E; try discriminate.
    inversion H; subst. apply Hset.
    unfold outputCJK in E.
    destruct (slice (input t) (begin t) pos) as [ibuf| |]; try discriminate.
    cbn [bind] in E.
    destruct (slice_from ibuf _) as [tl1| |]; try discriminate.
    cbn [bind] in E.
    destruct (slice_from ibuf _) as [tl2| |]; try discriminate.
    cbn [bind] in E. eapply cjk_loop_cancel; eassumption.
Qed.

Lemma scan_cancel : forall yield rs h t e,
  cancel_ok yield t ->
  scan yield rs h t = Ok e -> cancel_ok yield (exit_state e).
Proof.
  intros yield rs. induction rs as [|[pos r] rs IH]; intros h t e Hc H.
  - inversion H; subst. exact Hc.
  - cbn [scan] in H. destruct (Done t) eqn:D.
    + inversion H; subst. exact Hc.
    + destruct (call yield h t pos r) as [[h' t']| |] eqn:C; try discriminate.
      cbn [bind fst snd] in H. eapply IH; [|exact H].
      eapply call_cancel; [exact D| |exact C].
      unfold cancel_ok in Hc. rewrite D in Hc. exact Hc.
Qed.

(** X6. Inside the loop of [Tokenize] cancellation is honoured, for
    every input and every consumer: the loop ends, and when it ends no
    token was handed over after one the consumer declined; [Done] is set
    exactly when the last token handed over was declined. *)
Theorem loop_honours_cancel :
  forall (yield : list Token -> Token -> bool) (inp : list Z),
  exists e,
    scan yield (range_string inp) beginToken (NewSimpleTokenizer inp) = Ok e /\
    (forall pre tk post,
       yielded (exit_state e) = pre ++ tk :: post ->
       yield pre tk = false -> post = []) /\
    (Done (exit_state e) = true <->
     exists pre tk, yielded (exit_state e) = pre ++ [tk] /\
                    yield pre tk = false).
Proof.
  intros yield inp.
  assert (Hinv : scan_inv beginToken (NewSimpleTokenizer inp) 0).
  { split; [split; [apply marker_inv_init|constructor]|].
    simpl. pose proof (len_nonneg inp). repeat split; lia. }
  destruct (scan_inv_run yield (length inp) 0 beginToken _ Hinv)
    as (e & E & _).
  { simpl. lia. }
  simpl in E. exists e. split; [exact E|].
  assert (Hc : cancel_ok yield (exit_state e)).
  { eapply scan_cancel; [|exact E].
    apply cancel_ok_clean; [reflexivity|apply accepted_nil]. }
  unfold cancel_ok in Hc. destruct (Done (exit_state e)) eqn:D.
  - destruct Hc as (l & tk0 & Y & Ha & Hn). split.
    + intros pre tk post Hy Hf. rewrite Y in Hy.
      eapply accepted_declined_last; eassumption.
    + split; [intros _; eauto|reflexivity].
  - split.
    + intros pre tk post Hy Hf. rewrite (Hc pre tk post Hy) in Hf. discriminate.
    + split; [discriminate|].
      intros (pre & tk & Hy & Hf).
      rewrite (Hc pre tk [] Hy) in Hf. discriminate.
Qed.

(** ** Tokens as values *)

(** X9. A token is a 24-byte array with a position, and within capacity
    it is faithful: two tokens built from strings of at most 23 bytes
    are equal exactly when the strings and the positions are equal (the
    length prefix tells a string from the same string followed by zero
    bytes). *)
Theorem makeToken_faithful :
  forall (s s' : list Z) (p p' : Z),
  len s <= MAX_TOKEN_SIZE -> len s' <= MAX_TOKEN_SIZE ->
  length (TokenBytes (makeToken s p)) = 24%nat /\
  (makeToken s p = makeToken s' p' <-> s = s' /\ p = p').
Proof.
  intros s s' p p' Hs Hs'. split.
  - unfold makeToken. cbn [TokenBytes length]. now rewrite length_copy_payload.
  - split.
    + intros E. split.
      * rewrite <- (payload_makeToken s p Hs), <- (payload_makeToken s' p' Hs').
        now rewrite E.
      * apply (f_equal TokenPos) in E. exact E.
    + intros [-> ->]. reflexivity.
Qed.

(** ** Instances of the further properties *)

Lemma breakers_only_no_token_witness :
  exists t',
    Tokenize take_all (NewSimpleTokenizer [32; 10; 9; 127; 255; 32]) = Ok t' /\
    yielded t' = [] /\ currTokenPos t' = 0 /\ Done t' = false.
Proof.
  apply (breakers_only_no_token take_all [32; 10; 9; 127; 255; 32]).
  vm_compute. repeat constructor.
Defined.

Lemma ascii_run_token_witness :
  exists t',
    Tokenize take_all (NewSimpleTokenizer (bytes_of "b@B")) = Ok t' /\
    yielded t' = [makeToken (bytes_of "bb") 0] /\
    currTokenPos t' = 1.
Proof.
  destruct (ascii_run_token take_all (bytes_of "b@B")) as (t' & E & Y & C).
  - discriminate.
  - repeat constructor; vm_compute; discriminate.
  - exists t'. split; [exact E|]. split; [exact Y|exact C].
Defined.

Lemma cjk_input_ngrams_witness :
  exists t',
    Tokenize take_all
      (NewSimpleTokenizer (concat [bytes_of "笔"; bytes_of "2"; bytes_of "B"]))
      = Ok t' /\
    yielded t' = [makeToken (bytes_of "笔2B") 0; makeToken (bytes_of "2B") 1;
                  makeToken (bytes_of "B") 2] /\
    currTokenPos t' = 3.
Proof.
  destruct (cjk_input_ngrams take_all (bytes_of "笔")
              [bytes_of "2"; bytes_of "B"]) as (t' & E & Y & C).
  - intros seen tk. reflexivity.
  - repeat constructor; eexists; (split; [|reflexivity]); reflexivity.
  - reflexivity.
  - exists t'. split; [exact E|]. split; [exact Y|exact C].
Defined.

Lemma latin_buffer_kept_witness :
  exists k,
    (k <= 3)%nat /\
    latin_loop (bytes_of "b@B") []
      = Ok (concat (filter keeps (firstn k [[98]; [64]; [66]]))) /\
    len (concat (filter keeps (firstn k [[98]; [64]; [66]]))) <= 23 /\
    ((k < 3)%nat ->
     22 <= len (concat (filter keeps (firstn k [[98]; [64]; [66]])))).
Proof.
  apply (latin_buffer_kept [[98]; [64]; [66]]).
  repeat constructor; eexists; (split; [|split; [|reflexivity]]); reflexivity.
Defined.

Lemma latin_token_clean_witness :
  exists buf,
    latin_loop (bytes_of "b@B") [] = Ok buf /\
    Forall clean_byte (strings_ToLower buf).
Proof.
  apply (latin_token_clean [[98]; [64]; [66]]).
  repeat constructor; eexists; (split; [|split; [|reflexivity]]); reflexivity.
Defined.

Lemma outputLatin_run_witness :
  let t := NewSimpleTokenizer (bytes_of "b@B") in
  exists t' mk,
    outputLatin take_all 3 t = Ok t' /\
    yielded t' = makeToken (bytes_of "bb") 0 :: mk /\
    currTokenPos t' = 1.
Proof.
  cbv zeta.
  destruct (outputLatin_run take_all 3 (NewSimpleTokenizer (bytes_of "b@B"))
              [[98]; [64]; [66]])
    as (buf & t' & L & _ & O & A & _ & _).
  - repeat constructor; eexists; (split; [|split; [|reflexivity]]); reflexivity.
  - reflexivity.
  - assert (Eb : Ok buf = Ok [98; 66]) by (rewrite <- L; reflexivity).
    inversion Eb; subst buf.
    destruct (A eq_refl eq_refl) as (mk & Y & C).
    exists t', mk. split; [exact O|]. split; [exact Y|exact C].
Defined.

Lemma makeToken_faithful_witness :
  length (TokenBytes (makeToken [97] 0)) = 24%nat /\
  (makeToken [97] 0 = makeToken [97; 0] 0 <-> [97] = [97; 0] /\ 0 = 0).
Proof.
  apply (makeToken_faithful [97] [97; 0] 0 0); vm_compute; discriminate.
Defined.

(** ** Every token handed over *)

Lemma digits_length_fuel : forall fuel n acc,
  (length (digits fuel n acc) <= fuel + length acc)%nat.
Proof.
  induction fuel as [|fuel IH]; intros n acc; cbn [digits]; [lia|].
  destruct (n <? 10); [simpl; lia|].
  specialize (IH (n / 10) ((48 + n mod 10) :: acc)). cbn [length] in IH. lia.
Qed.

Lemma Itoa_len_bound : forall m, 0 <= len (Itoa m) <= 21.
Proof.
  intros m. split; [apply len_nonneg|]. unfold Itoa, len.
  destruct (m <? 0).
  - pose proof (digits_length_fuel 20 (- m) []) as H. cbn [length] in *. lia.
  - pose proof (digits_length_fuel 20 m []) as H. cbn [length] in *. lia.
Qed.

Lemma wf_make : forall n s p,
  1 <= len s < 256 -> 0 <= p <= n -> tok_wf n (makeToken s p).
Proof.
  intros n s p Hs Hp. unfold tok_wf, makeToken, payload_len.
  cbn [TokenBytes TokenPos hd length]. rewrite length_copy_payload.
  rewrite Z.mod_small by lia. repeat split; lia.
Qed.

Lemma wf_marker : forall n m off, 0 <= off <= n -> tok_wf n (marker_token m off).
Proof.
  intros n m off H. unfold marker_token. apply wf_make; [|exact H].
  rewrite len_app. change (len (bytes_of "_MARKER_")) with 8.
  pose proof (Itoa_len_bound m). lia.
Qed.

Lemma EncodeRune_length : forall r, (1 <= length (EncodeRune r) <= 4)%nat.
Proof.
  intros r. unfold EncodeRune.
  repeat match goal with
         | |- context [if ?c then _ else _] => destruct c
         end; simpl; lia.
Qed.

Lemma flat_map_length_bounds : forall (A B : Type) (f : A -> list B) l,
  (forall x, In x l -> (1 <= length (f x) <= 4)%nat) ->
  (length l <= length (flat_map f l) <= 4 * length l)%nat.
Proof.
  intros A B f l H. induction l as [|x l IH]; simpl; [lia|].
  rewrite length_app.
  pose proof (H x (or_introl eq_refl)).
  assert (length l <= length (flat_map f l) <= 4 * length l)%nat
    by (apply IH; intros y Hy; apply H; right; exact Hy).
  lia.
Qed.

Lemma ToLower_len : forall kept,
  Forall latin_char kept -> kept <> [] -> len (concat kept) <= MAX_TOKEN_SIZE ->
  1 <= len (strings_ToLower (concat kept)) < 256.
Proof.
  unfold MAX_TOKEN_SIZE. intros kept Hk Hne Hlen.
  assert (Hrun : Forall run_char kept).
  { eapply Forall_impl; [|exact Hk]. apply latin_char_run. }
  pose proof (run_length_le kept Hrun) as Hn.
  assert (Hpos : (1 <= length kept)%nat) by (destruct kept; [congruence|simpl; lia]).
  unfold strings_ToLower. destruct (forallb _ (concat kept)).
  - unfold len in *. rewrite length_map. lia.
  - unfold strings_Map, range_string.
    rewrite (flat_map_snd (fun r => if 0 <=? unicode_ToLower r
                                    then EncodeRune (unicode_ToLower r) else [])).
    rewrite range_from_chars; [|assumption|assumption].
    rewrite flat_map_concat_map, map_map, <- flat_map_concat_map.
    match goal with
    | |- context [flat_map ?F kept] =>
      pose proof (flat_map_length_bounds _ _ F kept) as Hb
    end.
    cbv beta in Hb. unfold len in *.
    lapply Hb; [intros Hb'; lia|].
    intros x Hx. rewrite Forall_forall in Hk.
    pose proof (unicode_ToLower_bound _ (latin_rune_bound x (Hk x Hx))) as Hu.
    replace (0 <=? unicode_ToLower (fst (DecodeRune x))) with true
      by (symmetry; apply Z.leb_le; lia).
    apply EncodeRune_length.
Qed.

Lemma incr_wf : forall yield n k pos t,
  Forall (tok_wf n) (yielded t) -> 0 <= pos <= n ->
  Forall (tok_wf n) (yielded (incrTokenCount yield k pos t)).
Proof.
  intros yield n k pos t H Hp.
  destruct (incr_yielded yield k pos t) as [E|E]; rewrite E; [exact H|].
  apply Forall_app. split; [exact H|].
  constructor; [apply wf_marker; exact Hp|constructor].
Qed.

Lemma outputLatin_wf : forall yield n pos t t' cs,
  Forall latin_char cs ->
  slice (input t) (begin t) pos = Ok (concat cs) ->
  0 <= currTokenPos t <= n -> 0 <= pos <= n ->
  Forall (tok_wf n) (yielded t) ->
  outputLatin yield pos t = Ok t' ->
  Forall (tok_wf n) (yielded t').
Proof.
  intros yield n pos t t' cs Hcs Hs Hc Hp Hy H.
  unfold outputLatin in H. rewrite Hs in H. cbn [bind] in H.
  destruct (latin_loop_kept cs [] Hcs) as (k & _ & Hr & _). simpl app in Hr.
  rewrite Hr in H. cbn [bind] in H. st_simpl.
  set (kept := filter keeps (firstn k cs)) in *.
  assert (Hkept : Forall latin_char kept).
  { apply Forall_forall. intros c Hin. apply filter_In in Hin.
    destruct Hin as [Hin _].
    pose proof (Forall_firstn _ latin_char k cs Hcs) as Hf.
    rewrite Forall_forall in Hf. auto. }
  assert (Hlen : len (concat kept) <= MAX_TOKEN_SIZE).
  { eapply latin_loop_len; [apply Nat.le_refl|exact Hr|].
    rewrite len_nil. unfold MAX_TOKEN_SIZE. lia. }
  destruct (1 <? len (concat kept)) eqn:E.
  - apply Z.ltb_lt in E.
    assert (Hne : kept <> []).
    { intros E0. assert (len (concat kept) = 0) by (rewrite E0; reflexivity). lia. }
    assert (Hy1 : Forall (tok_wf n)
              (yielded t ++ [makeToken (strings_ToLower (concat kept)) (currTokenPos t)])).
    { apply Forall_app. split; [exact Hy|]. constructor; [|constructor].
      apply wf_make; [apply ToLower_len; assumption|exact Hc]. }
    destruct (yield (yielded t) _); inversion H; subst.
    + apply incr_wf; [exact Hy1|exact Hp].
    + exact Hy1.
  - inversion H; subst. apply incr_wf; [exact Hy|exact Hp].
Qed.

Lemma cjk_chars_wf : forall yield n cs off t,
  Forall run_char cs ->
  0 <= currTokenPos t <= begin t + off ->
  begin t + off + len (concat cs) <= n ->
  Forall (tok_wf n) (yielded t) ->
  Forall (tok_wf n) (yielded (cjk_chars yield cs off t)).
Proof.
  intros yield n cs. induction cs as [|c cs IH]; intros off t Hcs Hc Hn Hy.
  - exact Hy.
  - pose proof (Forall_inv Hcs) as Hch. pose proof (Forall_inv_tail Hcs) as Hcs'.
    pose proof (run_char_len _ Hch) as Hl.
    simpl concat in Hn. rewrite len_app in Hn.
    pose proof (len_nonneg (concat cs)) as Hnn.
    cbn [cjk_chars]. unfold call_yield.
    set (tk := makeToken (concat (firstn 3 (c :: cs))) (currTokenPos t)).
    set (t1 := {| input := input t; begin := begin t;
                  currTokenPos := currTokenPos t; nextMarker := nextMarker t;
                  latinBuf := latinBuf t; Done := Done t;
                  yielded := yielded t ++ [tk] |}).
    assert (Hy1 : Forall (tok_wf n) (yielded t1)).
    { subst t1. st_simpl. apply Forall_app. split; [exact Hy|].
      constructor; [|constructor]. apply wf_make; [|lia].
      assert (Hw : Forall run_char (firstn 3 (c :: cs))) by (apply Forall_firstn, Hcs).
      pose proof (run_bytes_le _ Hw) as Hb.
      assert (Hl3 : (length (firstn 3 (c :: cs)) <= 3)%nat)
        by (rewrite length_firstn; lia).
      change (firstn 3 (c :: cs)) with (c :: firstn 2 cs) in *.
      remember (firstn 2 cs) as w2 eqn:Ew. clear Ew.
      change (concat (c :: w2)) with (c ++ concat w2) in *.
      rewrite len_app in *. pose proof (len_nonneg (concat w2)). lia. }
    destruct (yield (yielded t) tk); [|exact Hy1].
    assert (Hy2 : Forall (tok_wf n)
              (yielded (incrTokenCount yield 1 (begin t1 + off) t1))).
    { apply incr_wf; [exact Hy1|]. change (begin t1) with (begin t). lia. }
    destruct (Done (incrTokenCount yield 1 (begin t1 + off) t1)); [exact Hy2|].
    apply IH; [exact Hcs'| | |exact Hy2].
    + rewrite incr_currTokenPos, incr_begin.
      change (currTokenPos t1) with (currTokenPos t).
      change (begin t1) with (begin t). lia.
    + rewrite incr_begin. change (begin t1) with (begin t). lia.
Qed.

Lemma call_wf : forall yield h t pos r h' t',
  scan_inv h t pos ->
  Forall (tok_wf (len (input t))) (yielded t) ->
  call yield h t pos r = Ok (h', t') ->
  Forall (tok_wf (len (input t))) (yielded t').
Proof.
  intros yield h t pos r h' t' (((Hc0 & _) & _) & Hb & Hp & Hcur & Hrun) Hy H.
  assert (Hpos : 0 <= pos <= len (input t)) by lia.
  assert (Hcurr : 0 <= currTokenPos t <= len (input t)) by lia.
  destruct h; cbn [call] in H.
  - destruct (isBreakerRune r); [|destruct (isLatin r)]; inversion H; subst; exact Hy.
  - destruct (isBreakerRune r); [inversion H; subst; exact Hy|].
    destruct (begin t + 1 <? pos); cbn [bind] in H.
    + destruct (isLatin r); inversion H; subst; st_simpl; apply incr_wf; assumption.
    + destruct (index (input t) (begin t)) as [b| |]; try discriminate.
      cbn [bind] in H.
      destruct (negb (b =? 32)); destruct (isLatin r); inversion H; subst;
        st_simpl; try (apply incr_wf; assumption); exact Hy.
  - destruct Hrun as (_ & cs & Hcs & Hs).
    destruct (isBreakerRune r); [|destruct (isLatin r)].
    + destruct (outputLatin yield pos t) as [t1| |] eqn:E; try discriminate.
      inversion H; subst. st_simpl. eapply outputLatin_wf; eassumption.
    + inversion H; subst. exact Hy.
    + destruct (outputLatin yield pos t) as [t1| |] eqn:E; try discriminate.
      inversion H; subst. st_simpl. eapply outputLatin_wf; eassumption.
  - destruct Hrun as (_ & cs & Hcs & Hs).
    destruct (isBreakerRune r); [|inversion H; subst; exact Hy].
    rewrite (outputCJK_chars yield t pos cs Hcs Hs) in H. cbn [bind] in H.
    inversion H; subst. st_simpl.
    pose proof (slice_len _ _ _ _ Hs) as Hl.
    apply cjk_chars_wf; [exact Hcs|lia|lia|exact Hy].
Qed.

Lemma scan_wf : forall yield fuel pos h t e,
  scan_inv h t pos ->
  (length (skipn (Z.to_nat pos) (input t)) <= fuel)%nat ->
  Forall (tok_wf (len (input t))) (yielded t) ->
  scan yield (range_from fuel (skipn (Z.to_nat pos) (input t)) pos) h t = Ok e ->
  Forall (tok_wf (len (input t))) (yielded (exit_state e)) /\
  input (exit_state e) = input t /\
  match e with
  | Returned _ => True
  | Finished h' t' => scan_inv h' t' (len (input t'))
  end.
Proof.
  intros yield. induction fuel as [|fuel IH]; intros pos h t e Hinv Hf Hy H.
  - assert (Hpos : pos = len (input t)).
    { destruct Hinv as (_ & Hb & Hp & _). rewrite length_skipn in Hf.
      unfold len in *. lia. }
    simpl in H. inversion H; subst e. cbn [exit_state].
    subst pos. split; [exact Hy|split; [reflexivity|exact Hinv]].
  - destruct (skipn (Z.to_nat pos) (input t)) as [|x l] eqn:E.
    + assert (Hpos : pos = len (input t)).
      { destruct Hinv as (_ & Hb & Hp & _).
        apply (f_equal (@length Z)) in E. rewrite length_skipn in E.
        unfold len in *. simpl in E. lia. }
      simpl in H. inversion H; subst e. cbn [exit_state].
      subst pos. split; [exact Hy|split; [reflexivity|exact Hinv]].
    + cbn [range_from] in H. destruct (DecodeRune (x :: l)) as [r sz] eqn:D.
      cbn [scan] in H. destruct (Done t) eqn:Dn.
      { inversion H; subst e. cbn [exit_state]. auto. }
      assert (Hlt : pos < len (input t)).
      { destruct Hinv as (_ & Hb & Hp & _).
        apply (f_equal (@length Z)) in E. rewrite length_skipn in E.
        unfold len in *. simpl in E. lia. }
      rewrite <- E in D.
      destruct (call_inv yield h t pos r sz Hinv Hlt D) as (h' & t' & C & I & In).
      pose proof (call_wf yield h t pos r h' t' Hinv Hy C) as Hy'.
      rewrite C in H. cbn [bind fst snd] in H.
      assert (Hsz : 1 <= sz).
      { assert (Hne : skipn (Z.to_nat pos) (input t) <> [])
          by (rewrite E; discriminate).
        pose proof (DecodeRune_size _ Hne) as Hs. rewrite D in Hs. simpl in Hs. lia. }
      assert (Hpos : 0 <= pos) by (destruct Hinv as (_ & Hb & _); lia).
      rewrite <- E, skipn_skipn in H.
      replace (Z.to_nat sz + Z.to_nat pos)%nat with (Z.to_nat (pos + sz)) in H by lia.
      rewrite <- In in H, Hy' |- *.
      destruct (IH (pos + sz) h' t' e I) as (A & B & M); [|exact Hy'|exact H|].
      { rewrite In, length_skipn.
        apply (f_equal (@length Z)) in E. rewrite length_skipn in E.
        simpl in Hf, E. lia. }
      auto.
Qed.

(** X10. Every token [Tokenize] hands to the consumer, for every input
    and every consumer, is a 24-byte array whose recorded payload length
    is at least 1 (no empty token) and whose position lies between 0 and
    the length of the input. *)
Theorem tokens_well_formed :
  forall (yield : list Token -> Token -> bool) (inp : list Z),
  exists t',
    Tokenize yield (NewSimpleTokenizer inp) = Ok t' /\
    Forall (tok_wf (len inp)) (yielded t').
Proof.
  intros yield inp.
  destruct (Tokenize_ok yield inp) as (t' & E & _).
  exists t'. split; [exact E|].
  unfold Tokenize in E. cbn [input NewSimpleTokenizer] in E.
  destruct (len inp =? 0); [inversion E; subst; constructor|].
  assert (Hinv : scan_inv beginToken (NewSimpleTokenizer inp) 0).
  { split; [split; [apply marker_inv_init|constructor]|].
    simpl. pose proof (len_nonneg inp). repeat split; lia. }
  destruct (scan yield (range_string inp) beginToken (NewSimpleTokenizer inp))
    as [e| |] eqn:S; try discriminate.
  cbn [bind] in E.
  destruct (scan_wf yield (length inp) 0 beginToken (NewSimpleTokenizer inp) e Hinv)
    as (A & B & M); [simpl; lia|constructor|exact S|].
  cbn [input NewSimpleTokenizer] in A, B.
  destruct e as [t1|h1 t1]; cbn [exit_state] in *.
  - inversion E; subst. exact A.
  - destruct (call yield h1 t1 (len (input t1)) 32) as [[h2 t2]| |] eqn:C;
      try discriminate.
    cbn [bind snd] in E. inversion E; subst.
    eapply call_wf; [exact M|exact A|exact C].
Qed.

(** * Markers and run breaking in a run of [Tokenize] *)

(** ** Markers record byte offsets *)

Lemma accepting_not_done : forall yield t,
  (forall seen tk, yield seen tk = true) -> cancel_ok yield t ->
  Done t = false.
Proof.
  intros yield t Hy Hc. unfold cancel_ok in Hc.
  destruct (Done t); [|reflexivity].
  destruct Hc as (l & tk & _ & _ & F). rewrite Hy in F. discriminate.
Qed.

(** The state in which the loop of [Tokenize] starts an iteration
    satisfies the invariant at the byte offset of the rune it is about
    to read (the length of the input when none is left). *)
Lemma scan_prefix_inv : forall yield fuel k pos h t h' t',
  scan_inv h t pos ->
  (length (skipn (Z.to_nat pos) (input t)) <= fuel)%nat ->
  scan yield (firstn k (range_from fuel (skipn (Z.to_nat pos) (input t)) pos))
       h t = Ok (Finished h' t') ->
  exists pos',
    scan_inv h' t' pos' /\ input t' = input t /\
    match nth_error (range_from fuel (skipn (Z.to_nat pos) (input t)) pos) k with
    | Some (p, _) => p = pos'
    | None => pos' = len (input t)
    end.
Proof.
  intros yield. induction fuel as [|fuel IH]; intros k pos h t h' t' Hinv Hf H.
  - assert (Hpos : pos = len (input t)).
    { destruct Hinv as (_ & Hb & Hp & _). rewrite length_skipn in Hf.
      unfold len in *. lia. }
    cbn [range_from] in *. rewrite firstn_nil in H. cbn [scan] in H.
    inversion H; subst h' t'. exists pos.
    split; [exact Hinv|]. split; [reflexivity|].
    destruct k; exact Hpos.
  - destruct (skipn (Z.to_nat pos) (input t)) as [|x l] eqn:E.
    + assert (Hpos : pos = len (input t)).
      { destruct Hinv as (_ & Hb & Hp & _).
        apply (f_equal (@length Z)) in E. rewrite length_skipn in E.
        unfold len in *. simpl in E. lia. }
      cbn [range_from] in *. rewrite firstn_nil in H. cbn [scan] in H.
      inversion H; subst h' t'. exists pos.
      split; [exact Hinv|]. split; [reflexivity|].
      destruct k; exact Hpos.
    + cbn [range_from] in *. destruct (DecodeRune (x :: l)) as [r sz] eqn:D.
      destruct k as [|k].
      { cbn [firstn scan] in H. inversion H; subst h' t'. exists pos.
        split; [exact Hinv|]. split; reflexivity. }
      cbn [firstn scan] in H. cbn [nth_error].
      destruct (Done t) eqn:Dn; [discriminate|].
      assert (Hlt : pos < len (input t)).
      { destruct Hinv as (_ & Hb & Hp & _).
        apply (f_equal (@length Z)) in E. rewrite length_skipn in E.
        unfold len in *. simpl in E. lia. }
      rewrite <- E in D.
      destruct (call_inv yield h t pos r sz Hinv Hlt D) as (h1 & t1 & C & I & In).
      rewrite C in H. cbn [bind fst snd] in H.
      assert (Hsz : 1 <= sz).
      { assert (Hne : skipn (Z.to_nat pos) (input t) <> [])
          by (rewrite E; discriminate).
        pose proof (DecodeRune_size _ Hne) as Hs. rewrite D in Hs.
        simpl in Hs. lia. }
      assert (Hpos : 0 <= pos) by (destruct Hinv as (_ & Hb & _); lia).
      assert (Er : skipn (Z.to_nat sz) (x :: l)
                   = skipn (Z.to_nat (pos + sz)) (input t1)).
      { rewrite <- E, skipn_skipn, In. f_equal. lia. }
      rewrite Er in H |- *.
      destruct (IH k (pos + sz) h1 t1 h' t' I) as (pos' & A & B & M);
        [|exact H|].
      { rewrite In, length_skipn.
        apply (f_equal (@length Z)) in E. rewrite length_skipn in E.
        simpl in Hf, E. lia. }
      exists pos'. split; [exact A|]. split; [congruence|].
      rewrite In in M |- *. exact M.
Qed.

Lemma marker_payload : forall m off,
  0 <= m < 10 ^ 15 ->
  payload (marker_token m off) = bytes_of "_MARKER_" ++ Itoa m /\
  TokenPos (marker_token m off) = off.
Proof.
  intros m off Hm. split; [|reflexivity].
  apply payload_makeToken. rewrite len_app.
  pose proof (Itoa_length m Hm) as Hl.
  change (len (bytes_of "_MARKER_")) with 8. unfold MAX_TOKEN_SIZE. lia.
Qed.

(** What one call of a handler hands to a consumer that takes
    everything, in a state the scan can be in. *)
Lemma call_emits : forall yield h t pos r,
  (forall seen tk, yield seen tk = true) ->
  scan_inv h t pos -> Done t = false ->
  let c := currTokenPos t in
  exists h' t' run new,
    slice (input t) (begin t) pos = Ok run /\
    call yield h t pos r = Ok (h', t') /\
    yielded t' = yielded t ++ new /\
    marker_inv t' /\
    currTokenPos t' <= pos /\
    match h with
    | beginToken => new = [] /\ currTokenPos t' = c
    | breakerToken =>
      (isBreakerRune r = true \/ run = [32] ->
         new = [] /\ currTokenPos t' = c) /\
      (isBreakerRune r = false -> run <> [32] ->
         new = marker_due c pos /\ currTokenPos t' = c + 1)
    | latinToken =>
      (classify r = LatinClass -> new = [] /\ currTokenPos t' = c) /\
      (classify r <> LatinClass ->
         exists buf,
           latin_loop run [] = Ok buf /\
           new = (if 1 <? len buf
                  then [makeToken (strings_ToLower buf) c] else [])
                 ++ marker_due c pos /\
           currTokenPos t' = c + 1)
    | cjkToken =>
      (isBreakerRune r = false -> new = [] /\ currTokenPos t' = c) /\
      (isBreakerRune r = true ->
         exists cs,
           Forall run_char cs /\ run = concat cs /\
           new = ngram_tokens cs (begin t) c /\
           currTokenPos t' = c + Z.of_nat (length cs))
    end.
Proof.
  intros yield h t pos r Hy (Hout & Hb & Hp & Hcur & Hrun) Hd c. subst c.
  destruct Hout as [Hm Hfree].
  destruct h.
  - (* beginToken *)
    exists (if isBreakerRune r then breakerToken
            else if isLatin r then latinToken else cjkToken),
           (set_begin pos t),
           (firstn (Z.to_nat (pos - begin t)) (skipn (Z.to_nat (begin t)) (input t))),
           [].
    split; [apply slice_ok; lia|].
    split; [cbn [call]; destruct (isBreakerRune r); [|destruct (isLatin r)];
            reflexivity|].
    st_simpl. rewrite app_nil_r.
    split; [reflexivity|]. split; [exact Hm|]. split; [lia|]. auto.
  - (* breakerToken *)
    pose proof (slice_ok (input t) (begin t) pos ltac:(lia) ltac:(lia) Hp) as Hs.
    remember (firstn (Z.to_nat (pos - begin t))
                (skipn (Z.to_nat (begin t)) (input t))) as run eqn:Er.
    clear Er. pose proof (slice_len _ _ _ _ Hs) as Hl.
    assert (Hbr : {isBreakerRune r = true} + {isBreakerRune r = false})
      by (destruct (isBreakerRune r); auto).
    destruct Hbr as [Br|Br].
    + exists breakerToken, t, run, [].
      split; [exact Hs|]. split; [cbn [call]; rewrite Br; reflexivity|].
      rewrite app_nil_r. split; [reflexivity|]. split; [exact Hm|].
      split; [lia|]. split; [auto|]. intros; congruence.
    + destruct run as [|b w]; [rewrite len_nil in Hl; lia|].
      pose proof (index_of_slice _ _ _ _ _ Hs) as Hi.
      destruct (incr_accepted yield pos t Hy Hm) as (Y & C & M & _).
      fold (marker_due (currTokenPos t) pos) in Y.
      assert (Hadv : forall t1,
                t1 = incrTokenCount yield 1 pos t -> b :: w <> [32] ->
                call yield breakerToken t pos r
                = Ok (if isLatin r then latinToken else cjkToken,
                      set_begin pos t1) ->
                exists h' t' run new,
                  slice (input t) (begin t) pos = Ok run /\
                  call yield breakerToken t pos r = Ok (h', t') /\
                  yielded t' = yielded t ++ new /\ marker_inv t' /\
                  currTokenPos t' <= pos /\
                  (isBreakerRune r = true \/ run = [32] ->
                     new = [] /\ currTokenPos t' = currTokenPos t) /\
                  (isBreakerRune r = false -> run <> [32] ->
                     new = marker_due (currTokenPos t) pos /\
                     currTokenPos t' = currTokenPos t + 1)).
      { intros t1 -> Hne Hc.
        exists (if isLatin r then latinToken else cjkToken),
               (set_begin pos (incrTokenCount yield 1 pos t)),
               (b :: w), (marker_due (currTokenPos t) pos).
        split; [exact Hs|]. split; [exact Hc|]. st_simpl.
        split; [exact Y|]. split; [exact M|]. split; [lia|].
        split; [intros [F|F]; [congruence|contradiction]|].
        intros _ _. split; [reflexivity|exact C]. }
      destruct (begin t + 1 <? pos) eqn:E.
      * apply (Hadv _ eq_refl).
        { apply Z.ltb_lt in E. intros F. inversion F; subst.
          rewrite len_cons, len_nil in Hl. lia. }
        cbn [call]. rewrite Br, E. cbn [bind].
        destruct (isLatin r); reflexivity.
      * assert (Hw : w = []).
        { apply Z.ltb_ge in E. apply len_zero_nil.
          rewrite len_cons in Hl. lia. }
        subst w.
        destruct (b =? 32) eqn:Eb.
        -- exists (if isLatin r then latinToken else cjkToken),
                  (set_begin pos t), [b], [].
           split; [exact Hs|].
           split; [cbn [call]; rewrite Br, E, Hi; cbn [bind]; rewrite Eb;
                   cbn [negb]; destruct (isLatin r); reflexivity|].
           st_simpl. rewrite app_nil_r. split; [reflexivity|].
           split; [exact Hm|]. split; [lia|]. split; [auto|].
           apply Z.eqb_eq in Eb. subst b. intros _ F. contradiction.
        -- apply (Hadv _ eq_refl).
           { apply Z.eqb_neq in Eb. intros F. inversion F. contradiction. }
           cbn [call]. rewrite Br, E, Hi. cbn [bind]. rewrite Eb.
           cbn [negb]. destruct (isLatin r); reflexivity.
  - (* latinToken *)
    destruct Hrun as (Hne & cs & Hcs & Hs).
    destruct (latin_loop_chars cs [] Hcs) as (kept & Hk & _). simpl app in Hk.
    assert (Hclose : forall h1,
              call yield latinToken t pos r
              = (t1 <- outputLatin yield pos t ;; Ok (h1, set_begin pos t1)) ->
              exists t',
                call yield latinToken t pos r = Ok (h1, t') /\
                yielded t' = yielded t ++
                  (if 1 <? len (concat kept)
                   then [makeToken (strings_ToLower (concat kept)) (currTokenPos t)]
                   else []) ++ marker_due (currTokenPos t) pos /\
                marker_inv t' /\ currTokenPos t' = currTokenPos t + 1).
    { intros h1 Hc. rewrite Hc. unfold outputLatin. rewrite Hs. cbn [bind].
      rewrite Hk. cbn [bind].
      destruct (1 <? len (concat kept)).
      - unfold call_yield. st_simpl. rewrite Hy.
        set (tk := makeToken (strings_ToLower (concat kept)) (currTokenPos t)).
        set (t1 := {| input := input t; begin := begin t;
                      currTokenPos := currTokenPos t;
                      nextMarker := nextMarker t;
                      latinBuf := concat kept; Done := Done t;
                      yielded := yielded t ++ [tk] |}).
        assert (Hm1 : marker_inv t1) by exact Hm.
        destruct (incr_accepted yield pos t1 Hy Hm1) as (Y & C & M & _).
        fold (marker_due (currTokenPos t1) pos) in Y.
        cbn [bind]. eexists. split; [reflexivity|]. st_simpl.
        split; [rewrite Y; subst t1; st_simpl; rewrite <- app_assoc; reflexivity|].
        split; [exact M|exact C].
      - set (t1 := set_latinBuf (concat kept) t).
        assert (Hm1 : marker_inv t1) by exact Hm.
        destruct (incr_accepted yield pos t1 Hy Hm1) as (Y & C & M & _).
        fold (marker_due (currTokenPos t1) pos) in Y.
        cbn [bind]. eexists. split; [reflexivity|]. st_simpl.
        split; [exact Y|]. split; [exact M|exact C]. }
    destruct (isBreakerRune r) eqn:Br; [|destruct (isLatin r) eqn:Lr].
    + destruct (Hclose breakerToken) as (t' & C & Y & M & P).
      { cbn [call]. rewrite Br. reflexivity. }
      eexists breakerToken, t', (concat cs), _.
      split; [exact Hs|]. split; [exact C|]. split; [exact Y|].
      split; [exact M|]. split; [lia|].
      split; [unfold classify; rewrite Br; discriminate|].
      intros _. exists (concat kept). auto.
    + exists latinToken, t, (concat cs), [].
      split; [exact Hs|].
      split; [cbn [call]; rewrite Br, Lr; reflexivity|].
      rewrite app_nil_r. split; [reflexivity|]. split; [exact Hm|].
      split; [lia|]. split; [auto|].
      unfold classify. rewrite Br, Lr. intros F. contradiction.
    + destruct (Hclose cjkToken) as (t' & C & Y & M & P).
      { cbn [call]. rewrite Br, Lr. reflexivity. }
      eexists cjkToken, t', (concat cs), _.
      split; [exact Hs|]. split; [exact C|]. split; [exact Y|].
      split; [exact M|]. split; [lia|].
      split; [unfold classify; rewrite Br, Lr; discriminate|].
      intros _. exists (concat kept). auto.
  - (* cjkToken *)
    destruct Hrun as (Hne & cs & Hcs & Hs).
    destruct (isBreakerRune r) eqn:Br.
    + destruct (cjk_chars_accepted yield cs 0 t Hy Hm Hd)
        as (Y & C & M & _).
      rewrite Z.add_0_r in Y.
      exists breakerToken, (set_begin pos (cjk_chars yield cs 0 t)),
             (concat cs), (ngram_tokens cs (begin t) (currTokenPos t)).
      split; [exact Hs|].
      split; [cbn [call]; rewrite Br, (outputCJK_chars yield t pos cs Hcs Hs);
              reflexivity|].
      st_simpl. split; [exact Y|]. split; [exact M|].
      pose proof (run_length_le cs Hcs) as Hl.
      pose proof (slice_len _ _ _ _ Hs) as Hl'. unfold len in Hl'.
      split; [lia|]. split; [intros; discriminate|].
      intros _. exists cs. auto.
    + exists cjkToken, t, (concat cs), [].
      split; [exact Hs|]. split; [cbn [call]; rewrite Br; reflexivity|].
      rewrite app_nil_r. split; [reflexivity|]. split; [exact Hm|].
      split; [lia|]. split; [auto|]. intros; discriminate.
Qed.

(** C3. Take any non-empty input shorter than 10^15 bytes, a consumer
    that takes everything, and any call [h(t, pos, rune, yield)] that
    [Tokenize] makes: the one for the [k]-th rune of the input, [pos]
    being the byte offset of that rune, or the final one with the
    synthetic space, [pos] being the length of the input.  Every advance
    of the logical position made by that call is by one slot, and the
    call hands the consumer a marker token exactly for the advances that
    reach a multiple of 100, right where the advance happens in the
    output: after the token of a Latin run, after the n-gram of the
    window concerned in a CJK run.  The marker has payload ["_MARKER_"]
    followed by the decimal multiple reached, and its position is a byte
    offset of the input, not the logical position: the offset [pos] of
    the rune that ends a breaker run or a Latin run, and for the [i]-th
    window of a CJK run the offset of the first character of the window
    ([ngram_tokens] places it at [begin + offs cs i]).  Before and after
    the call the next threshold is the first multiple of 100 above the
    logical position, so it moves up by 100 with each marker and no
    threshold is used twice. *)
Theorem marker_on_crossing :
  forall (yield : list Token -> Token -> bool) (inp : list Z) (k : nat)
         (h : handler) (t : SimpleTokenizer) (pos r : Z),
  (forall seen tk, yield seen tk = true) ->
  inp <> [] ->
  len inp < 10 ^ 15 ->
  scan yield (firstn k (range_string inp)) beginToken (NewSimpleTokenizer inp)
    = Ok (Finished h t) ->
  nth_error (range_string inp ++ [(len inp, 32)]) k = Some (pos, r) ->
  let c := currTokenPos t in
  exists h' t' run new,
    slice inp (begin t) pos = Ok run /\
    call yield h t pos r = Ok (h', t') /\
    yielded t' = yielded t ++ new /\
    marker_inv t /\ marker_inv t' /\
    currTokenPos t' <= pos <= len inp /\
    (forall m off, 0 <= m <= len inp ->
       payload (marker_token m off) = bytes_of "_MARKER_" ++ Itoa m /\
       TokenPos (marker_token m off) = off) /\
    match h with
    | beginToken => new = [] /\ currTokenPos t' = c
    | breakerToken =>
      (isBreakerRune r = true \/ run = [32] ->
         new = [] /\ currTokenPos t' = c) /\
      (isBreakerRune r = false -> run <> [32] ->
         new = marker_due c pos /\ currTokenPos t' = c + 1)
    | latinToken =>
      (classify r = LatinClass -> new = [] /\ currTokenPos t' = c) /\
      (classify r <> LatinClass ->
         exists buf,
           latin_loop run [] = Ok buf /\
           new = (if 1 <? len buf
                  then [makeToken (strings_ToLower buf) c] else [])
                 ++ marker_due c pos /\
           currTokenPos t' = c + 1)
    | cjkToken =>
      (isBreakerRune r = false -> new = [] /\ currTokenPos t' = c) /\
      (isBreakerRune r = true ->
         exists cs,
           Forall run_char cs /\ run = concat cs /\
           new = ngram_tokens cs (begin t) c /\
           currTokenPos t' = c + Z.of_nat (length cs))
    end.
Proof.
  intros yield inp k h t pos r Hy Hne Hlen Hscan Hk c.
  set (t0 := NewSimpleTokenizer inp) in *.
  assert (Hinv0 : scan_inv beginToken t0 0).
  { split; [split; [apply marker_inv_init|constructor]|].
    simpl. pose proof (len_nonneg inp). repeat split; lia. }
  assert (Hd : Done t = false).
  { apply (accepting_not_done yield t Hy).
    exact (scan_cancel yield _ beginToken t0 (Finished h t)
             (cancel_ok_clean yield t0 eq_refl (accepted_nil yield)) Hscan). }
  destruct (scan_prefix_inv yield (length inp) k 0 beginToken t0 h t Hinv0)
    as (pos' & Hinv & Hin & Hnth); [simpl; lia|exact Hscan|].
  change (input t0) with inp in Hin, Hnth.
  change (range_from (length inp) (skipn (Z.to_nat 0) inp) 0)
    with (range_string inp) in Hnth.
  assert (Hpos : pos' = pos).
  { destruct (nth_error (range_string inp) k) as [[p r0]|] eqn:N.
    - assert (Hlt : (k < length (range_string inp))%nat)
        by (apply nth_error_Some; rewrite N; discriminate).
      rewrite nth_error_app1 in Hk by exact Hlt.
      rewrite N in Hk. inversion Hk; subst. reflexivity.
    - apply nth_error_None in N. rewrite nth_error_app2 in Hk by exact N.
      destruct (k - length (range_string inp))%nat as [|j]; simpl in Hk.
      + inversion Hk; subst. reflexivity.
      + destruct j; discriminate. }
  subst pos'.
  destruct (call_emits yield h t pos r Hy Hinv Hd)
    as (h' & t' & run & new & Hs & C & Y & M & P & Hcase).
  rewrite Hin in Hs.
  assert (Hp : pos <= len inp).
  { destruct Hinv as (_ & _ & Hp & _). rewrite Hin in Hp. exact Hp. }
  exists h', t', run, new.
  split; [exact Hs|]. split; [exact C|]. split; [exact Y|].
  split; [apply Hinv|]. split; [exact M|]. split; [lia|].
  split; [intros m off Hm; apply marker_payload; lia|].
  exact Hcase.
Qed.

(** ** A Latin run followed by a CJK run *)

Lemma scan_app : forall yield rs1 rs2 h t h1 t1,
  scan yield rs1 h t = Ok (Finished h1 t1) ->
  scan yield (rs1 ++ rs2) h t = scan yield rs2 h1 t1.
Proof.
  intros yield rs1 rs2. induction rs1 as [|[pos r] rs1 IH]; intros h t h1 t1 H.
  - cbn [scan] in H. inversion H; subst. reflexivity.
  - cbn [app scan] in *. destruct (Done t); [discriminate H|].
    destruct (call yield h t pos r) as [[h' t']| |];
      [|discriminate H|discriminate H].
    cbn [bind fst snd] in *. apply IH. exact H.
Qed.

(** The runes the [range] loop reads along a run of characters that is
    followed by more input. *)
Lemma range_from_run_app : forall cs rest fuel pos,
  Forall run_char cs ->
  (length (concat cs ++ rest) <= fuel)%nat ->
  exists rs,
    range_from fuel (concat cs ++ rest) pos
    = rs ++ range_from fuel rest (pos + len (concat cs)) /\
    map snd rs = map (fun c => fst (DecodeRune c)) cs.
Proof.
  induction cs as [|c cs IH]; intros rest fuel pos Hcs Hf.
  - exists []. simpl. rewrite len_nil, Z.add_0_r. auto.
  - pose proof (Forall_inv Hcs) as Hc. pose proof (Forall_inv_tail Hcs) as Hcs'.
    pose proof (run_char_len _ Hc) as Hl.
    simpl concat in *. rewrite <- app_assoc in *.
    rewrite length_app in Hf.
    destruct fuel as [|fuel]; [unfold len in Hl; lia|].
    rewrite range_from_head_char by exact Hc.
    destruct (IH rest fuel (pos + len c) Hcs') as (rs & E & M);
      [unfold len in Hl; lia|].
    exists ((pos, fst (DecodeRune c)) :: rs). split.
    + rewrite E. cbn [app]. f_equal. f_equal.
      rewrite len_app, Z.add_assoc.
      unfold len in Hl. rewrite length_app in Hf.
      apply range_from_stable; lia.
    + cbn [map snd]. f_equal. exact M.
Qed.

Lemma slice_prefix : forall a b, slice (a ++ b) 0 (len a) = Ok a.
Proof.
  intros a b. pose proof (slice_app3 [] a b) as H.
  rewrite len_nil, Z.add_0_l in H. exact H.
Qed.

Lemma slice_suffix : forall a b,
  slice (a ++ b) (len a) (len (a ++ b)) = Ok b.
Proof.
  intros a b. pose proof (slice_app3 a b []) as H.
  rewrite app_nil_r in H. rewrite len_app. exact H.
Qed.

(** C6. A Latin run followed by a CJK run, with a consumer that takes
    everything.  The input is the characters [ls] of a Latin run (one or
    two bytes each), then a CJK-class character [c], then any characters
    [cs] that are not breakers, Latin-class ones (ASCII letters and
    digits among them) included.  The CJK-class character closes the
    Latin run: the Latin token, built from [ls] alone, is handed over at
    position 0 (when the buffer of the run is longer than one byte), and
    the n-grams start at [c], at position 1.  The Latin-class characters
    after [c] close nothing: the loop ends in the CJK state with the run
    that began at [c] still open, and the output goes on with the
    windows of the one run [c :: cs], one per character, and no further
    Latin token; the first window holds [c] together with the character
    that follows it, whatever its class, stored whole. *)
Theorem run_breaking_asymmetry :
  forall (yield : list Token -> Token -> bool)
         (ls : list (list Z)) (c : list Z) (cs : list (list Z)),
  (forall seen tk, yield seen tk = true) ->
  ls <> [] ->
  Forall latin_char ls ->
  Forall run_char (c :: cs) ->
  classify (fst (DecodeRune c)) = CJKClass ->
  exists buf t',
    latin_loop (concat ls) [] = Ok buf /\
    Tokenize yield (NewSimpleTokenizer (concat ls ++ concat (c :: cs)))
      = Ok t' /\
    yielded t'
    = (if 1 <? len buf then [makeToken (strings_ToLower buf) 0] else [])
      ++ ngram_tokens (c :: cs) (len (concat ls)) 1 /\
    currTokenPos t' = 1 + Z.of_nat (length (c :: cs)) /\
    (exists t2,
       scan yield (range_string (concat ls ++ concat (c :: cs))) beginToken
            (NewSimpleTokenizer (concat ls ++ concat (c :: cs)))
         = Ok (Finished cjkToken t2) /\
       begin t2 = len (concat ls)) /\
    forall a rest, cs = a :: rest ->
      In (makeToken (c ++ a ++ concat (firstn 1 rest)) 1) (yielded t') /\
      payload (makeToken (c ++ a ++ concat (firstn 1 rest)) 1)
      = c ++ a ++ concat (firstn 1 rest).
Proof.
  intros yield ls c cs Hy Hne Hls Hrun Hcls.
  assert (Hlr : Forall run_char ls).
  { eapply Forall_impl; [|exact Hls]. apply latin_char_run. }
  pose proof (Forall_inv Hrun) as Hc. pose proof (Forall_inv_tail Hrun) as Hcs.
  assert (Hbc : isBreakerRune (fst (DecodeRune c)) = false /\
                isLatin (fst (DecodeRune c)) = false).
  { unfold classify in Hcls.
    destruct (isBreakerRune (fst (DecodeRune c))); [discriminate Hcls|].
    destruct (isLatin (fst (DecodeRune c))); [discriminate Hcls|]. auto. }
  destruct Hbc as [Bc Lc].
  destruct (latin_loop_chars ls [] Hls) as (kept & Hk & _). simpl app in Hk.
  set (L := len (concat ls)).
  set (inp := concat ls ++ concat (c :: cs)).
  set (t0 := NewSimpleTokenizer inp).
  set (new1 := if 1 <? len (concat kept)
               then [makeToken (strings_ToLower (concat kept)) 0] else []).
  pose proof (run_char_len _ Hc) as Hlc.
  (* closing the Latin run at [c] *)
  assert (HoL : exists t1,
             outputLatin yield L (set_begin 0 t0) = Ok t1 /\
             yielded t1 = new1 /\ currTokenPos t1 = 1 /\ Done t1 = false /\
             marker_inv t1 /\ input t1 = inp).
  { unfold outputLatin. cbn [input begin set_begin t0 NewSimpleTokenizer].
    unfold inp, L. rewrite slice_prefix. cbn [bind]. rewrite Hk. cbn [bind].
    fold inp. subst new1.
    destruct (1 <? len (concat kept)).
    - unfold call_yield. st_simpl. rewrite Hy.
      cbn [NewSimpleTokenizer input begin currTokenPos nextMarker Done yielded].
      eexists. split; [reflexivity|].
      unfold incrTokenCount. st_simpl.
      change (100 <=? 0 + 1) with false. cbv iota.
      cbn [yielded currTokenPos Done input set_currTokenPos]. 
      split; [reflexivity|]. split; [reflexivity|]. split; [reflexivity|].
      split; [|reflexivity]. split; [cbn; lia|reflexivity].
    - eexists. split; [reflexivity|].
      unfold incrTokenCount. st_simpl.
      cbn [NewSimpleTokenizer input begin currTokenPos nextMarker Done yielded].
      change (100 <=? 0 + 1) with false. cbv iota.
      cbn [yielded currTokenPos Done input set_currTokenPos].
      split; [reflexivity|]. split; [reflexivity|]. split; [reflexivity|].
      split; [|reflexivity]. split; [cbn; lia|reflexivity]. }
  destruct HoL as (t1 & HoL & Y1 & C1 & D1 & M1 & I1).
  (* the loop *)
  assert (Hscan : scan yield (range_string inp) beginToken t0
                  = Ok (Finished cjkToken (set_begin L t1))).
  { destruct ls as [|l0 ls']; [congruence|].
    pose proof (Forall_inv Hls) as (r0 & Br0 & Lr0 & Dr0).
    pose proof (Forall_inv Hlr) as Hl0.
    pose proof (Forall_inv_tail Hlr) as Hlr'.
    pose proof (Forall_inv_tail Hls) as Hls'.
    pose proof (run_char_len _ Hl0) as Hll0.
    unfold range_string, inp. simpl concat. rewrite <- !app_assoc.
    rewrite length_app.
    destruct (length l0) as [|n0] eqn:En0; [unfold len in Hll0; lia|].
    cbn [Nat.add]. rewrite range_from_head_char by exact Hl0.
    rewrite Dr0. cbn [fst].
    cbn [scan call]. change (Done t0) with false. cbv iota.
    rewrite Br0, Lr0. cbn [bind fst snd].
    destruct (range_from_run_app ls' (c ++ concat cs)
                (n0 + length (concat ls' ++ c ++ concat cs)) (0 + len l0) Hlr')
      as (rs1 & E1 & Ms1); [lia|].
    rewrite E1.
    rewrite (scan_app yield rs1 _ latinToken (set_begin 0 t0)
               latinToken (set_begin 0 t0)).
    2:{ apply scan_latin_stay; [|reflexivity].
        apply Forall_map with (f := snd)
          (P := fun r => isBreakerRune r = false /\ isLatin r = true).
        rewrite Ms1. apply Forall_map.
        eapply Forall_impl; [|exact Hls'].
        intros x (r & Hb & Hl & Hd). rewrite Hd. auto. }
    rewrite (range_from_stable _ (S (length (c ++ concat cs))) (c ++ concat cs))
      by (rewrite !length_app; lia).
    rewrite range_from_head_char by exact Hc.
    cbn [scan call]. change (Done (set_begin 0 t0)) with false. cbv iota.
    rewrite Bc, Lc.
    replace (0 + len l0 + len (concat ls')) with L
      by (unfold L; simpl concat; rewrite len_app; lia).
    rewrite HoL. cbn [bind fst snd].
    apply scan_cjk_stay; [|exact D1].
    apply Forall_map with (f := snd) (P := fun r => isBreakerRune r = false).
    rewrite range_from_chars;
      [|exact Hcs|rewrite length_app; pose proof (run_length_le cs Hcs); lia].
    apply Forall_map. eapply Forall_impl; [|exact Hcs].
    intros x (r & Hr & Hd). rewrite Hd. exact Hr. }
  (* the flush *)
  assert (Hs : slice (input (set_begin L t1)) (begin (set_begin L t1)) (len inp)
               = Ok (concat (c :: cs))).
  { st_simpl. rewrite I1. unfold inp, L. apply slice_suffix. }
  destruct (cjk_chars_accepted yield (c :: cs) 0 (set_begin L t1) Hy M1 D1)
    as (Y & C & _).
  st_simpl. rewrite Z.add_0_r, Y1, C1 in Y. rewrite C1 in C.
  exists (concat kept), (set_begin (len inp) (cjk_chars yield (c :: cs) 0 (set_begin L t1))).
  split; [exact Hk|]. split.
  { unfold Tokenize. fold inp. fold t0. change (input t0) with inp.
    replace (len inp =? 0) with false.
    2:{ symmetry. apply Z.eqb_neq. unfold inp. simpl concat.
        rewrite !len_app. pose proof (len_nonneg (concat ls)).
        pose proof (len_nonneg (concat cs)). lia. }
    rewrite Hscan. cbn [bind call]. change (isBreakerRune 32) with true.
    cbv iota. change (input (set_begin L t1)) with (input t1). rewrite I1.
    rewrite (outputCJK_chars yield (set_begin L t1) (len inp) (c :: cs) Hrun Hs).
    reflexivity. }
  st_simpl. split; [exact Y|]. split; [exact C|].
  split; [exists (set_begin L t1); split; [exact Hscan|reflexivity]|].
  intros a rest ->. split.
  - rewrite Y. apply in_or_app. right. rewrite ngram_tokens_cons.
    apply in_or_app. left. left. reflexivity.
  - apply payload_makeToken.
    pose proof (Forall_inv Hcs) as Ha. pose proof (Forall_inv_tail Hcs) as Hrest.
    pose proof (run_char_len _ Ha) as Hla.
    pose proof (run_bytes_le _ (Forall_firstn _ _ 1 rest Hrest)) as Hb.
    assert (length (firstn 1 rest) <= 1)%nat by (rewrite length_firstn; lia).
    rewrite !len_app. pose proof (len_nonneg (concat (firstn 1 rest))).
    unfold MAX_TOKEN_SIZE. lia.
Qed.

(** ** Instances *)

(** The hundredth word of a text of three-byte words: the marker of
    threshold 100 records byte offset 299, by [marker_on_crossing]. *)
Lemma marker_on_crossing_witness :
  let inp := concat (repeat (bytes_of "ab ") 100) in
  exists t t',
    scan take_all (firstn 299 (range_string inp)) beginToken
         (NewSimpleTokenizer inp) = Ok (Finished latinToken t) /\
    currTokenPos t = 99 /\
    call take_all latinToken t 299 32 = Ok (breakerToken, t') /\
    yielded t'
    = yielded t ++ [makeToken (bytes_of "ab") 99; marker_token 100 299] /\
    payload (marker_token 100 299) = bytes_of "_MARKER_100" /\
    TokenPos (marker_token 100 299) = 299 /\
    nextMarker t' = 200.
Proof.
  cbv zeta.
  set (inp := concat (repeat (bytes_of "ab ") 100)).
  assert (S : exists t,
             scan take_all (firstn 299 (range_string inp)) beginToken
                  (NewSimpleTokenizer inp) = Ok (Finished latinToken t) /\
             currTokenPos t = 99 /\ begin t = 297).
  { eexists. split; [vm_compute; reflexivity|]. split; reflexivity. }
  destruct S as (t & S & Hc & Hb).
  destruct (marker_on_crossing take_all inp 299 latinToken t 299 32)
    as (h' & t' & run & new & Hs & C & Y & _ & M' & _ & Pay & _ & Hcase).
  - intros seen tk. reflexivity.
  - intros F. discriminate F.
  - vm_compute. reflexivity.
  - exact S.
  - vm_compute. reflexivity.
  - assert (Hn : classify 32 <> LatinClass)
      by (vm_compute; intros F; discriminate F).
    destruct (Hcase Hn) as (buf & L & N & P). clear Hcase Hn.
    rewrite Hb in Hs. vm_compute in Hs.
    assert (Hrun : run = [97; 98]) by (inversion Hs; reflexivity).
    subst run. clear Hs.
    vm_compute in L.
    assert (Hbuf : buf = [97; 98]) by (inversion L; reflexivity).
    subst buf. clear L.
    rewrite Hc in N, P.
    assert (Hh : h' = breakerToken).
    { cbn [call] in C. change (isBreakerRune 32) with true in C. cbv iota in C.
      destruct (outputLatin take_all 299 t) as [t1| |];
        [|discriminate C|discriminate C].
      cbn [bind] in C. inversion C. reflexivity. }
    subst h'. exists t, t'.
    split; [exact S|]. split; [exact Hc|]. split; [exact C|].
    split; [rewrite Y, N; reflexivity|].
    destruct (Pay 100 299) as [P1 P2];
      [vm_compute; split; intros F; discriminate F|].
    split; [exact P1|]. split; [exact P2|].
    destruct M' as [_ M']. rewrite M', P. reflexivity.
Defined.

(** A word, a CJK character, a letter and a digit, by
    [run_breaking_asymmetry]. *)
Lemma run_breaking_asymmetry_witness :
  exists t',
    Tokenize take_all (NewSimpleTokenizer (bytes_of "ab中a1")) = Ok t' /\
    yielded t' = [makeToken (bytes_of "ab") 0;
                  makeToken (bytes_of "中a1") 1;
                  makeToken (bytes_of "a1") 2;
                  makeToken (bytes_of "1") 3] /\
    currTokenPos t' = 4.
Proof.
  destruct (run_breaking_asymmetry take_all [[97]; [98]] (bytes_of "中")
              [[97]; [49]])
    as (buf & t' & L & T & Y & C & _ & _).
  - intros seen tk. reflexivity.
  - intros F. discriminate F.
  - repeat constructor; eexists;
      (split; [|split; [|reflexivity]]); reflexivity.
  - repeat constructor; eexists; (split; [|reflexivity]); reflexivity.
  - reflexivity.
  - vm_compute in L.
    assert (Hbuf : buf = [97; 98]) by (inversion L; reflexivity).
    subst buf. exists t'. split; [exact T|]. split; [|exact C].
    rewrite Y. reflexivity.
Defined.
